(** * Markdown-to-HTML/PDF converter ([index.cjs]): document assembly pipeline

    A shallow embedding of the heading extractor, the table-of-contents
    builder, the anchor injector, the image path remapper and the two image
    resolvers of [index.cjs], together with the command-line driver, and the
    properties the specification states about them.

    JavaScript strings are sequences of UTF-16 code units; they are modelled
    as lists of code units so that [\s], [.] and [trim] keep their ECMAScript
    meaning on non-ASCII white space and line terminators. *)

From Stdlib Require Import Ascii String.
From Stdlib Require Import List NArith ZArith Lia Bool.
From Stdlib Require DecimalString.
From Stdlib.Strings Require Import Byte.
Import ListNotations.

Set Implicit Arguments.

(** ** JavaScript strings *)

Definition codeunit := N.
Definition jsstring := list codeunit.

(** ASCII literal to code units. *)
Definition js (s : string) : jsstring :=
  List.map N_of_ascii (list_ascii_of_string s).

Definition jsstring_eqb (a b : jsstring) : bool :=
  if list_eq_dec N.eq_dec a b then true else false.

(** The double quote, and a text between double quotes. *)
Definition dq : jsstring := [34%N].
Definition nl : jsstring := [10%N].
Definition quoted (s : jsstring) : jsstring := dq ++ s ++ dq.

(** Number-to-string conversion of a template literal, for naturals. *)
Definition decimal (n : nat) : jsstring :=
  js (DecimalString.NilEmpty.string_of_uint (Nat.to_uint n)).

Module Char.

Local Open Scope N_scope.

(** ECMAScript LineTerminator: LF, CR, LS, PS. *)
Definition is_line_terminator (c : codeunit) : bool :=
  (c =? 10) || (c =? 13) || (c =? 8232) || (c =? 8233).

(** ECMAScript WhiteSpace: TAB, VT, FF, ZWNBSP and the Zs category. *)
Definition is_white_space (c : codeunit) : bool :=
  (c =? 9) || (c =? 11) || (c =? 12) || (c =? 32) || (c =? 160)
  || (c =? 5760) || ((8192 <=? c) && (c <=? 8202))
  || (c =? 8239) || (c =? 8287) || (c =? 12288) || (c =? 65279).

(** The class [\s], also what [String.prototype.trim] strips. *)
Definition is_space (c : codeunit) : bool :=
  is_white_space c || is_line_terminator c.

(** The class [.] without the [s] flag. *)
Definition is_dot (c : codeunit) : bool := negb (is_line_terminator c).

Definition hash : codeunit := 35.
Definition dollar : codeunit := 36.
Definition star : codeunit := 42.

Definition is_char c (d : codeunit) : bool := d =? c.
Definition is_not_char c (d : codeunit) : bool := negb (d =? c).

(** Case-insensitive comparison against an ASCII letter given in lower
    case, as the [i] flag does without the [u] flag: only the letter and
    its upper-case form canonicalize to the same code unit. *)
Definition is_ci (lower : codeunit) (d : codeunit) : bool :=
  (d =? lower) || (d =? lower - 32).

End Char.

Module Str.

(** [s.startsWith(p)], returning what follows the prefix. *)
Fixpoint strip_prefix (p s : jsstring) : option jsstring :=
  match p, s with
  | [], _ => Some s
  | a :: p', b :: s' => if (a =? b)%N then strip_prefix p' s' else None
  | _ :: _, [] => None
  end.

Definition trimStart (s : jsstring) : jsstring :=
  (fix go s := match s with
               | c :: s' => if Char.is_space c then go s' else s
               | [] => []
               end) s.

Definition trimEnd (s : jsstring) : jsstring := rev (trimStart (rev s)).

(** [String.prototype.trim]. *)
Definition trim (s : jsstring) : jsstring := trimEnd (trimStart s).

(** [s.substring(1)]. *)
Definition substring1 (s : jsstring) : jsstring := tl s.

(** [s.split(sep)] for a separator of one code unit. *)
Fixpoint split (sep : codeunit) (s : jsstring) : list jsstring :=
  match s with
  | [] => [[]]
  | c :: s' =>
      if (c =? sep)%N then [] :: split sep s'
      else match split sep s' with
           | l :: ls => (c :: l) :: ls
           | [] => [[c]]
           end
  end.

(** [s.repeat(n)]. *)
Fixpoint repeat (s : jsstring) (n : nat) : jsstring :=
  match n with
  | O => []
  | S n' => s ++ repeat s n'
  end.

(** [GetSubstitution] of ECMAScript for a match without capture groups:
    in the replacement template [$$] stands for a dollar sign, [$&] for the
    matched text, [$`] for the text before the match and [$'] for the text
    after it; every other character, a lone [$] included, stands for
    itself. *)
Fixpoint getSubstitution (matched before after template : jsstring) : jsstring :=
  match template with
  | [] => []
  | c :: t =>
      if (c =? Char.dollar)%N then
        match t with
        | d :: t' =>
            if (d =? 36)%N then Char.dollar :: getSubstitution matched before after t'
            else if (d =? 38)%N then matched ++ getSubstitution matched before after t'
            else if (d =? 96)%N then before ++ getSubstitution matched before after t'
            else if (d =? 39)%N then after ++ getSubstitution matched before after t'
            else c :: getSubstitution matched before after t
        | [] => [c]
        end
      else c :: getSubstitution matched before after t
  end.

(** Position of the first occurrence of [pat]: the text before it and the
    text after it. *)
Fixpoint find (pat : jsstring) (before s : jsstring) : option (jsstring * jsstring) :=
  match strip_prefix pat s with
  | Some rest => Some (before, rest)
  | None =>
      match s with
      | [] => None
      | c :: s' => find pat (before ++ [c]) s'
      end
  end.

(** [s.replace(pat, template)] with a string pattern: the first occurrence
    only, the template expanded by [getSubstitution]. *)
Definition replace (pat template s : jsstring) : jsstring :=
  match find pat [] s with
  | Some (before, after) =>
      before ++ getSubstitution pat before after template ++ after
  | None => s
  end.

End Str.

(** [xs.join(sep)]. *)
Fixpoint joinWith (sep : jsstring) (xs : list jsstring) : jsstring :=
  match xs with
  | [] => []
  | [x] => x
  | x :: xs' => x ++ sep ++ joinWith sep xs'
  end.

(** ** Regular expressions as backtracking matchers

    Each regular expression of the source is written with the combinators
    below, in continuation-passing style: a quantifier receives the matcher of
    what follows it and tries its alternatives in the order of the ECMAScript
    backtracking semantics (longest first for a greedy quantifier, shortest
    first for a lazy one). *)

Module Re.

Section Combinators.

Variable R : Type.

(** Greedy repetition of a character class, at most [hi] times; the
    continuation receives the repeated text and the remaining input. *)
Fixpoint greedy (p : codeunit -> bool) (hi : nat)
         (k : jsstring -> jsstring -> option R) (acc s : jsstring) : option R :=
  match hi, s with
  | S hi', c :: s' =>
      if p c then
        match greedy p hi' k (acc ++ [c]) s' with
        | Some r => Some r
        | None => k acc s
        end
      else k acc s
  | _, _ => k acc s
  end.

(** [[p]{lo,hi}]. *)
Definition rep (p : codeunit -> bool) (lo hi : nat)
           (k : jsstring -> jsstring -> option R) (s : jsstring) : option R :=
  greedy p hi (fun g rest => if Nat.ltb (length g) lo then None else k g rest) [] s.

(** [[p]*] and [[p]+]. *)
Definition star p k (s : jsstring) : option R := rep p 0 (length s) k s.
Definition plus p k (s : jsstring) : option R := rep p 1 (length s) k s.

(** [[p]*?]. *)
Fixpoint lazy_star (p : codeunit -> bool)
         (k : jsstring -> jsstring -> option R) (acc s : jsstring) : option R :=
  match k acc s with
  | Some r => Some r
  | None =>
      match s with
      | c :: s' => if p c then lazy_star p k (acc ++ [c]) s' else None
      | [] => None
      end
  end.

(** A literal. *)
Definition lit (l : jsstring) (k : jsstring -> option R) (s : jsstring) : option R :=
  match Str.strip_prefix l s with
  | Some rest => k rest
  | None => None
  end.

(** [(?:X)?], greedy: with [X] first, then without. *)
Definition opt (x : (jsstring -> option R) -> jsstring -> option R)
           (k : jsstring -> option R) (s : jsstring) : option R :=
  match x k s with
  | Some r => Some r
  | None => k s
  end.

(** [$] without the [m] flag. *)
Definition eos (r : R) (s : jsstring) : option R :=
  match s with
  | [] => Some r
  | _ :: _ => None
  end.

(** A matcher anchored at the start of its input returns its captures
    and the input left after the match. *)
Definition matcher := jsstring -> option (R * jsstring).

(** Leftmost match at or after the current position: the input from the
    start of the match, the captures, the input after the match. *)
Fixpoint search (m : matcher) (s : jsstring) : option (jsstring * R * jsstring) :=
  match m s with
  | Some (r, rest) => Some (s, r, rest)
  | None =>
      match s with
      | [] => None
      | _ :: s' => search m s'
      end
  end.

(** The matched text [match[0]], given the input at the start of the
    match and the input after it. *)
Definition matched (from rest : jsstring) : jsstring :=
  firstn (length from - length rest) from.

(** Successive [regex.exec] calls of a global regular expression whose
    matches are not empty: [(match[0], captures)] for each match. The
    fuel bounds the number of matches. *)
Fixpoint execAll_fuel (fuel : nat) (m : matcher) (s : jsstring) : list (jsstring * R) :=
  match fuel with
  | O => []
  | S fuel' =>
      match search m s with
      | Some (from, r, rest) => (matched from rest, r) :: execAll_fuel fuel' m rest
      | None => []
      end
  end.

Definition execAll (m : matcher) (s : jsstring) : list (jsstring * R) :=
  execAll_fuel (S (length s)) m s.

End Combinators.

(** [s.replace(/pat/g, template)] for a regular expression that matches
    the literal text [pat]: every match, left to right, replaced by the
    expansion of the template; [before] is the input already scanned. *)
Fixpoint replaceAll_fuel (fuel : nat) (pat template before s : jsstring) : jsstring :=
  match fuel with
  | O => s
  | S fuel' =>
      match Str.strip_prefix pat s with
      | Some rest =>
          match pat, s with
          | _ :: _, _ =>
              Str.getSubstitution pat before rest template
                ++ replaceAll_fuel fuel' pat template (before ++ pat) rest
          | [], c :: s' =>
              Str.getSubstitution [] before s template
                ++ c :: replaceAll_fuel fuel' pat template (before ++ [c]) s'
          | [], [] => Str.getSubstitution [] before [] template
          end
      | None =>
          match s with
          | [] => []
          | c :: s' => c :: replaceAll_fuel fuel' pat template (before ++ [c]) s'
          end
      end
  end.

(** The scan resumed on [s], after [before]. *)
Definition replaceFrom (pat template before s : jsstring) : jsstring :=
  replaceAll_fuel (S (length s)) pat template before s.

Definition replaceAll (pat template s : jsstring) : jsstring :=
  replaceFrom pat template [] s.

End Re.

(** ** Heading records (lines 73-138) *)

Record HeadingRecord := mkHeading {
  level : nat;
  text : jsstring;
  id : jsstring
}.

(** The option object passed to the [slugify] package. *)
Record SlugifyOptions := {
  lower : bool;
  strict : bool;
  replacement : option jsstring
}.

(** The [slugify] package (an npm dependency, not part of the repository). *)
Class Slugifier := slugify : jsstring -> SlugifyOptions -> jsstring.

(** [/^(#{1,6})\s+(.+)$/]: the two capture groups. *)
Definition headingMatch (line : jsstring) : option (jsstring * jsstring) :=
  Re.rep (Char.is_char Char.hash) 1 6 (fun g1 s1 =>
    Re.plus Char.is_space (fun _ s2 =>
      Re.plus Char.is_dot (fun g2 s3 => Re.eos (g1, g2) s3) s2) s1) line.

Section Headings.

Context {SL : Slugifier}.

Definition heading_of_line (line : jsstring) : list HeadingRecord :=
  match headingMatch line with
  | Some (g1, g2) =>
      let level := length g1 in
      let text := Str.trim g2 in
      let id := slugify text
                  {| lower := true; strict := true; replacement := Some (js "-") |} in
      [ {| level := level; text := text; id := id |} ]
  | None => []
  end.

(** [extractHeadings] (lines 74-95). *)
Definition extractHeadings (content : jsstring) : list HeadingRecord :=
  flat_map heading_of_line (Str.split 10%N content).

End Headings.

(** One list item of the table of contents (lines 103-106). The level of a
    record is at least 1, so the count given to [repeat] is not negative. *)
Definition tocEntry (heading : HeadingRecord) : jsstring :=
  let indent := Str.repeat (js "  ") (level heading - 1) in
  let displayText := Re.replaceAll (js "**") [] (text heading) in
  indent ++ js "<li class=" ++ quoted (js "toc-level-" ++ decimal (level heading))
         ++ js "><a href=" ++ quoted (js "#" ++ id heading) ++ js ">" ++ displayText
         ++ js "</a></li>" ++ nl.

(** [generateTOC] (lines 98-111). *)
Definition tocHeader : jsstring :=
  js "<div class=" ++ quoted (js "toc-container") ++ js ">" ++ nl
     ++ js "<h2>Table of Contents</h2>" ++ nl
     ++ js "<ul class=" ++ quoted (js "toc") ++ js ">" ++ nl.

Definition pageBreak : jsstring :=
  js "<div class=" ++ quoted (js "page-break") ++ js "></div>".

Definition tocFooter : jsstring :=
  js "</ul>" ++ nl ++ js "</div>" ++ nl ++ pageBreak ++ nl.

Definition generateTOC (headings : list HeadingRecord) : jsstring :=
  fold_left (fun toc heading => toc ++ tocEntry heading) headings tocHeader
    ++ tocFooter.

(** [new RegExp(`<${tagName}>(.*?)</${tagName}>`, "g")]: capture group 1. *)
Definition headingElement (tagName : jsstring) : Re.matcher jsstring :=
  Re.lit (js "<" ++ tagName ++ js ">")
    (Re.lazy_star Char.is_dot
       (fun g1 => Re.lit (js "</" ++ tagName ++ js ">") (fun rest => Some (g1, rest)))
       []).

(** The body of the [forEach] of [addHeadingIds] (lines 117-135): the first
    match whose trimmed inner text is the record's trimmed text is replaced,
    through [String.prototype.replace] with a string pattern. *)
Definition addHeadingId (processedHtml : jsstring) (heading : HeadingRecord) : jsstring :=
  let tagName := js "h" ++ decimal (level heading) in
  let hit (m : jsstring * jsstring) :=
    jsstring_eqb (Str.trim (snd m)) (Str.trim (text heading)) in
  match List.find hit (Re.execAll (headingElement tagName) processedHtml) with
  | Some (original, inner) =>
      let replacement :=
        js "<" ++ tagName ++ js " id=" ++ quoted (id heading) ++ js ">"
           ++ inner ++ js "</" ++ tagName ++ js ">" in
      Str.replace original replacement processedHtml
  | None => processedHtml
  end.

(** [addHeadingIds] (lines 114-138). *)
Definition addHeadingIds (html : jsstring) (headings : list HeadingRecord) : jsstring :=
  fold_left addHeadingId headings html.

(** ** Image path remapping (lines 30-71) *)

(** A remapping rule. Every [from] of the program is a global regular
    expression that matches one literal text: [/\/assets\//g] by default, and
    for [--remap] the text with its special characters escaped (line 784);
    [from] is that text. *)
Record PathMapping := {
  from : jsstring;
  to : jsstring
}.

Record ImagePathConfig := {
  enableRemapping : bool;
  pathMappings : list PathMapping;
  handleExternalUrls : bool
}.

Definition imagePathConfig : ImagePathConfig :=
  {| enableRemapping := true;
     pathMappings := [ {| from := js "/assets/"; to := js "/_assets/" |} ];
     handleExternalUrls := true |}.

(** A literal of lower-case ASCII letters under the [i] flag. *)
Fixpoint lit_ci (l : jsstring) (k : jsstring -> option unit) (s : jsstring) : option unit :=
  match l, s with
  | [], _ => k s
  | a :: l', c :: s' => if Char.is_ci a c then lit_ci l' k s' else None
  | _ :: _, [] => None
  end.

(** [imagePath.match(/^https?:\/\//i)], as a truth value. *)
Definition isExternalUrl (imagePath : jsstring) : bool :=
  match lit_ci (js "http")
          (Re.opt (lit_ci (js "s")) (Re.lit (js "://") (fun _ => Some tt)))
          imagePath with
  | Some _ => true
  | None => false
  end.

Record Remapped := {
  path : jsstring;
  isExternal : bool
}.

Definition applyMappings (mappings : list PathMapping) (imagePath : jsstring) : jsstring :=
  fold_left (fun remappedPath mapping =>
               Re.replaceAll (from mapping) (to mapping) remappedPath)
            mappings imagePath.

(** [remapImagePath] (lines 49-71); the module-level configuration object is
    passed explicitly. *)
Definition remapImagePath (cfg : ImagePathConfig) (imagePath : jsstring) : Remapped :=
  if isExternalUrl imagePath then
    {| path := imagePath; isExternal := true |}
  else
    let remappedPath :=
      if enableRemapping cfg then applyMappings (pathMappings cfg) imagePath
      else imagePath in
    {| path := remappedPath; isExternal := false |}.

(** [/!\[.*?\]\((.*?)(?:\s+".*?")?\)/g]: capture group 1. *)
Definition imageSyntax : Re.matcher jsstring :=
  Re.lit (js "![")
    (Re.lazy_star Char.is_dot
       (fun _ => Re.lit (js "](")
          (Re.lazy_star Char.is_dot
             (fun g1 =>
                Re.opt (fun k =>
                          Re.plus Char.is_space
                            (fun _ => Re.lit dq
                               (Re.lazy_star Char.is_dot (fun _ => Re.lit dq k) [])))
                       (Re.lit (js ")") (fun rest => Some (g1, rest))))
             []))
       []).

(** [extractImagePaths] (lines 141-153). *)
Definition extractImagePaths (content : jsstring) : list jsstring :=
  List.map (fun m => Str.trim (snd m)) (Re.execAll imageSyntax content).

(** ** The host: Node's [path] and [fs] modules, the console

    These are not part of the repository; the program is modelled over any
    implementation of them. A file system operation either returns or throws. *)

(** A value that is thrown, as the text that Node prints for it. *)
Definition Exn := jsstring.

Inductive result (A : Type) : Type :=
| Ok (a : A)
| Throw (e : Exn).

Arguments Ok {A} a.
Arguments Throw {A} e.

Class PathLib := {
  dirname : jsstring -> jsstring;
  basename : jsstring -> jsstring;
  (** [path.basename(p, ext)] *)
  basename_without : jsstring -> jsstring -> jsstring;
  extname : jsstring -> jsstring;
  join : jsstring -> jsstring -> jsstring;
  resolve : jsstring -> jsstring -> jsstring
}.

Class FileSystem := {
  FS : Type;
  existsSync : FS -> jsstring -> bool;
  mkdirSync : FS -> jsstring -> result FS;
  copyFileSync : FS -> jsstring -> jsstring -> result FS;
  (** [fs.readFileSync(p)]: the bytes of a file *)
  readFileSync : FS -> jsstring -> result (list byte);
  (** [fs.readFileSync(p, "utf-8")] *)
  readFileSync_utf8 : FS -> jsstring -> result jsstring;
  writeFileSync : FS -> jsstring -> jsstring -> result FS;
  readdirSync : FS -> jsstring -> result (list jsstring);
  (** [fs.statSync(p).isDirectory()] *)
  isDirectory : FS -> jsstring -> result bool
}.

(** [String.prototype.toLowerCase]. *)
Class StringLib := toLowerCase : jsstring -> jsstring.

Inductive Stream := stdout | stderr.

Section Effects.

Context {fsys : FileSystem}.

Record World := {
  fs : FS;
  console : list (Stream * jsstring)
}.

(** Computations that read and change the world and may throw; what was
    done before a throw stays done. *)
Definition M (A : Type) : Type := World -> result A * World.

Definition ret {A} (a : A) : M A := fun w => (Ok a, w).

Definition bind {A B} (m : M A) (k : A -> M B) : M B :=
  fun w =>
    match m w with
    | (Ok a, w') => k a w'
    | (Throw e, w') => (Throw e, w')
    end.

Definition console_log (line : jsstring) : M unit :=
  fun w => (Ok tt, {| fs := fs w; console := console w ++ [(stdout, line)] |}).

Definition console_error (line : jsstring) : M unit :=
  fun w => (Ok tt, {| fs := fs w; console := console w ++ [(stderr, line)] |}).

Definition exists_ (p : jsstring) : M bool := fun w => (Ok (existsSync (fs w) p), w).

(** A file system operation that changes the file system. *)
Definition fs_update (op : FS -> result FS) : M unit :=
  fun w =>
    match op (fs w) with
    | Ok fs' => (Ok tt, {| fs := fs'; console := console w |})
    | Throw e => (Throw e, w)
    end.

(** A file system operation that reads it. *)
Definition fs_read {A} (op : FS -> result A) : M A := fun w => (op (fs w), w).

Definition when (b : bool) (m : M unit) : M unit := if b then m else ret tt.

(** [xs.map(f)] for an effectful callback. *)
Fixpoint mapM {A B} (f : A -> M B) (xs : list A) : M (list B) :=
  match xs with
  | [] => ret []
  | x :: xs' => bind (f x) (fun y => bind (mapM f xs') (fun ys => ret (y :: ys)))
  end.

(** A [for ... of] loop that threads an accumulator. *)
Fixpoint foldM {A B} (f : B -> A -> M B) (xs : list A) (b : B) : M B :=
  match xs with
  | [] => ret b
  | x :: xs' => bind (f b x) (foldM f xs')
  end.

(** [xs.forEach(f)]. *)
Definition forM {A} (f : A -> M unit) (xs : list A) : M unit :=
  foldM (fun _ x => f x) xs tt.

End Effects.

Declare Scope js_scope.
Delimit Scope js_scope with js.
Notation "x <- m ;; k" := (bind m (fun x => k))
  (at level 61, m at next level, right associativity) : js_scope.
Notation "m ;; k" := (bind m (fun _ => k))
  (at level 61, right associativity) : js_scope.

(** ** Base64, as [Buffer.prototype.toString("base64")] produces it *)

Module Base64.

Local Open Scope N_scope.

Definition pad : codeunit := 61.

(** The alphabet of RFC 4648, section 4. *)
Definition digit (n : N) : codeunit :=
  if n <? 26 then 65 + n
  else if n <? 52 then 97 + (n - 26)
  else if n <? 62 then 48 + (n - 52)
  else if n =? 62 then 43
  else 47.

Definition value (c : codeunit) : option N :=
  if (65 <=? c) && (c <=? 90) then Some (c - 65)
  else if (97 <=? c) && (c <=? 122) then Some (c - 97 + 26)
  else if (48 <=? c) && (c <=? 57) then Some (c - 48 + 52)
  else if c =? 43 then Some 62
  else if c =? 47 then Some 63
  else None.

(** Modelled from the spec: "read its bytes, base64-encode"; the encoder
    itself is Node's [Buffer], which is not under the repository. Three
    bytes give four digits; a last group of one or two bytes is padded. *)
Fixpoint encode (bs : list byte) : jsstring :=
  match bs with
  | [] => []
  | [a] =>
      let x := Byte.to_N a in
      [digit (x / 4); digit ((x mod 4) * 16); pad; pad]
  | [a; b] =>
      let x := Byte.to_N a in
      let y := Byte.to_N b in
      [digit (x / 4); digit ((x mod 4) * 16 + y / 16); digit ((y mod 16) * 4); pad]
  | a :: b :: c :: rest =>
      let x := Byte.to_N a in
      let y := Byte.to_N b in
      let z := Byte.to_N c in
      digit (x / 4) :: digit ((x mod 4) * 16 + y / 16)
        :: digit ((y mod 16) * 4 + z / 64) :: digit (z mod 64) :: encode rest
  end.

Definition byte1 (v1 v2 : N) : option byte := Byte.of_N (v1 * 4 + v2 / 16).
Definition byte2 (v2 v3 : N) : option byte := Byte.of_N ((v2 mod 16) * 16 + v3 / 4).
Definition byte3 (v3 v4 : N) : option byte := Byte.of_N ((v3 mod 4) * 64 + v4).

(** The decoder: groups of four digits, padding only in the last group. *)
Fixpoint decode (s : jsstring) : option (list byte) :=
  match s with
  | [] => Some []
  | c1 :: c2 :: c3 :: c4 :: rest =>
      match value c1, value c2 with
      | Some v1, Some v2 =>
          if (c3 =? pad) && (c4 =? pad) then
            match rest, byte1 v1 v2 with
            | [], Some a => Some [a]
            | _, _ => None
            end
          else if c4 =? pad then
            match rest, value c3 with
            | [], Some v3 =>
                match byte1 v1 v2, byte2 v2 v3 with
                | Some a, Some b => Some [a; b]
                | _, _ => None
                end
            | _, _ => None
            end
          else
            match value c3, value c4, decode rest with
            | Some v3, Some v4, Some bs =>
                match byte1 v1 v2, byte2 v2 v3, byte3 v3 v4 with
                | Some a, Some b, Some c => Some (a :: b :: c :: bs)
                | _, _, _ => None
                end
            | _, _, _ => None
            end
      | _, _ => None
      end
  | _ => None
  end.

End Base64.

(** ** The image resolvers (lines 155-318) *)

Local Open Scope js_scope.

(** [s.replace(/^\.\//, e)] with [e] the empty string. *)
Definition stripDotSlash (s : jsstring) : jsstring :=
  match Str.strip_prefix (js "./") s with
  | Some rest => rest
  | None => s
  end.

(** The [switch] on the file extension (lines 279-298). *)
Definition mimeTypeOf (ext : jsstring) : jsstring :=
  if jsstring_eqb ext (js "jpg") then js "image/jpeg"
  else if jsstring_eqb ext (js "jpeg") then js "image/jpeg"
  else if jsstring_eqb ext (js "png") then js "image/png"
  else if jsstring_eqb ext (js "gif") then js "image/gif"
  else if jsstring_eqb ext (js "svg") then js "image/svg+xml"
  else if jsstring_eqb ext (js "webp") then js "image/webp"
  else js "image/" ++ ext.

(** [`data:${mimeType};base64,${base64Image}`] (line 303). *)
Definition dataUriOf (mimeType : jsstring) (imageBuffer : list byte) : jsstring :=
  js "data:" ++ mimeType ++ js ";base64," ++ Base64.encode imageBuffer.

(** [/<img[^>]+src=Q([^Q]+)Q[^>]*>/g], writing [Q] for the double quote:
    capture group 1. *)
Definition imgElement : Re.matcher jsstring :=
  Re.lit (js "<img")
    (Re.plus (Char.is_not_char 62)
       (fun _ => Re.lit (js "src=" ++ dq)
          (Re.plus (Char.is_not_char 34)
             (fun g1 => Re.lit dq
                (Re.star (Char.is_not_char 62)
                   (fun _ => Re.lit (js ">") (fun rest => Some (g1, rest)))))))).

Section Resolvers.

Context {plib : PathLib} {fsys : FileSystem} {slib : StringLib}.

Variable cfg : ImagePathConfig.

(** Lines 179-211 of the callback: the remapped path is resolved against
    the directory of the source document and looked up as a file. *)
Definition copyResolved (sourceDir imagesOutputDir imagePath pathToResolve : jsstring)
  : M jsstring :=
  let resolvedImagePath := resolve sourceDir pathToResolve in
  found <- exists_ resolvedImagePath ;;
  if found then
    let relativeDir := stripDotSlash (dirname pathToResolve) in
    let nestedOutputDir := join imagesOutputDir relativeDir in
    let top := jsstring_eqb relativeDir (js ".") in
    when (negb top)
         (nested <- exists_ nestedOutputDir ;;
          when (negb nested) (fs_update (fun s => mkdirSync s nestedOutputDir))) ;;
    let fileName := basename resolvedImagePath in
    let finalOutputDir := if top then imagesOutputDir else nestedOutputDir in
    let outputPath := join finalOutputDir fileName in
    fs_update (fun s => copyFileSync s resolvedImagePath outputPath) ;;
    ret (if top then js "images/" ++ fileName
         else js "images/" ++ relativeDir ++ js "/" ++ fileName)
  else
    console_log (js "Warning: Image not found: " ++ resolvedImagePath) ;;
    ret imagePath.

(** The callback of [imagePaths.map] in [copyImages] (lines 164-212). *)
Definition copyImage (sourceDir imagesOutputDir imagePath : jsstring) : M jsstring :=
  if isExternalUrl imagePath then
    console_log (js "External URL detected, keeping as-is: " ++ imagePath) ;;
    ret imagePath
  else
    let remappedImage := remapImagePath cfg imagePath in
    if isExternal remappedImage then ret (path remappedImage)
    else copyResolved sourceDir imagesOutputDir imagePath (path remappedImage).

(** [copyImages] (lines 156-213). *)
Definition copyImages (sourceFilePath : jsstring) (imagePaths : list jsstring)
           (outputDir : jsstring) : M (list jsstring) :=
  let sourceDir := dirname sourceFilePath in
  let imagesOutputDir := join outputDir (js "images") in
  present <- exists_ imagesOutputDir ;;
  when (negb present) (fs_update (fun s => mkdirSync s imagesOutputDir)) ;;
  mapM (copyImage sourceDir imagesOutputDir) imagePaths.

(** [processHtmlImagesForHtml] (lines 216-230): the regular expression
    built from the escaped path matches the literal [src="<path>"]. *)
Definition processHtmlImagesForHtml (html : jsstring)
           (originalPaths newPaths : list jsstring) : jsstring :=
  fold_left (fun processedHtml p =>
               Re.replaceAll (js "src=" ++ quoted (fst p))
                             (js "src=" ++ quoted (snd p)) processedHtml)
            (combine originalPaths newPaths) html.

(** Lines 268-314 of the loop body: the remapped path is resolved against
    the directory of the source document and, if it is a file, embedded. *)
Definition embedResolved (sourceDir processedHtml imgTag imgSrc pathToResolve : jsstring)
  : M jsstring :=
  let resolvedImagePath := resolve sourceDir pathToResolve in
  found <- exists_ resolvedImagePath ;;
  if found then
    let ext := toLowerCase (Str.substring1 (extname resolvedImagePath)) in
    let mimeType := mimeTypeOf ext in
    imageBuffer <- fs_read (fun s => readFileSync s resolvedImagePath) ;;
    let dataUri := dataUriOf mimeType imageBuffer in
    let newImgTag :=
      Str.replace (js "src=" ++ quoted imgSrc) (js "src=" ++ quoted dataUri) imgTag in
    let processedHtml' := Str.replace imgTag newImgTag processedHtml in
    console_log (js "Embedded image: " ++ basename resolvedImagePath) ;;
    ret processedHtml'
  else
    console_log (js "Warning: Image not found for embedding: " ++ resolvedImagePath) ;;
    ret processedHtml.

(** The body of the second loop of [convertImagesToBase64] (lines 249-315),
    for one collected tag [(fullTag, src)]. *)
Definition embedImage (sourceDir processedHtml : jsstring)
           (img : jsstring * jsstring) : M jsstring :=
  let imgTag := fst img in
  let imgSrc := snd img in
  if isExternalUrl imgSrc then
    console_log (js "External URL image detected: " ++ imgSrc) ;;
    ret processedHtml
  else
    let remappedImage := remapImagePath cfg imgSrc in
    if isExternal remappedImage then ret processedHtml
    else embedResolved sourceDir processedHtml imgTag imgSrc (path remappedImage).

(** [convertImagesToBase64] (lines 233-318). *)
Definition convertImagesToBase64 (sourceFilePath html : jsstring) : M jsstring :=
  let sourceDir := dirname sourceFilePath in
  let imgTags := Re.execAll imgElement html in
  foldM (embedImage sourceDir) imgTags html.

End Resolvers.

(** ** Document assembly (lines 469-749) *)

(** [markdown-it]'s [md.render], configured as in lines 10-28. *)
Class Markdown := md_render : jsstring -> jsstring.

(** The style element returned by [generateCSS] (lines 321-450), a constant
    text kept opaque. *)
Class Stylesheet := generateCSS : jsstring.

(** The headless browser: [puppeteer.launch]; [browser.newPage] with
    [page.setViewport]; [page.setContent] with its timeout followed by the
    one-second wait and [page.pdf] to a path in a paper format;
    [browser.close]. *)
Class Browser `{FileSystem} := {
  browser_launch : result unit;
  browser_newPage : result unit;
  page_print : FS -> jsstring -> N -> jsstring -> jsstring -> result FS;
  browser_close : result unit
}.

Definition spaces (n : nat) : jsstring := Str.repeat (js " ") n.

(** The page template of lines 508-523, 543-558, 636-651 and 701-716; the
    four differ in their indentation, title and top heading only. *)
Definition pageTemplate (indent : nat) (title css toc body : jsstring) (h1 : jsstring) : jsstring :=
  nl ++ spaces indent ++ js "<!DOCTYPE html>"
  ++ nl ++ spaces indent ++ js "<html>"
  ++ nl ++ spaces indent ++ js "<head>"
  ++ nl ++ spaces (indent + 2) ++ js "<meta charset=" ++ quoted (js "UTF-8") ++ js ">"
  ++ nl ++ spaces (indent + 2) ++ js "<title>" ++ title ++ js "</title>"
  ++ nl ++ spaces (indent + 2) ++ css
  ++ nl ++ spaces (indent + 2) ++ js "<link rel=" ++ quoted (js "stylesheet") ++ js " href="
        ++ quoted (js "https://cdnjs.cloudflare.com/ajax/libs/highlight.js/11.7.0/styles/github.min.css")
        ++ js ">"
  ++ nl ++ spaces indent ++ js "</head>"
  ++ nl ++ spaces indent ++ js "<body>"
  ++ nl ++ spaces (indent + 2) ++ js "<h1>" ++ h1 ++ js "</h1>"
  ++ nl ++ spaces (indent + 2) ++ toc
  ++ nl ++ spaces (indent + 2) ++ body
  ++ nl ++ spaces indent ++ js "</body>"
  ++ nl ++ spaces indent ++ js "</html>"
  ++ nl ++ spaces (indent - 2).

Section Assembly.

Context {SL : Slugifier} {plib : PathLib} {fsys : FileSystem} {slib : StringLib}
        {mk : Markdown} {sty : Stylesheet} {br : Browser}.

Variable cfg : ImagePathConfig.

(** The callback that adds the file context to a heading in combined mode
    (lines 484-488 and 601-605): the record's text is overwritten with the
    qualified text, and its id derived from it. *)
Definition qualifyHeading (file : jsstring) (heading : HeadingRecord) : HeadingRecord :=
  let text' := text heading ++ js " (" ++ basename file ++ js ")" in
  {| level := level heading;
     text := text';
     id := slugify text' {| lower := true; strict := true; replacement := None |} |}.

(** [`## ${path.basename(file)}\n\n${content}\n\n`]. *)
Definition fileSection (file content : jsstring) : jsstring :=
  js "## " ++ basename file ++ nl ++ nl ++ content ++ nl ++ nl.

Definition ensureDir (outputDir : jsstring) : M unit :=
  present <- exists_ outputDir ;;
  when (negb present) (fs_update (fun s => mkdirSync s outputDir)).

(** What the first pass of the combined HTML run accumulates. *)
Record Collected := {
  allContent : jsstring;
  allHeadings : list HeadingRecord;
  allImagePaths : list jsstring;
  allImageOutputPaths : list jsstring
}.

Definition collectHtml (outputDir : jsstring) (acc : Collected) (file : jsstring) : M Collected :=
  content <- fs_read (fun s => readFileSync_utf8 s file) ;;
  let fileHeadings := List.map (qualifyHeading file) (extractHeadings content) in
  let imagePaths := extractImagePaths content in
  newImagePaths <- copyImages cfg file imagePaths outputDir ;;
  ret {| allContent := allContent acc ++ fileSection file content;
         allHeadings := allHeadings acc ++ fileHeadings;
         allImagePaths := allImagePaths acc ++ imagePaths;
         allImageOutputPaths := allImageOutputPaths acc ++ newImagePaths |}.

Definition htmlUnit (outputDir file : jsstring) : M unit :=
  content <- fs_read (fun s => readFileSync_utf8 s file) ;;
  let headings := extractHeadings content in
  let toc := generateTOC headings in
  let htmlContent := md_render content in
  let htmlWithIds := addHeadingIds htmlContent headings in
  let imagePaths := extractImagePaths content in
  newImagePaths <- copyImages cfg file imagePaths outputDir ;;
  let htmlWithImages := processHtmlImagesForHtml htmlWithIds imagePaths newImagePaths in
  let name := basename_without file (js ".md") in
  let fullHtml := pageTemplate 8 name generateCSS toc htmlWithImages name in
  fs_update (fun s => writeFileSync s (join outputDir (name ++ js ".html")) fullHtml).

(** [convertToHtml] (lines 470-566). *)
Definition convertToHtml (files : list jsstring) (singleOutput : bool)
           (outputDir : jsstring) : M unit :=
  ensureDir outputDir ;;
  if singleOutput then
    all <- foldM (collectHtml outputDir) files
             {| allContent := []; allHeadings := [];
                allImagePaths := []; allImageOutputPaths := [] |} ;;
    let toc := generateTOC (allHeadings all) in
    let htmlContent := md_render (allContent all) in
    let htmlWithIds := addHeadingIds htmlContent (allHeadings all) in
    let htmlWithImages :=
      processHtmlImagesForHtml htmlWithIds (allImagePaths all) (allImageOutputPaths all) in
    let fullHtml :=
      pageTemplate 6 (js "Markdown Documentation") generateCSS toc htmlWithImages
                   (js "Documentation") in
    fs_update (fun s => writeFileSync s (join outputDir (js "combined.html")) fullHtml)
  else
    forM (htmlUnit outputDir) files.

Definition collectPdf (acc : jsstring * list HeadingRecord) (file : jsstring)
  : M (jsstring * list HeadingRecord) :=
  content <- fs_read (fun s => readFileSync_utf8 s file) ;;
  let fileHeadings := List.map (qualifyHeading file) (extractHeadings content) in
  ret (fst acc ++ fileSection file content, snd acc ++ fileHeadings).

Definition print (fullHtml : jsstring) (timeout : N) (target paper : jsstring) : M unit :=
  fs_update (fun s => page_print s fullHtml timeout target paper).

Definition pdfUnit (paper outputDir file : jsstring) : M unit :=
  console_log (js "Processing " ++ basename file ++ js " for PDF conversion...") ;;
  content <- fs_read (fun s => readFileSync_utf8 s file) ;;
  let headings := extractHeadings content in
  let toc := generateTOC headings in
  let imagePaths := extractImagePaths content in
  when (Nat.ltb 0 (length imagePaths))
       (console_log (js "Found " ++ decimal (length imagePaths) ++ js " images in "
                        ++ basename file)) ;;
  let htmlContent := md_render content in
  let htmlWithIds := addHeadingIds htmlContent headings in
  htmlWithBase64Images <- convertImagesToBase64 cfg file htmlWithIds ;;
  let name := basename_without file (js ".md") in
  let fullHtml := pageTemplate 8 name generateCSS toc htmlWithBase64Images name in
  let debugHtmlPath := join outputDir (js "debug-" ++ name ++ js ".html") in
  fs_update (fun s => writeFileSync s debugHtmlPath fullHtml) ;;
  console_log (js "Debug HTML written to " ++ debugHtmlPath) ;;
  print fullHtml 30000%N (join outputDir (name ++ js ".pdf")) paper ;;
  console_log (js "PDF generated for " ++ basename file).

(** Lines 570-579 of [convertToPdf]: up to the launch of the browser. *)
Definition launchBrowser (outputDir : jsstring) : M unit :=
  ensureDir outputDir ;;
  fs_read (fun _ => browser_launch).

(** [convertToPdf] (lines 569-749); [paper] is the global [options.paper].
    Nothing closes the browser when a step after the launch throws. *)
Definition convertToPdf (paper : jsstring) (files : list jsstring) (singleOutput : bool)
           (outputDir : jsstring) : M unit :=
  launchBrowser outputDir ;;
  fs_read (fun _ => browser_newPage) ;;
  (if singleOutput then
     all <- foldM collectPdf files ([], []) ;;
     let toc := generateTOC (snd all) in
     let htmlContent := md_render (fst all) in
     let htmlWithIds := addHeadingIds htmlContent (snd all) in
     console_log (js "Processing images for PDF embedding...") ;;
     htmlWithBase64Images <-
       foldM (fun html file => convertImagesToBase64 cfg file html) files htmlWithIds ;;
     let fullHtml :=
       pageTemplate 6 (js "Markdown Documentation") generateCSS toc htmlWithBase64Images
                    (js "Documentation") in
     let debugHtmlPath := join outputDir (js "debug-combined.html") in
     fs_update (fun s => writeFileSync s debugHtmlPath fullHtml) ;;
     console_log (js "Debug HTML written to " ++ debugHtmlPath) ;;
     print fullHtml 60000%N (join outputDir (js "combined.pdf")) paper ;;
     console_log (js "Combined PDF generated at " ++ join outputDir (js "combined.pdf"))
   else
     forM (pdfUnit paper outputDir) files) ;;
  fs_read (fun _ => browser_close).

End Assembly.

(** ** The command-line driver (lines 751-831) *)

(** The options as [commander] returns them. *)
Record Options := {
  directory : jsstring;
  format : jsstring;
  single : bool;
  output : jsstring;
  paper : jsstring;
  remap : jsstring
}.

(** The truth value of a string: it is not empty. *)
Definition truthy (s : jsstring) : bool :=
  match s with
  | [] => false
  | _ :: _ => true
  end.

(** One [from:to] pair of [--remap] (lines 781-790): the rule if both parts
    are present and not empty. *)
Definition parsePair (pair : jsstring) : option PathMapping :=
  match Str.split 58%N pair with
  | from :: to :: _ =>
      if truthy from && truthy to then Some {| from := from; to := to |} else None
  | _ => None
  end.

Definition validPaperSizes : list jsstring := [js "A4"; js "Letter"; js "Legal"].

(** [xs.includes(x)] on strings. *)
Definition includes (xs : list jsstring) (x : jsstring) : bool :=
  existsb (jsstring_eqb x) xs.

(** How a run ends: the script runs to its end and nothing is left to
    do, [process.exit] is called, an exception reaches the top level, or the
    script runs to its end while a browser that was launched is still open. *)
Inductive Outcome :=
| Completed
| Exited (status : Z)
| Uncaught (e : Exn)
| Pending.

(** The status the process ends with: Node ends a script that runs to its
    end with status 0, and one with an uncaught exception with status 1; with
    a browser still open the process does not end. *)
Definition exitStatus (o : Outcome) : option Z :=
  match o with
  | Completed => Some 0%Z
  | Exited status => Some status
  | Uncaught _ => Some 1%Z
  | Pending => None
  end.

(** [commander] (an npm dependency, not part of the repository):
    [program.parse(process.argv)] followed by [program.opts()] (lines 772-773)
    gives the options, or ends the process itself after writing to the
    console, as it does for an unknown option and for [--help]. *)
Inductive Parsed :=
| Options_of (options : Options)
| ParseExit (status : Z) (output : list (Stream * jsstring)).

Class Commander := program_parse : list jsstring -> Parsed.

Section Driver.

Context {SL : Slugifier} {plib : PathLib} {fsys : FileSystem} {slib : StringLib}
        {mk : Markdown} {sty : Stylesheet} {br : Browser}.

(** The depth at which the call stack overflows. *)
Variable stackLimit : nat.

(** [scanDir] of [traverseDirectory] (lines 455-464); [mdFiles] is the
    array it pushes to. *)
Fixpoint scanDir (depth : nat) (directory : jsstring) (mdFiles : list jsstring)
  : M (list jsstring) :=
  match depth with
  | O => fun w => (Throw (js "RangeError: Maximum call stack size exceeded"), w)
  | S depth' =>
      entries <- fs_read (fun s => readdirSync s directory) ;;
      foldM (fun mdFiles file =>
               let fullPath := join directory file in
               isDir <- fs_read (fun s => isDirectory s fullPath) ;;
               if isDir then scanDir depth' fullPath mdFiles
               else if jsstring_eqb (extname fullPath) (js ".md")
                    then ret (mdFiles ++ [fullPath])
                    else ret mdFiles)
            entries mdFiles
  end.

(** [traverseDirectory] (lines 453-467). *)
Definition traverseDirectory (useDirectory : jsstring) : M (list jsstring) :=
  scanDir stackLimit useDirectory [].

(** Lines 776-792: the rules of [--remap] replace the default ones. *)
Definition configureRemap (options : Options) : M ImagePathConfig :=
  if truthy (remap options) then
    let remapPairs := Str.split 44%N (remap options) in
    foldM (fun cfg pair =>
             match parsePair pair with
             | Some m =>
                 console_log (js "Added path remapping: " ++ from m ++ js " -> " ++ to m) ;;
                 ret {| enableRemapping := enableRemapping cfg;
                        pathMappings := pathMappings cfg ++ [m];
                        handleExternalUrls := handleExternalUrls cfg |}
             | None => ret cfg
             end)
          remapPairs
          {| enableRemapping := enableRemapping imagePathConfig;
             pathMappings := [];
             handleExternalUrls := handleExternalUrls imagePathConfig |}
  else ret imagePathConfig.

(** Lines 817-831, after the two guards. *)
Definition dispatch (cfg : ImagePathConfig) (options : Options)
           (markdownFiles : list jsstring) (w : World) : Outcome * World :=
  if jsstring_eqb (format options) (js "html") then
    match (convertToHtml cfg markdownFiles (single options) (output options) ;;
           console_log (js "HTML files generated in " ++ output options ++ js " directory")) w with
    | (Ok _, w') => (Completed, w')
    | (Throw e, w') => (Uncaught e, w')
    end
  else if jsstring_eqb (format options) (js "pdf") then
    match (console_log (js "Generating PDFs with paper size: " ++ paper options) ;;
           convertToPdf cfg (paper options) markdownFiles (single options) (output options)) w with
    | (Ok _, w') =>
        (Completed,
         snd (console_log (js "PDF files generated in " ++ output options ++ js " directory") w'))
    | (Throw e, w') =>
        (* The rejection is handled (lines 826-828); the browser, if it was
           launched, stays open. *)
        let launched :=
          match launchBrowser (output options)
                  (snd (console_log (js "Generating PDFs with paper size: "
                                        ++ paper options) w)) with
          | (Ok _, _) => true
          | (Throw _, _) => false
          end in
        (if launched then Pending else Completed,
         snd (console_error (js "Error generating PDFs: " ++ e) w'))
    end
  else
    (Completed,
     snd (console_error (js "Invalid format. Use " ++ quoted (js "html") ++ js " or "
                            ++ quoted (js "pdf") ++ js ".") w)).

(** Lines 776-794: the remapping rules and the input documents. *)
Definition startup (options : Options) : M (ImagePathConfig * list jsstring) :=
  cfg <- configureRemap options ;;
  markdownFiles <- traverseDirectory (directory options) ;;
  ret (cfg, markdownFiles).

(** The script from line 772 on. *)
Definition main (options : Options) (w : World) : Outcome * World :=
  match startup options w with
  | (Throw e, w') => (Uncaught e, w')
  | (Ok (cfg, markdownFiles), w1) =>
      if Nat.eqb (length markdownFiles) 0 then
        (Exited 1%Z,
         snd (console_error (js "No markdown files found in " ++ directory options) w1))
      else
        let w2 := snd (console_log (js "Found " ++ decimal (length markdownFiles)
                                       ++ js " markdown files in " ++ directory options) w1) in
        if jsstring_eqb (format options) (js "pdf")
           && negb (includes validPaperSizes (paper options)) then
          (Exited 1%Z,
           snd (console_error (js "Invalid paper size: " ++ paper options
                                  ++ js ". Valid options are: A4, Letter, Legal") w2))
        else dispatch cfg options markdownFiles w2
  end.

Context {cmd : Commander}.

(** The script from line 772 on: the command line is parsed, then the rest
    runs with the options. *)
Definition program (argv : list jsstring) (w : World) : Outcome * World :=
  match program_parse argv with
  | ParseExit status output =>
      (Exited status, {| fs := fs w; console := console w ++ output |})
  | Options_of options => main options w
  end.

End Driver.

(** ** The anchor identifier generator of the specification *)

Module SpecModel.

Local Open Scope N_scope.

Definition is_upper (c : codeunit) : bool := (65 <=? c) && (c <=? 90).
Definition is_lower (c : codeunit) : bool := (97 <=? c) && (c <=? 122).
Definition is_digit (c : codeunit) : bool := (48 <=? c) && (c <=? 57).
Definition is_alnum (c : codeunit) : bool := is_upper c || is_lower c || is_digit c.

Definition to_lower (c : codeunit) : codeunit := if is_upper c then c + 32 else c.

Definition hyphen : codeunit := 45.

(** Runs of characters that are not alphanumeric become one hyphen;
    [pending] tells that such a run is being skipped. *)
Fixpoint collapse (pending : bool) (s : jsstring) : jsstring :=
  match s with
  | [] => if pending then [hyphen] else []
  | c :: s' =>
      if is_alnum c then
        (if pending then [hyphen] else []) ++ to_lower c :: collapse false s'
      else collapse true s'
  end.

Definition trim_hyphens (s : jsstring) : jsstring :=
  let strip := fix strip (s : jsstring) : jsstring :=
    match s with
    | c :: s' => if c =? hyphen then strip s' else s
    | [] => []
    end in
  rev (strip (rev (strip s))).

(** Modelled from the spec: the [slugify] package is not under the
    repository; section 4.2 describes its result as an "identifier
    consisting of lowercase ASCII letters, digits, and hyphens;
    non-alphanumeric runs collapse to a single hyphen; leading/trailing
    hyphens trimmed". *)
Definition slugify_spec (text : jsstring) : jsstring :=
  trim_hyphens (collapse false text).

Definition slugifier : Slugifier := fun text _ => slugify_spec text.

End SpecModel.

(** ** A small host, to run the program on concrete inputs

    A path library for slash-separated paths without trailing slash, with
    the root as working directory; a file system that is a list of files and
    directories; ASCII lower-casing; a renderer for heading lines; a browser
    that writes an empty file; a command line that is already parsed. *)

Module Host.

Definition slash : codeunit := 47%N.
Definition dot : codeunit := 46%N.

(** The text after the last occurrence of [c], if there is one. *)
Fixpoint after_last (c : codeunit) (s : jsstring) : option jsstring :=
  match s with
  | [] => None
  | d :: s' =>
      match after_last c s' with
      | Some r => Some r
      | None => if (d =? c)%N then Some s' else None
      end
  end.

Definition is_absolute (p : jsstring) : bool :=
  match p with
  | c :: _ => (c =? slash)%N
  | [] => false
  end.

(** The segments of a path, with empty segments and [.] dropped and [..]
    resolved against the segment before it; [stack] holds the segments kept
    so far, the last one first. *)
Fixpoint segments (absolute : bool) (stack parts : list jsstring) : list jsstring :=
  match parts with
  | [] => rev stack
  | part :: parts' =>
      if jsstring_eqb part [] || jsstring_eqb part [dot] then
        segments absolute stack parts'
      else if jsstring_eqb part [dot; dot] then
        match stack with
        | top :: stack' =>
            if jsstring_eqb top [dot; dot] then segments absolute (part :: stack) parts'
            else segments absolute stack' parts'
        | [] =>
            if absolute then segments absolute [] parts'
            else segments absolute [part] parts'
        end
      else segments absolute (part :: stack) parts'
  end.

(** [path.normalize], for a path without trailing slash. *)
Definition normalize (p : jsstring) : jsstring :=
  let absolute := is_absolute p in
  let body := joinWith [slash] (segments absolute [] (Str.split slash p)) in
  if absolute then slash :: body
  else match body with
       | [] => [dot]
       | _ :: _ => body
       end.

Definition base (p : jsstring) : jsstring :=
  match after_last slash p with
  | Some b => b
  | None => p
  end.

Definition dir (p : jsstring) : jsstring :=
  match after_last slash p with
  | Some b =>
      match firstn (length p - length b - 1) p with
      | [] => [slash]
      | c :: d => c :: d
      end
  | None => [dot]
  end.

(** From the last dot of the base name, unless that dot is its first
    character. *)
Definition ext (p : jsstring) : jsstring :=
  match base p with
  | [] => []
  | c :: b =>
      if jsstring_eqb (c :: b) [dot; dot] then []
      else match after_last dot b with
           | Some e => dot :: e
           | None => []
           end
  end.

Definition base_without (p suffix : jsstring) : jsstring :=
  let b := base p in
  match Str.strip_prefix (rev suffix) (rev b) with
  | Some r => rev r
  | None => b
  end.

Definition paths : PathLib :=
  {| dirname := dir;
     basename := base;
     basename_without := base_without;
     extname := ext;
     join := fun a b =>
               normalize (match a, b with
                          | [], _ => b
                          | _, [] => a
                          | _, _ => a ++ [slash] ++ b
                          end);
     resolve := fun a b =>
                  if is_absolute b then normalize b
                  else if is_absolute a then normalize (a ++ [slash] ++ b)
                  else normalize (slash :: a ++ [slash] ++ b) |}.

Inductive Node :=
| File (bytes : list byte)
| Directory.

Definition Files := list (jsstring * Node).

Fixpoint lookup (s : Files) (p : jsstring) : option Node :=
  match s with
  | [] => None
  | (q, n) :: s' => if jsstring_eqb p q then Some n else lookup s' p
  end.

(** The root and the working directory are there. *)
Definition node (s : Files) (p : jsstring) : option Node :=
  if jsstring_eqb p [slash] || jsstring_eqb p [dot] then Some Directory
  else lookup s p.

Definition enoent : Exn := js "ENOENT: no such file or directory".
Definition eisdir : Exn := js "EISDIR: illegal operation on a directory".

Definition read (s : Files) (p : jsstring) : result (list byte) :=
  match node s p with
  | Some (File bytes) => Ok bytes
  | Some Directory => Throw eisdir
  | None => Throw enoent
  end.

(** A file is written into a directory that exists. *)
Definition write (s : Files) (p : jsstring) (bytes : list byte) : result Files :=
  match node s p, node s (dir p) with
  | Some Directory, _ => Throw eisdir
  | _, Some Directory => Ok ((p, File bytes) :: s)
  | _, _ => Throw enoent
  end.

(** [fs.mkdirSync(p, { recursive: true })]: the directory and those of its
    ancestors that are missing. *)
Fixpoint mkdirs (fuel : nat) (s : Files) (p : jsstring) : result Files :=
  match node s p with
  | Some Directory => Ok s
  | Some (File _) => Throw (js "EEXIST: file already exists")
  | None =>
      match fuel with
      | O => Throw enoent
      | S fuel' =>
          match mkdirs fuel' s (dir p) with
          | Ok s' => Ok ((p, Directory) :: s')
          | Throw e => Throw e
          end
      end
  end.

Definition to_byte (c : codeunit) : byte :=
  match Byte.of_N c with
  | Some b => b
  | None => x3f
  end.

(** The names directly in a directory, each once. *)
Definition entries (s : Files) (d : jsstring) : list jsstring :=
  let prefix := if jsstring_eqb d [slash] then d else d ++ [slash] in
  nodup (list_eq_dec N.eq_dec)
        (flat_map (fun f =>
                     match Str.strip_prefix prefix (fst f) with
                     | Some [] => []
                     | Some name => if existsb (N.eqb slash) name then [] else [name]
                     | None => []
                     end) s).

Definition files : FileSystem :=
  {| FS := Files;
     existsSync := fun s p => match node s p with Some _ => true | None => false end;
     mkdirSync := fun s p => mkdirs (length p) s p;
     copyFileSync := fun s a b =>
                       match read s a with
                       | Ok bytes => write s b bytes
                       | Throw e => Throw e
                       end;
     readFileSync := read;
     readFileSync_utf8 := fun s p =>
                            match read s p with
                            | Ok bytes => Ok (List.map Byte.to_N bytes)
                            | Throw e => Throw e
                            end;
     writeFileSync := fun s p content => write s p (List.map to_byte content);
     readdirSync := fun s d =>
                      match node s d with
                      | Some Directory => Ok (entries s d)
                      | Some (File _) => Throw (js "ENOTDIR: not a directory")
                      | None => Throw enoent
                      end;
     isDirectory := fun s p =>
                      match node s p with
                      | Some Directory => Ok true
                      | Some (File _) => Ok false
                      | None => Throw enoent
                      end |}.

(** The same file system, with documents that cannot be read as text. *)
Definition locked : FileSystem :=
  {| FS := Files;
     existsSync := @existsSync files;
     mkdirSync := @mkdirSync files;
     copyFileSync := @copyFileSync files;
     readFileSync := @readFileSync files;
     readFileSync_utf8 := fun _ _ => Throw (js "EACCES: permission denied");
     writeFileSync := @writeFileSync files;
     readdirSync := @readdirSync files;
     isDirectory := @isDirectory files |}.

Definition strings : StringLib := List.map SpecModel.to_lower.

(** Heading lines become heading elements, other lines are dropped. *)
Definition markdown : Markdown :=
  fun content =>
    flat_map (fun line =>
                match headingMatch line with
                | Some (g1, g2) =>
                    js "<h" ++ decimal (length g1) ++ js ">" ++ Str.trim g2
                       ++ js "</h" ++ decimal (length g1) ++ js ">" ++ nl
                | None => []
                end)
             (Str.split 10%N content).

Definition stylesheet : Stylesheet := js "<style></style>".

Definition print_empty (s : Files) (html : jsstring) (timeout : N)
           (target paper : jsstring) : result Files :=
  write s target [].

Definition browser : @Browser files :=
  @Build_Browser files (Ok tt) (Ok tt) print_empty (Ok tt).


(** A browser that cannot be launched. *)
Definition no_browser : @Browser locked :=
  @Build_Browser locked (Throw (js "Failed to launch the browser process")) (Ok tt)
                 print_empty (Ok tt).


Definition unknown_option : Commander :=
  fun _ => ParseExit 1 [(stderr, js "error: unknown option '--bogus'")].

Definition bytes_of (s : string) : list byte := List.map to_byte (js s).

Definition world (s : Files) : @World files := @Build_World files s [].

End Host.

(** ** Notions used to state the properties *)

(** [pat] occurs in [s]. *)
Definition occurs (pat s : jsstring) : Prop := exists a b, s = a ++ pat ++ b.

(** [lines.join("\n")]. *)
Fixpoint join_lines (lines : list jsstring) : jsstring :=
  match lines with
  | [] => []
  | [l] => l
  | l :: ls => l ++ nl ++ join_lines ls
  end.

Definition hashes (k : nat) : jsstring := List.repeat Char.hash k.

(** A line that starts with [k] hash characters, [k] from 1 to 6, followed
    by at least one white space character. *)
Definition starts_as_heading (line : jsstring) (k : nat) : Prop :=
  1 <= k <= 6 /\
  exists c rest, line = hashes k ++ c :: rest /\ Char.is_space c = true.

(** A line that is [k] hash characters, [k] from 1 to 6, then at least one
    white space character, then at least one more character up to the end of
    the line, none of these a line terminator. *)
Definition heading_line (line : jsstring) (k : nat) : Prop :=
  1 <= k <= 6 /\
  exists ws body,
    line = hashes k ++ ws ++ body /\
    ws <> [] /\ forallb Char.is_space ws = true /\
    body <> [] /\ forallb Char.is_dot body = true.

Section Extraction.

Context {SL : Slugifier}.

(** The record of a heading line with [k] hash characters: the text is
    the trimmed remainder of the line. *)
Definition recordOf (k : nat) (line : jsstring) : HeadingRecord :=
  let text := Str.trim (skipn k line) in
  {| level := k;
     text := text;
     id := slugify text {| lower := true; strict := true; replacement := Some (js "-") |} |}.

(** One record per line of the given shape, in the order of the lines. *)
Inductive Extracts (shape : jsstring -> nat -> Prop)
  : list jsstring -> list HeadingRecord -> Prop :=
| Extracts_nil : Extracts shape [] []
| Extracts_heading line k lines records :
    shape line k ->
    Extracts shape lines records ->
    Extracts shape (line :: lines) (recordOf k line :: records)
| Extracts_other line lines records :
    (forall k, ~ shape line k) ->
    Extracts shape lines records ->
    Extracts shape (line :: lines) records.

End Extraction.

(** The world after one more line on the standard output. *)
Definition logged {fsys : FileSystem} (w : World) (line : jsstring) : World :=
  {| fs := fs w; console := console w ++ [(stdout, line)] |}.

(** The world after one more line on the standard error. *)
Definition erred {fsys : FileSystem} (w : World) (line : jsstring) : World :=
  {| fs := fs w; console := console w ++ [(stderr, line)] |}.

(** A matcher whose matches are not empty. *)
Definition progress {R} (m : Re.matcher R) : Prop :=
  forall s r rest, m s = Some (r, rest) -> length rest < length s.

(** A computation that leaves the file system as it is. *)
Definition reads_only {fsys : FileSystem} {A} (m : M A) : Prop :=
  forall w, fs (snd (m w)) = fs w.

(** A text cut at the occurrences of [pat] that a scan from the left meets:
    every piece but the last is followed by an occurrence of [pat], the first
    one in what is left of the text, and the scan goes on after it; the last
    piece holds no occurrence. *)
Inductive Pieces (pat : jsstring) : list jsstring -> jsstring -> Prop :=
| Pieces_last x : ~ occurs pat x -> Pieces pat [x] x
| Pieces_cons x xs s :
    (forall a' b', x ++ pat ++ s = a' ++ pat ++ b' -> length x <= length a') ->
    Pieces pat xs s ->
    Pieces pat (x :: xs) (x ++ pat ++ s).

(** The pieces put together again, with the expansion of [template] in the
    place of each occurrence of [pat]: the expansion sees the text before the
    occurrence, [before] included, and the text after it. *)
Fixpoint substituted (pat template before : jsstring) (xs : list jsstring) : jsstring :=
  match xs with
  | [] => []
  | [x] => x
  | x :: xs' =>
      x ++ Str.getSubstitution pat (before ++ x) (joinWith pat xs') template
        ++ substituted pat template (before ++ x ++ pat) xs'
  end.

(** The text of [--remap] that lists the given rules: the pairs [from:to],
    separated by commas. *)
Fixpoint remapOption (rules : list PathMapping) : jsstring :=
  match rules with
  | [] => []
  | [m] => from m ++ 58%N :: to m
  | m :: ms => from m ++ 58%N :: to m ++ 44%N :: remapOption ms
  end.

(** ** Sample inputs *)

Module Sample.

Definition bold : HeadingRecord :=
  {| level := 2; text := js "Getting **Started**"; id := js "getting-started" |}.

Definition intro : HeadingRecord :=
  {| level := 1; text := js "Intro"; id := js "intro" |}.

Definition headings : list HeadingRecord := [intro; bold].



(** A markup for the combined run over [guide.md], whose content is the
    heading [## Getting Started]: an element for the file-boundary heading
    and the element of the heading of the document. *)
Definition combinedMarkup : jsstring :=
  js "<h2>guide.md</h2>" ++ nl ++ js "<h2>Getting Started</h2>" ++ nl.

(** An image element that carries its address in two attributes. *)
Definition lazyImage : jsstring :=
  js "<img data-src=" ++ quoted (js "a.png") ++ js " src=" ++ quoted (js "a.png") ++ js ">".

Definition plainImage : jsstring :=
  js "<img src=" ++ quoted (js "a.png") ++ js " alt=" ++ quoted (js "logo") ++ js ">".

Definition htmlRun : Options :=
  {| directory := js "/docs"; format := js "html"; single := true;
     output := js "/out"; paper := js "A4"; remap := [] |}.

Definition pdfRunA5 : Options :=
  {| directory := js "/docs"; format := js "pdf"; single := false;
     output := js "/out"; paper := js "A5"; remap := [] |}.

Definition emptyRun : Options :=
  {| directory := js "/empty"; format := js "html"; single := false;
     output := js "/out"; paper := js "A4"; remap := [] |}.

(** An image file whose extension is a dollar sign and a quote. *)
Definition dollarDocs : Host.Files :=
  [ (js "/docs", Host.Directory);
    (js "/docs/pic.$'", Host.File (Host.bytes_of "PNG")) ].

Definition dollarImage : jsstring :=
  js "<img src=" ++ quoted (js "pic.$'") ++ js " alt=" ++ quoted (js "x") ++ js ">".

(** A document with one image file next to it, and an empty directory. *)
Definition docs : Host.Files :=
  [ (js "/docs", Host.Directory);
    (js "/docs/guide.md", Host.File (Host.bytes_of "## Getting Started"));
    (js "/docs/a.png", Host.File (Host.bytes_of "PNG"));
    (js "/empty", Host.Directory) ].

(** The same, once the output directory and its image directory exist. *)
Definition published : Host.Files :=
  [ (js "/out/images", Host.Directory); (js "/out", Host.Directory) ] ++ docs.

(** A page with two elements of level 2 that hold the same text. *)
Definition setup : HeadingRecord :=
  {| level := 2; text := js "Setup"; id := js "setup" |}.

Definition setupBefore : jsstring := js "<h1>Intro</h1>" ++ nl.
Definition setupInner : jsstring := js " Setup ".
Definition setupAfter : jsstring := nl ++ js "<h2>Setup</h2>" ++ nl.

(** A document with two image references, and one of the two images. *)
Definition illustrated : Host.Files :=
  [ (js "/docs", Host.Directory);
    (js "/docs/guide.md",
     Host.File (Host.bytes_of "![logo](a.png) and ![gone](missing.png)"));
    (js "/docs/a.png", Host.File (Host.bytes_of "PNG")) ].

(** A run in a format that is neither of the two, and a PDF run. *)
Definition docxRun : Options :=
  {| directory := js "/docs"; format := js "docx"; single := false;
     output := js "/out"; paper := js "A4"; remap := [] |}.

Definition pdfRunA4 : Options :=
  {| directory := js "/docs"; format := js "pdf"; single := false;
     output := js "/out"; paper := js "A4"; remap := [] |}.

(** A run over a directory that does not exist. *)
Definition missingRun : Options :=
  {| directory := js "/nowhere"; format := js "html"; single := false;
     output := js "/out"; paper := js "A4"; remap := [] |}.

(** Two rules, and a run that asks for them. *)
Definition twoRules : list PathMapping :=
  [ {| from := js "/img/"; to := js "/pictures/" |};
    {| from := js "old"; to := js "new" |} ].

Definition remapRun : Options :=
  {| directory := js "/docs"; format := js "html"; single := false;
     output := js "/out"; paper := js "A4"; remap := js "/img/:/pictures/,old:new" |}.

End Sample.

(** * Properties *)

(** ** Strings *)

Lemma jsstring_eqb_eq a b : jsstring_eqb a b = true <-> a = b.
Proof. unfold jsstring_eqb. destruct (list_eq_dec N.eq_dec a b); split; congruence. Qed.

Lemma jsstring_eqb_refl a : jsstring_eqb a a = true.
Proof. now apply jsstring_eqb_eq. Qed.

Lemma jsstring_eqb_neq a b : jsstring_eqb a b = false <-> a <> b.
Proof. unfold jsstring_eqb. destruct (list_eq_dec N.eq_dec a b); split; congruence. Qed.

Lemma strip_prefix_app p s : Str.strip_prefix p (p ++ s) = Some s.
Proof. induction p as [|a p IH]; simpl; [reflexivity|]. now rewrite N.eqb_refl. Qed.

Lemma strip_prefix_Some p : forall s r, Str.strip_prefix p s = Some r -> s = p ++ r.
Proof.
  induction p as [|a p IH]; simpl; intros s r H.
  - congruence.
  - destruct s as [|b s]; [discriminate|].
    destruct (N.eqb_spec a b); [|discriminate].
    subst. f_equal. now apply IH.
Qed.

Lemma strip_prefix_None p s : Str.strip_prefix p s = None -> forall r, s <> p ++ r.
Proof. intros H r ->. rewrite strip_prefix_app in H. discriminate. Qed.

Lemma split_nonempty sep s : Str.split sep s <> [].
Proof.
  destruct s as [|c s]; simpl; [discriminate|].
  destruct (c =? sep)%N; [discriminate|].
  destruct (Str.split sep s); discriminate.
Qed.

Lemma split_sep sep a : forall b,
  Str.split sep (a ++ sep :: b) = Str.split sep a ++ Str.split sep b.
Proof.
  induction a as [|c a IH]; intros b; simpl.
  - now rewrite N.eqb_refl.
  - destruct (c =? sep)%N.
    + now rewrite IH.
    + rewrite IH. pose proof (split_nonempty sep a).
      destruct (Str.split sep a); [congruence|reflexivity].
Qed.

Lemma split_no_sep sep s : ~ In sep s -> Str.split sep s = [s].
Proof.
  induction s as [|c s IH]; simpl; intros H; [reflexivity|].
  destruct (N.eqb_spec c sep) as [->|_]; [tauto|].
  rewrite IH by tauto. reflexivity.
Qed.

Lemma split_lines_no_newline s : Forall (fun l => ~ In 10%N l) (Str.split 10%N s).
Proof.
  induction s as [|c s IH]; simpl.
  - constructor; [tauto|constructor].
  - destruct (N.eqb_spec c 10).
    + constructor; [tauto|assumption].
    + destruct (Str.split 10%N s) as [|l ls]; [repeat constructor; simpl; intuition|].
      inversion IH; subst. constructor; [|assumption].
      simpl. intuition.
Qed.

Lemma join_split_lines s : join_lines (Str.split 10%N s) = s.
Proof.
  induction s as [|c s IH]; simpl; [reflexivity|].
  destruct (N.eqb_spec c 10) as [->|_].
  - pose proof (split_nonempty 10%N s) as Hne.
    destruct (Str.split 10%N s) as [|l ls]; [congruence|].
    simpl in *. unfold nl. simpl. now rewrite IH.
  - destruct (Str.split 10%N s) as [|l ls]; simpl in *; [now subst|].
    destruct ls; simpl in *; now subst.
Qed.

Lemma trimStart_cons c s :
  Str.trimStart (c :: s) = if Char.is_space c then Str.trimStart s else c :: s.
Proof. reflexivity. Qed.

Lemma trimStart_spaces ws s :
  forallb Char.is_space ws = true -> Str.trimStart (ws ++ s) = Str.trimStart s.
Proof.
  induction ws as [|c ws IH]; intros H; [reflexivity|].
  simpl in H. apply andb_true_iff in H as [Hc Hws].
  change ((c :: ws) ++ s) with (c :: ws ++ s).
  rewrite trimStart_cons, Hc. now apply IH.
Qed.

Lemma trim_spaces ws s :
  forallb Char.is_space ws = true -> Str.trim (ws ++ s) = Str.trim s.
Proof. intros H. unfold Str.trim. now rewrite trimStart_spaces. Qed.

(** ** The backtracking matchers *)

Section ReFacts.

Variable R : Type.
Implicit Types (p : codeunit -> bool) (k : jsstring -> jsstring -> option R).

(** What a greedy repetition returns comes from its continuation, at some
    split of the input after a run of the class. *)
Lemma greedy_sound p k : forall hi s acc r,
  Re.greedy p hi k acc s = Some r ->
  exists g rest,
    s = g ++ rest /\ forallb p g = true /\ length g <= hi /\ k (acc ++ g) rest = Some r.
Proof.
  induction hi as [|hi IH]; intros s acc r H.
  - exists [], s. rewrite app_nil_r. destruct s; simpl in *; repeat split; auto.
  - destruct s as [|c s]; simpl in H.
    + exists [], []. rewrite !app_nil_r. simpl. repeat split; auto with arith.
    + destruct (p c) eqn:Hp.
      * destruct (Re.greedy p hi k (acc ++ [c]) s) eqn:Hg.
        -- injection H as <-.
           apply IH in Hg as (g & rest & -> & Hall & Hlen & Hk).
           exists (c :: g), rest. rewrite <- app_assoc in Hk.
           simpl. rewrite Hp, Hall. repeat split; auto with arith.
        -- exists [], (c :: s). rewrite !app_nil_r. simpl. repeat split; auto with arith.
      * exists [], (c :: s). rewrite !app_nil_r. simpl. repeat split; auto with arith.
Qed.

(** If the continuation accepts some split after a run of the class, the
    greedy repetition finds a match. *)
Lemma greedy_complete p k : forall hi g rest acc,
  forallb p g = true -> length g <= hi ->
  k (acc ++ g) rest <> None ->
  Re.greedy p hi k acc (g ++ rest) <> None.
Proof.
  induction hi as [|hi IH]; intros g rest acc Hall Hlen Hk.
  - destruct g; [|simpl in Hlen; lia].
    rewrite app_nil_r in Hk. simpl. destruct rest; assumption.
  - destruct g as [|c g].
    + rewrite app_nil_r in Hk. simpl.
      destruct rest as [|c s]; [assumption|].
      destruct (p c); [|assumption].
      destruct (Re.greedy p hi k (acc ++ [c]) s); [discriminate|assumption].
    + simpl in *. apply andb_true_iff in Hall as [Hc Hall]. rewrite Hc.
      assert (Hg : Re.greedy p hi k (acc ++ [c]) (g ++ rest) <> None).
      { apply IH; [assumption|lia|]. now rewrite <- app_assoc. }
      destruct (Re.greedy p hi k (acc ++ [c]) (g ++ rest)); [discriminate|congruence].
Qed.

Lemma rep_sound p k lo hi s r :
  Re.rep p lo hi k s = Some r ->
  exists g rest,
    s = g ++ rest /\ forallb p g = true /\ lo <= length g <= hi /\ k g rest = Some r.
Proof.
  unfold Re.rep. intros H.
  apply greedy_sound in H as (g & rest & -> & Hall & Hlen & Hk).
  simpl in Hk. destruct (Nat.ltb_spec (length g) lo); [discriminate|].
  exists g, rest. auto.
Qed.

Lemma rep_complete p k lo hi g rest :
  forallb p g = true -> lo <= length g <= hi ->
  k g rest <> None ->
  Re.rep p lo hi k (g ++ rest) <> None.
Proof.
  intros Hall [Hlo Hhi] Hk. unfold Re.rep.
  apply greedy_complete; [assumption|assumption|].
  simpl. destruct (Nat.ltb_spec (length g) lo); [lia|assumption].
Qed.

Lemma plus_sound p k s r :
  Re.plus p k s = Some r ->
  exists g rest, s = g ++ rest /\ forallb p g = true /\ g <> [] /\ k g rest = Some r.
Proof.
  unfold Re.plus. intros H.
  apply rep_sound in H as (g & rest & -> & Hall & [Hlo _] & Hk).
  exists g, rest. repeat split; auto.
  destruct g; [simpl in Hlo; lia|discriminate].
Qed.

Lemma plus_complete p k g rest :
  forallb p g = true -> g <> [] ->
  k g rest <> None ->
  Re.plus p k (g ++ rest) <> None.
Proof.
  intros Hall Hne Hk. unfold Re.plus.
  apply rep_complete; [assumption| |assumption].
  rewrite length_app. destruct g; [congruence|simpl; lia].
Qed.

End ReFacts.

(** ** The heading extractor *)

Lemma hashes_forallb g :
  forallb (Char.is_char Char.hash) g = true -> g = hashes (length g).
Proof.
  induction g as [|c g IH]; simpl; intros H; [reflexivity|].
  apply andb_true_iff in H as [Hc Hg].
  unfold Char.is_char in Hc. apply N.eqb_eq in Hc. subst c.
  unfold hashes in *. simpl. f_equal. now apply IH.
Qed.

Lemma forallb_hashes k : forallb (Char.is_char Char.hash) (hashes k) = true.
Proof. induction k; simpl; auto. Qed.

Lemma length_hashes k : length (hashes k) = k.
Proof. apply repeat_length. Qed.

Lemma skipn_length_app (g s : jsstring) : skipn (length g) (g ++ s) = s.
Proof. induction g; simpl; auto. Qed.

(** The number of leading hash characters is determined by the white space
    character that follows them. *)
Lemma hashes_unique : forall k k' c c' x x',
  hashes k ++ c :: x = hashes k' ++ c' :: x' ->
  Char.is_space c = true -> Char.is_space c' = true ->
  k = k'.
Proof.
  induction k as [|k IH]; intros [|k'] c c' x x' H Hc Hc'; simpl in H.
  - reflexivity.
  - injection H as -> _. discriminate.
  - injection H as <- _. discriminate.
  - injection H as H. f_equal. eapply IH; eauto.
Qed.

Lemma headingMatch_sound line g1 g2 :
  headingMatch line = Some (g1, g2) ->
  exists ws,
    line = g1 ++ ws ++ g2 /\
    g1 = hashes (length g1) /\ 1 <= length g1 <= 6 /\
    ws <> [] /\ forallb Char.is_space ws = true /\
    g2 <> [] /\ forallb Char.is_dot g2 = true.
Proof.
  unfold headingMatch. intros H.
  apply rep_sound in H as (h & s1 & -> & Hh & Hlen & H).
  apply plus_sound in H as (ws & s2 & -> & Hws & Hne & H).
  apply plus_sound in H as (body & s3 & -> & Hbody & Hne' & H).
  destruct s3; [|discriminate]. injection H as <- <-.
  exists ws. rewrite app_nil_r. repeat split; auto using hashes_forallb; apply Hlen.
Qed.

Lemma headingMatch_complete line k :
  heading_line line k -> headingMatch line <> None.
Proof.
  intros (Hk & ws & body & -> & Hne & Hws & Hne' & Hbody).
  unfold headingMatch.
  apply rep_complete; [apply forallb_hashes|now rewrite length_hashes|].
  apply plus_complete; [assumption|assumption|].
  rewrite <- (app_nil_r body).
  apply plus_complete; [assumption|assumption|discriminate].
Qed.

Lemma headingMatch_heading_line line g1 g2 :
  headingMatch line = Some (g1, g2) -> heading_line line (length g1).
Proof.
  intros H. apply headingMatch_sound in H as (ws & -> & Hg1 & Hlen & ? & ? & ? & ?).
  split; [assumption|]. exists ws, g2. rewrite <- Hg1. auto.
Qed.

Lemma heading_line_unique line k k' :
  heading_line line k -> heading_line line k' -> k = k'.
Proof.
  intros (_ & ws & body & -> & Hne & Hws & _) (_ & ws' & body' & E & Hne' & Hws' & _).
  destruct ws as [|c ws]; [congruence|]. destruct ws' as [|c' ws']; [congruence|].
  simpl in Hws, Hws'. apply andb_true_iff in Hws as [Hc _], Hws' as [Hc' _].
  simpl in E. eapply hashes_unique; eauto.
Qed.

Section ExtractionFacts.

Context {SL : Slugifier}.

Lemma heading_of_line_heading line k :
  heading_line line k -> heading_of_line line = [recordOf k line].
Proof.
  intros Hline. unfold heading_of_line.
  destruct (headingMatch line) as [[g1 g2]|] eqn:Hm.
  - assert (length g1 = k) as <-
        by (eapply heading_line_unique; eauto using headingMatch_heading_line).
    apply headingMatch_sound in Hm as (ws & -> & Hg1 & _ & _ & Hws & _).
    unfold recordOf. rewrite skipn_length_app. now rewrite trim_spaces.
  - now apply headingMatch_complete in Hline.
Qed.

Lemma heading_of_line_other line :
  (forall k, ~ heading_line line k) -> heading_of_line line = [].
Proof.
  intros Hno. unfold heading_of_line.
  destruct (headingMatch line) as [[g1 g2]|] eqn:Hm; [|reflexivity].
  now apply headingMatch_heading_line, Hno in Hm.
Qed.

Lemma heading_line_dec line :
  (exists k, heading_line line k) \/ (forall k, ~ heading_line line k).
Proof.
  destruct (headingMatch line) as [[g1 g2]|] eqn:Hm.
  - left. eauto using headingMatch_heading_line.
  - right. intros k Hk. now apply headingMatch_complete in Hk.
Qed.

Lemma extracts_lines lines :
  Extracts heading_line lines (flat_map heading_of_line lines).
Proof.
  induction lines as [|line lines IH]; simpl; [constructor|].
  destruct (heading_line_dec line) as [[k Hk]|Hno].
  - rewrite (heading_of_line_heading Hk). simpl. now constructor.
  - rewrite (heading_of_line_other Hno). simpl. now constructor.
Qed.

End ExtractionFacts.

(** C7 (amended). For every input text, the heading extractor returns, in
    the order of the lines, one record per line that is 1 to 6 hash
    characters, followed by one or more white space characters, followed up
    to the end of the line by one or more characters none of which is a line
    terminator; the level is the number of hash characters and the text the
    trimmed remainder of the line. Each line is looked at on its own, so a
    line of this shape inside a fenced code block is extracted as well. *)
Theorem extractHeadings_lines {SL : Slugifier} (content : jsstring) :
  let lines := Str.split 10%N content in
  join_lines lines = content /\
  Forall (fun l => ~ In 10%N l) lines /\
  Extracts heading_line lines (extractHeadings content) /\
  forall before after,
    content = before ++ nl ++ after ->
    extractHeadings content = extractHeadings before ++ extractHeadings after.
Proof.
  cbv zeta. repeat split.
  - apply join_split_lines.
  - apply split_lines_no_newline.
  - apply extracts_lines.
  - intros before after ->. unfold extractHeadings, nl. simpl.
    now rewrite split_sep, flat_map_app.
Qed.

(** C7 as stated fails: the line made of a hash character and one space
    starts with one hash character followed by a white space character, and
    no record is returned for it. *)
Lemma extractHeadings_blank_heading :
  ~ @Extracts SpecModel.slugifier starts_as_heading (Str.split 10%N (js "# "))
      (@extractHeadings SpecModel.slugifier (js "# ")).
Proof.
  change (Str.split 10%N (js "# ")) with [js "# "].
  change (@extractHeadings SpecModel.slugifier (js "# ")) with (@nil HeadingRecord).
  intros H. inversion H as [| |line lines records Hno _]; subst.
  apply (Hno 1). split; [lia|].
  exists 32%N, []. split; reflexivity.
Qed.

(** A line that ends in a carriage return is not extracted either. *)
Example extractHeadings_carriage_return :
  @extractHeadings SpecModel.slugifier (js "# Title" ++ [13%N]) = [].
Proof. reflexivity. Qed.

(** A heading line between code fences is extracted. *)
Example extractHeadings_in_fence :
  List.map (fun h => (level h, text h))
           (@extractHeadings SpecModel.slugifier
              (js "```" ++ nl ++ js "# not a heading" ++ nl ++ js "```")) =
  [(1, js "not a heading")].
Proof. reflexivity. Qed.

(** ** Global replacement *)

Lemma length_ind (P : jsstring -> Prop) :
  (forall s, (forall t, length t < length s -> P t) -> P s) -> forall s, P s.
Proof.
  intros H s. remember (length s) as n eqn:E. revert s E.
  induction n as [n IH] using lt_wf_ind. intros s ->.
  apply H. intros t Ht. now apply (IH (length t)).
Qed.

Lemma strip_prefix_length p s r :
  Str.strip_prefix p s = Some r -> length s = length p + length r.
Proof. intros H. apply strip_prefix_Some in H as ->. apply length_app. Qed.

Section ReplaceFacts.

(** The pattern is not empty. *)
Variable (a0 : codeunit) (p0 template : jsstring).
Local Abbreviation pat := (a0 :: p0).

Lemma replaceAll_fuel_S fuel before s :
  Re.replaceAll_fuel (S fuel) pat template before s
  = match Str.strip_prefix pat s with
    | Some rest =>
        Str.getSubstitution pat before rest template
          ++ Re.replaceAll_fuel fuel pat template (before ++ pat) rest
    | None =>
        match s with
        | [] => []
        | c :: s' => c :: Re.replaceAll_fuel fuel pat template (before ++ [c]) s'
        end
    end.
Proof. reflexivity. Qed.

Lemma replaceAll_fuel_enough : forall f1 f2 before s,
  length s < f1 -> length s < f2 ->
  Re.replaceAll_fuel f1 pat template before s
  = Re.replaceAll_fuel f2 pat template before s.
Proof.
  induction f1 as [|f1 IH]; intros f2 before s H1 H2; [lia|].
  destruct f2 as [|f2]; [lia|]. rewrite !replaceAll_fuel_S.
  destruct (Str.strip_prefix pat s) as [rest|] eqn:Hp.
  - f_equal. apply strip_prefix_length in Hp. simpl in Hp.
    apply IH; lia.
  - destruct s as [|c s]; [reflexivity|].
    f_equal. simpl in *. apply IH; lia.
Qed.

Lemma replaceFrom_nil before : Re.replaceFrom pat template before [] = [].
Proof.
  reflexivity.
Qed.

Lemma replaceFrom_match before s rest :
  Str.strip_prefix pat s = Some rest ->
  Re.replaceFrom pat template before s
  = Str.getSubstitution pat before rest template
      ++ Re.replaceFrom pat template (before ++ pat) rest.
Proof.
  intros Hp. unfold Re.replaceFrom. rewrite replaceAll_fuel_S, Hp. f_equal.
  apply strip_prefix_length in Hp. simpl in Hp.
  apply replaceAll_fuel_enough; lia.
Qed.

Lemma replaceFrom_skip before c s :
  Str.strip_prefix pat (c :: s) = None ->
  Re.replaceFrom pat template before (c :: s)
  = c :: Re.replaceFrom pat template (before ++ [c]) s.
Proof.
  intros Hp. unfold Re.replaceFrom. rewrite replaceAll_fuel_S, Hp. reflexivity.
Qed.

Lemma occurs_cons c s :
  occurs pat (c :: s) -> Str.strip_prefix pat (c :: s) <> None \/ occurs pat s.
Proof.
  intros (a & b & E). destruct a as [|d a].
  - left. rewrite E. change ([] ++ pat ++ b) with (pat ++ b).
    rewrite strip_prefix_app. discriminate.
  - right. injection E as _ ->. now exists a, b.
Qed.

Lemma occurs_prefix s rest : Str.strip_prefix pat s = Some rest -> occurs pat s.
Proof. intros H. apply strip_prefix_Some in H as ->. now exists [], rest. Qed.

Lemma occurs_tail c s : occurs pat s -> occurs pat (c :: s).
Proof. intros (a & b & ->). now exists (c :: a), b. Qed.

(** Without an occurrence of the pattern the text is unchanged. *)
Lemma replaceFrom_absent : forall s before,
  ~ occurs pat s -> Re.replaceFrom pat template before s = s.
Proof.
  induction s as [|c s IH]; intros before Hno.
  - apply replaceFrom_nil.
  - destruct (Str.strip_prefix pat (c :: s)) as [rest|] eqn:Hp.
    + exfalso. eauto using occurs_prefix.
    + rewrite replaceFrom_skip by assumption. f_equal.
      apply IH. eauto using occurs_tail.
Qed.

(** The first occurrence is replaced by the expansion of the template, and
    the scan resumes after it. *)
Lemma replaceFrom_first : forall a before b,
  (forall a' b', a ++ pat ++ b = a' ++ pat ++ b' -> length a <= length a') ->
  Re.replaceFrom pat template before (a ++ pat ++ b)
  = a ++ Str.getSubstitution pat (before ++ a) b template
      ++ Re.replaceFrom pat template (before ++ a ++ pat) b.
Proof.
  induction a as [|c a IH]; intros before b Hmin.
  - rewrite app_nil_r. change ([] ++ pat ++ b) with (pat ++ b).
    apply replaceFrom_match. apply (strip_prefix_app pat b).
  - change ((c :: a) ++ pat ++ b) with (c :: a ++ pat ++ b).
    rewrite replaceFrom_skip.
    + change ((c :: a) ++ ?x) with (c :: a ++ x). f_equal. rewrite IH.
      * now rewrite <- !app_assoc.
      * intros a' b' E.
        assert (length (c :: a) <= length (c :: a')) as Hle
            by (apply (Hmin (c :: a') b'); simpl; f_equal; exact E).
        simpl in Hle. lia.
    + destruct (Str.strip_prefix pat (c :: a ++ pat ++ b)) as [r|] eqn:Hp; [|reflexivity].
      apply strip_prefix_Some in Hp.
      assert (length (c :: a) <= length (@nil codeunit)) as Hle
          by (apply (Hmin [] r); exact Hp).
      simpl in Hle. lia.
Qed.

End ReplaceFacts.

(** ** The table of contents *)

Lemma fold_left_append {A} (f : A -> jsstring) (xs : list A) : forall init,
  fold_left (fun acc x => acc ++ f x) xs init = init ++ concat (List.map f xs).
Proof.
  induction xs as [|x xs IH]; intros init; simpl.
  - now rewrite app_nil_r.
  - now rewrite IH, app_assoc.
Qed.

Lemma repeat_two_spaces n : Str.repeat (js "  ") n = spaces (2 * n).
Proof.
  induction n as [|n IH]; [reflexivity|].
  replace (2 * S n) with (S (S (2 * n))) by lia.
  simpl Str.repeat. rewrite IH. reflexivity.
Qed.

(** The pattern of [/\*\*/g]. *)
Lemma bold_pattern : js "**" = [Char.star; Char.star].
Proof. reflexivity. Qed.

(** Characters other than the star are kept, in their order. *)
Lemma strip_bold_keeps : forall s before,
  filter (Char.is_not_char Char.star) (Re.replaceFrom (js "**") [] before s)
  = filter (Char.is_not_char Char.star) s.
Proof.
  rewrite bold_pattern.
  induction s as [s IH] using length_ind. intros before.
  destruct (Str.strip_prefix [Char.star; Char.star] s) as [rest|] eqn:Hp.
  - rewrite (replaceFrom_match _ _ _ _ _ Hp). simpl.
    pose proof (strip_prefix_length _ _ Hp) as Hlen.
    apply strip_prefix_Some in Hp. subst s.
    rewrite IH by (simpl in *; lia). reflexivity.
  - destruct s as [|c s]; [reflexivity|].
    rewrite (replaceFrom_skip _ _ _ _ _ _ Hp). simpl.
    rewrite IH by (simpl; lia). reflexivity.
Qed.

Lemma strip_bold_head s before c r :
  Re.replaceFrom [Char.star; Char.star] [] before s = c :: r ->
  c = Char.star -> exists s', s = Char.star :: s'.
Proof.
  intros E ->.
  destruct (Str.strip_prefix [Char.star; Char.star] s) as [rest|] eqn:Hp.
  - apply strip_prefix_Some in Hp. subst s. now exists (Char.star :: rest).
  - destruct s as [|d s]; [discriminate|].
    rewrite (replaceFrom_skip _ _ _ _ _ _ Hp) in E. injection E as -> _. now exists s.
Qed.

(** No pair of stars is left. *)
Lemma strip_bold_none : forall s before,
  ~ occurs (js "**") (Re.replaceFrom (js "**") [] before s).
Proof.
  rewrite bold_pattern.
  induction s as [s IH] using length_ind. intros before.
  destruct (Str.strip_prefix [Char.star; Char.star] s) as [rest|] eqn:Hp.
  - rewrite (replaceFrom_match _ _ _ _ _ Hp). simpl.
    apply strip_prefix_length in Hp. apply IH. simpl in Hp. lia.
  - destruct s as [|c s]; [intros ([|? ?] & ? & ?); discriminate|].
    rewrite (replaceFrom_skip _ _ _ _ _ _ Hp).
    intros Hocc. apply occurs_cons in Hocc as [Hhead|Htail].
    + destruct (Re.replaceFrom [Char.star; Char.star] [] (before ++ [c]) s)
        as [|d r] eqn:E; cbn [Str.strip_prefix] in Hhead, Hp.
      * now destruct (Char.star =? c)%N.
      * destruct (N.eqb_spec Char.star c) as [<-|]; [|congruence].
        destruct (N.eqb_spec Char.star d) as [<-|]; [|congruence].
        destruct (strip_bold_head _ _ E eq_refl) as [s' ->].
        cbn [Str.strip_prefix] in Hp. rewrite N.eqb_refl in Hp. discriminate.
    + revert Htail. apply IH. simpl. lia.
Qed.

(** The entry of a level-2 record with bold markers. *)
Example tocEntry_bold :
  tocEntry Sample.bold
  = js "  <li class=" ++ quoted (js "toc-level-2") ++ js "><a href="
       ++ quoted (js "#getting-started") ++ js ">Getting Started</a></li>" ++ nl.
Proof. reflexivity. Qed.

(** ** The path remapper *)

Lemma parsePair_nonempty pair m :
  parsePair pair = Some m -> from m <> [] /\ to m <> [].
Proof.
  unfold parsePair. intros H.
  destruct (Str.split 58%N pair) as [|f [|t rest]]; try discriminate.
  destruct f, t; try discriminate; injection H as <-; split; discriminate.
Qed.

(** Two occurrences are both replaced. *)
Example remap_every_occurrence :
  path (remapImagePath imagePathConfig (js "a/assets/b/assets/c.png"))
  = js "a/_assets/b/_assets/c.png".
Proof. reflexivity. Qed.

(** ** The image resolvers *)

Section ResolverFacts.

Context {plib : PathLib} {fsys : FileSystem} {slib : StringLib}.

Variable cfg : ImagePathConfig.

Lemma copyImage_local sourceDir imagesOutputDir ref :
  isExternalUrl ref = false ->
  copyImage cfg sourceDir imagesOutputDir ref
  = copyResolved sourceDir imagesOutputDir ref (path (remapImagePath cfg ref)).
Proof.
  intros Hext. unfold copyImage. rewrite Hext.
  unfold remapImagePath. now rewrite Hext.
Qed.

Lemma embedImage_local sourceDir processedHtml imgTag ref :
  isExternalUrl ref = false ->
  embedImage cfg sourceDir processedHtml (imgTag, ref)
  = embedResolved sourceDir processedHtml imgTag ref (path (remapImagePath cfg ref)).
Proof.
  intros Hext. unfold embedImage. simpl. rewrite Hext.
  unfold remapImagePath. now rewrite Hext.
Qed.



(** What the embedded mode does with a file that exists and can be read. *)
Lemma embedResolved_found sourceDir processedHtml imgTag ref pathToResolve w bytes :
  let resolved := resolve sourceDir pathToResolve in
  existsSync (fs w) resolved = true ->
  readFileSync (fs w) resolved = Ok bytes ->
  let dataUri :=
    dataUriOf (mimeTypeOf (toLowerCase (Str.substring1 (extname resolved)))) bytes in
  embedResolved sourceDir processedHtml imgTag ref pathToResolve w
  = (Ok (Str.replace imgTag
           (Str.replace (js "src=" ++ quoted ref) (js "src=" ++ quoted dataUri) imgTag)
           processedHtml),
     logged w (js "Embedded image: " ++ basename resolved)).
Proof.
  intros resolved Hyes Hread dataUri.
  unfold embedResolved, bind, exists_, fs_read. fold resolved.
  now rewrite Hyes, Hread.
Qed.

End ResolverFacts.

(** C3. For every image reference that begins with [http://] or [https://]
    in any letter case, the remapper returns the reference itself, marked
    external; the copy step of the linked mode returns the reference and
    leaves the file system as it is; the embedded mode leaves the markup and
    the file system as they are. Each logs one line. *)
Theorem external_reference_unchanged
        {plib : PathLib} {fsys : FileSystem} {slib : StringLib}
        (cfg : ImagePathConfig)
        (sourceDir imagesOutputDir processedHtml imgTag ref : jsstring) (w : World) :
  isExternalUrl ref = true ->
  remapImagePath cfg ref = {| path := ref; isExternal := true |} /\
  copyImage cfg sourceDir imagesOutputDir ref w
    = (Ok ref, logged w (js "External URL detected, keeping as-is: " ++ ref)) /\
  embedImage cfg sourceDir processedHtml (imgTag, ref) w
    = (Ok processedHtml, logged w (js "External URL image detected: " ++ ref)).
Proof.
  intros Hext. repeat split.
  - unfold remapImagePath. now rewrite Hext.
  - unfold copyImage. now rewrite Hext.
  - unfold embedImage. simpl. now rewrite Hext.
Qed.

(** An upper-case [HTTPS] address in the linked mode. *)
Lemma external_reference_unchanged_witness :
  isExternalUrl (js "HTTPS://example.com/a.png") = true /\
  @copyImage Host.paths Host.files imagePathConfig (js "/docs") (js "/out/images")
     (js "HTTPS://example.com/a.png") (Host.world Sample.docs)
  = (Ok (js "HTTPS://example.com/a.png"),
     logged (Host.world Sample.docs)
            (js "External URL detected, keeping as-is: HTTPS://example.com/a.png")).
Proof.
  split; [reflexivity|].
  exact (proj1 (proj2
    (@external_reference_unchanged Host.paths Host.files Host.strings imagePathConfig
       (js "/docs") (js "/out/images") [] [] (js "HTTPS://example.com/a.png")
       (Host.world Sample.docs) eq_refl))).
Defined.





(** ** Anchor identifiers *)

(** The identifier of the specification is made of lower-case letters,
    digits and hyphens. *)
Lemma collapse_alphabet : forall s pending,
  Forall (fun c => SpecModel.is_lower c || SpecModel.is_digit c || (c =? SpecModel.hyphen)%N = true)
         (SpecModel.collapse pending s).
Proof.
  induction s as [|c s IH]; intros pending; simpl.
  - destruct pending; repeat constructor.
  - destruct (SpecModel.is_alnum c) eqn:Hc; [|apply IH].
    assert (Hlow : SpecModel.is_lower (SpecModel.to_lower c)
                   || SpecModel.is_digit (SpecModel.to_lower c)
                   || (SpecModel.to_lower c =? SpecModel.hyphen)%N = true).
    { unfold SpecModel.is_alnum, SpecModel.to_lower in *.
      destruct (SpecModel.is_upper c) eqn:Hu.
      - unfold SpecModel.is_upper, SpecModel.is_lower in *.
        apply andb_true_iff in Hu as [H1 H2].
        apply N.leb_le in H1, H2.
        replace (97 <=? c + 32)%N with true by (symmetry; apply N.leb_le; lia).
        replace (c + 32 <=? 122)%N with true by (symmetry; apply N.leb_le; lia).
        reflexivity.
      - simpl in Hc. now rewrite Hc. }
    destruct pending; simpl; repeat constructor; auto.
Qed.

(** C2. With the identifier generator of the specification, the heading
    [## Getting Started] gets the text [Getting Started] and the id
    [getting-started]; qualified with the source file [guide.md] in a
    combined run, the text is [Getting Started (guide.md)] and the id
    [getting-started-guide-md]. *)
Theorem anchor_id_examples :
  List.map (fun h => (level h, text h, id h))
           (@extractHeadings SpecModel.slugifier (js "## Getting Started"))
    = [(2, js "Getting Started", js "getting-started")] /\
  List.map (fun h => (level h, text h, id h))
           (List.map (@qualifyHeading SpecModel.slugifier Host.paths (js "guide.md"))
                     (@extractHeadings SpecModel.slugifier (js "## Getting Started")))
    = [(2, js "Getting Started (guide.md)", js "getting-started-guide-md")] /\
  SpecModel.slugify_spec (js "Getting Started") = js "getting-started" /\
  SpecModel.slugify_spec (js "Getting Started (guide.md)") = js "getting-started-guide-md".
Proof. repeat split; vm_compute; reflexivity. Qed.

(** ** The anchor injector *)

(** In a per-file run the heading of the document gets its id. *)
Example addHeadingIds_per_file :
  addHeadingIds (js "<h2>Getting Started</h2>" ++ nl)
                (@extractHeadings SpecModel.slugifier (js "## Getting Started"))
  = js "<h2 id=" ++ quoted (js "getting-started") ++ js ">Getting Started</h2>" ++ nl.
Proof. vm_compute. reflexivity. Qed.

(** Two headings of the same level and text: the first record takes the
    first element, the second record the next one. *)
Example addHeadingIds_duplicates :
  addHeadingIds (js "<h1>A</h1><h1>A</h1>")
                [ {| level := 1; text := js "A"; id := js "a" |};
                  {| level := 1; text := js "A"; id := js "a" |} ]
  = js "<h1 id=" ++ quoted (js "a") ++ js ">A</h1><h1 id=" ++ quoted (js "a") ++ js ">A</h1>".
Proof. vm_compute. reflexivity. Qed.

(** C1 (the code departs from the claim). In a combined run the records
    are qualified with the file name before the injection, and the injector
    compares the inner text of an element with the qualified text: for the
    document [guide.md] with the heading [## Getting Started] the record's
    text is [Getting Started (guide.md)], no element has that inner text, and
    the markup comes back without any id, although an [h2] element with the
    original text [Getting Started] is there. *)
Theorem combined_mode_injects_no_id :
  let records :=
    List.map (@qualifyHeading SpecModel.slugifier Host.paths (js "/docs/guide.md"))
             (@extractHeadings SpecModel.slugifier (js "## Getting Started")) in
  List.map (fun h => (level h, text h, id h)) records
    = [(2, js "Getting Started (guide.md)", js "getting-started-guide-md")] /\
  Re.execAll (headingElement (js "h2")) Sample.combinedMarkup
    = [(js "<h2>guide.md</h2>", js "guide.md");
       (js "<h2>Getting Started</h2>", js "Getting Started")] /\
  addHeadingIds Sample.combinedMarkup records = Sample.combinedMarkup.
Proof. repeat split; vm_compute; reflexivity. Qed.

(** The injector hands the inner text to [replace] as a replacement
    pattern: a dollar sign followed by a dollar sign is rewritten. *)
Example addHeadingIds_dollar :
  addHeadingIds (js "<h2>Cost $$5</h2>")
                [ {| level := 2; text := js "Cost $$5"; id := js "cost-5" |} ]
  = js "<h2 id=" ++ quoted (js "cost-5") ++ js ">Cost $5</h2>".
Proof. vm_compute. reflexivity. Qed.

(** ** Base64 *)

Ltac nlia := zify; Z.to_euclidean_division_equations; lia.

Lemma below_64 (n : N) : (n < 64)%N -> In n (List.map N.of_nat (seq 0 64)).
Proof.
  intros H. rewrite <- (N2Nat.id n). apply in_map, in_seq. lia.
Qed.

(** The alphabet is read back, and no digit is the padding character. *)
Lemma digit_value (n : N) :
  (n < 64)%N ->
  Base64.value (Base64.digit n) = Some n /\ (Base64.digit n =? Base64.pad)%N = false.
Proof.
  intros H. apply below_64 in H. vm_compute in H.
  repeat (destruct H as [<-|H]; [split; reflexivity|]).
  destruct H.
Qed.

Lemma list_ind3 {A} (P : list A -> Prop) :
  P [] -> (forall a, P [a]) -> (forall a b, P [a; b]) ->
  (forall a b c rest, P rest -> P (a :: b :: c :: rest)) ->
  forall l, P l.
Proof.
  intros H0 H1 H2 H3.
  assert (H : forall l, P l /\ (forall a, P (a :: l)) /\ (forall a b, P (a :: b :: l))).
  { induction l as [|c l (IH0 & IH1 & IH2)]; repeat split; auto. }
  intros l. apply H.
Qed.

Ltac byte_bounds :=
  repeat match goal with
         | x : byte |- _ =>
             lazymatch goal with
             | _ : (Byte.to_N x <= 255)%N |- _ => fail
             | _ => pose proof (Byte.to_N_bounded x)
             end
         end.

Lemma sextet1 (x : byte) : (Byte.to_N x / 4 < 64)%N.
Proof. byte_bounds. nlia. Qed.

Lemma sextet2 (x y : byte) : ((Byte.to_N x mod 4) * 16 + Byte.to_N y / 16 < 64)%N.
Proof. byte_bounds. nlia. Qed.

Lemma sextet3 (y z : byte) : ((Byte.to_N y mod 16) * 4 + Byte.to_N z / 64 < 64)%N.
Proof. byte_bounds. nlia. Qed.

Lemma sextet4 (z : byte) : (Byte.to_N z mod 64 < 64)%N.
Proof. byte_bounds. nlia. Qed.

Lemma of_N_back (e : N) (b : byte) : e = Byte.to_N b -> Byte.of_N e = Some b.
Proof. intros ->. apply Byte.of_to_N. Qed.

Lemma byte1_back (x y : byte) :
  Base64.byte1 (Byte.to_N x / 4) ((Byte.to_N x mod 4) * 16 + Byte.to_N y / 16) = Some x.
Proof. unfold Base64.byte1. apply of_N_back. byte_bounds. nlia. Qed.

Lemma byte2_back (x y z : byte) :
  Base64.byte2 ((Byte.to_N x mod 4) * 16 + Byte.to_N y / 16)
               ((Byte.to_N y mod 16) * 4 + Byte.to_N z / 64) = Some y.
Proof. unfold Base64.byte2. apply of_N_back. byte_bounds. nlia. Qed.

Lemma byte3_back (y z : byte) :
  Base64.byte3 ((Byte.to_N y mod 16) * 4 + Byte.to_N z / 64) (Byte.to_N z mod 64) = Some z.
Proof. unfold Base64.byte3. apply of_N_back. byte_bounds. nlia. Qed.

Lemma decode_group c1 c2 c3 c4 rest :
  Base64.decode (c1 :: c2 :: c3 :: c4 :: rest)
  = match Base64.value c1, Base64.value c2 with
    | Some v1, Some v2 =>
        if ((c3 =? Base64.pad) && (c4 =? Base64.pad))%N then
          match rest, Base64.byte1 v1 v2 with
          | [], Some a => Some [a]
          | _, _ => None
          end
        else if (c4 =? Base64.pad)%N then
          match rest, Base64.value c3 with
          | [], Some v3 =>
              match Base64.byte1 v1 v2, Base64.byte2 v2 v3 with
              | Some a, Some b => Some [a; b]
              | _, _ => None
              end
          | _, _ => None
          end
        else
          match Base64.value c3, Base64.value c4, Base64.decode rest with
          | Some v3, Some v4, Some bs =>
              match Base64.byte1 v1 v2, Base64.byte2 v2 v3, Base64.byte3 v3 v4 with
              | Some a, Some b, Some c => Some (a :: b :: c :: bs)
              | _, _, _ => None
              end
          | _, _, _ => None
          end
    | _, _ => None
    end.
Proof. reflexivity. Qed.

(** Decoding the encoding of a file gives the bytes of the file. *)
Theorem base64_roundtrip (bs : list byte) :
  Base64.decode (Base64.encode bs) = Some bs.
Proof.
  induction bs as [|a|a b|a b c rest IH] using list_ind3.
  - reflexivity.
  - cbn [Base64.encode]. rewrite decode_group.
    pose proof (Byte.to_N_bounded a) as Ha.
    destruct (digit_value (n := Byte.to_N a / 4)) as [-> _]; [nlia|].
    destruct (digit_value (n := (Byte.to_N a mod 4) * 16)) as [-> _]; [nlia|].
    rewrite N.eqb_refl. simpl andb. cbv iota.
    unfold Base64.byte1. rewrite (@of_N_back _ a) by nlia. reflexivity.
  - cbn [Base64.encode]. rewrite decode_group.
    pose proof (Byte.to_N_bounded a) as Ha. pose proof (Byte.to_N_bounded b) as Hb.
    destruct (digit_value (n := Byte.to_N a / 4)) as [-> _]; [nlia|].
    destruct (digit_value (n := (Byte.to_N a mod 4) * 16 + Byte.to_N b / 16))
      as [-> _]; [nlia|].
    destruct (digit_value (n := (Byte.to_N b mod 16) * 4)) as [-> ->]; [nlia|].
    rewrite N.eqb_refl. cbv iota. simpl andb. cbv iota.
    unfold Base64.byte1, Base64.byte2.
    rewrite (@of_N_back _ a) by nlia. rewrite (@of_N_back _ b) by nlia.
    reflexivity.
  - cbn [Base64.encode]. rewrite decode_group.
    destruct (digit_value (sextet1 a)) as [-> _].
    destruct (digit_value (sextet2 a b)) as [-> _].
    destruct (digit_value (sextet3 b c)) as [-> ->].
    destruct (digit_value (sextet4 c)) as [-> ->].
    simpl andb. cbv iota. rewrite IH.
    now rewrite byte1_back, (byte2_back a), byte3_back.
Qed.

(** The MIME type of each extension. *)
Lemma mimeTypeOf_table :
  mimeTypeOf (js "jpg") = js "image/jpeg" /\
  mimeTypeOf (js "jpeg") = js "image/jpeg" /\
  mimeTypeOf (js "png") = js "image/png" /\
  mimeTypeOf (js "gif") = js "image/gif" /\
  mimeTypeOf (js "svg") = js "image/svg+xml" /\
  mimeTypeOf (js "webp") = js "image/webp" /\
  forall ext,
    ~ In ext [js "jpg"; js "jpeg"; js "png"; js "gif"; js "svg"; js "webp"] ->
    mimeTypeOf ext = js "image/" ++ ext.
Proof.
  repeat split; try reflexivity.
  intros ext Hno. unfold mimeTypeOf.
  repeat match goal with
         | |- context [jsstring_eqb ext ?l] =>
             rewrite (proj2 (jsstring_eqb_neq ext l))
               by (intros E; apply Hno; rewrite E; simpl; tauto)
         end.
  reflexivity.
Qed.

(** The payload of a data URI decodes to the bytes it was made from. *)
Lemma dataUriOf_payload mimeType bytes :
  exists payload,
    dataUriOf mimeType bytes = js "data:" ++ mimeType ++ js ";base64," ++ payload /\
    Base64.decode payload = Some bytes.
Proof. exists (Base64.encode bytes). split; [reflexivity|apply base64_roundtrip]. Qed.

(** ** The embedded mode *)

(** An image element as the renderer writes it is embedded. *)
Example convertImagesToBase64_plain :
  @convertImagesToBase64 Host.paths Host.files Host.strings imagePathConfig
     (js "/docs/guide.md") (js "<p>" ++ Sample.plainImage ++ js "</p>")
     (Host.world Sample.docs)
  = (Ok (js "<p><img src=" ++ quoted (js "data:image/png;base64,UE5H")
            ++ js " alt=" ++ quoted (js "logo") ++ js "></p>"),
     logged (Host.world Sample.docs) (js "Embedded image: a.png")).
Proof. vm_compute. reflexivity. Qed.

(** The data URI is handed to [replace] as a replacement pattern: an
    extension with a dollar sign is expanded, here into the text after the
    match. *)
Example convertImagesToBase64_dollar_extension :
  fst (@convertImagesToBase64 Host.paths Host.files Host.strings imagePathConfig
         (js "/docs/guide.md") Sample.dollarImage (Host.world Sample.dollarDocs))
  = Ok (js "<img src=" ++ dq ++ js "data:image/ alt=" ++ quoted (js "x")
           ++ js ">;base64,UE5H" ++ dq ++ js " alt=" ++ quoted (js "x") ++ js ">").
Proof. vm_compute. reflexivity. Qed.

(** C4 (the code departs from the claim). The embedded mode rewrites the
    first text [src="..."] of the element, found by [replace] with a string
    pattern, and not the attribute the regular expression captured: for the
    element [<img data-src="a.png" src="a.png">], whose file exists, the
    capture is the value of [src], the data URI is written into [data-src],
    and the [src] attribute keeps the file reference. *)
Theorem embedded_mode_rewrites_first_text :
  let html := js "<p>" ++ Sample.lazyImage ++ js "</p>" in
  Re.execAll imgElement html = [(Sample.lazyImage, js "a.png")] /\
  @convertImagesToBase64 Host.paths Host.files Host.strings imagePathConfig
     (js "/docs/guide.md") html (Host.world Sample.docs)
  = (Ok (js "<p><img data-src=" ++ quoted (js "data:image/png;base64,UE5H")
            ++ js " src=" ++ quoted (js "a.png") ++ js "></p>"),
     logged (Host.world Sample.docs) (js "Embedded image: a.png")).
Proof. split; vm_compute; reflexivity. Qed.

(** ** The command-line driver *)

Section DriverFacts.

Context {SL : Slugifier} {plib : PathLib} {fsys : FileSystem} {slib : StringLib}
        {mk : Markdown} {sty : Stylesheet} {br : Browser}.

Variable stackLimit : nat.

Lemma reads_only_ret {A} (a : A) : reads_only (ret a).
Proof. intros w. reflexivity. Qed.

Lemma reads_only_bind {A B} (m : M A) (k : A -> M B) :
  reads_only m -> (forall a, reads_only (k a)) -> reads_only (bind m k).
Proof.
  intros Hm Hk w. unfold bind. specialize (Hm w).
  destruct (m w) as [[a|e] w1]; simpl in *; [|assumption].
  now rewrite Hk.
Qed.

Lemma reads_only_log line : reads_only (console_log line).
Proof. intros w. reflexivity. Qed.

Lemma reads_only_read {A} (op : FS -> result A) : reads_only (fs_read op).
Proof. intros w. reflexivity. Qed.

Lemma reads_only_foldM {A B} (f : B -> A -> M B) (xs : list A) :
  (forall b x, reads_only (f b x)) -> forall b, reads_only (foldM f xs b).
Proof.
  intros Hf. induction xs as [|x xs IH]; intros b; simpl.
  - apply reads_only_ret.
  - apply reads_only_bind; auto.
Qed.

Lemma scanDir_reads_only : forall depth directory mdFiles,
  reads_only (scanDir depth directory mdFiles).
Proof.
  induction depth as [|depth IH]; intros directory mdFiles; simpl.
  - intros w. reflexivity.
  - apply reads_only_bind; [apply reads_only_read|]. intros entries.
    apply reads_only_foldM. intros acc file.
    apply reads_only_bind; [apply reads_only_read|]. intros [|].
    + apply IH.
    + destruct (jsstring_eqb _ _); apply reads_only_ret.
Qed.

Lemma configureRemap_reads_only options : reads_only (configureRemap options).
Proof.
  unfold configureRemap. destruct (truthy (remap options)); [|apply reads_only_ret].
  apply reads_only_foldM. intros cfg pair.
  destruct (parsePair pair); [|apply reads_only_ret].
  apply reads_only_bind; [apply reads_only_log|]. intros _. apply reads_only_ret.
Qed.

(** Configuring the rules and finding the documents writes nothing. *)
Lemma startup_reads_only options : reads_only (startup stackLimit options).
Proof.
  unfold startup.
  apply reads_only_bind; [apply configureRemap_reads_only|]. intros cfg.
  apply reads_only_bind; [apply scanDir_reads_only|]. intros files.
  apply reads_only_ret.
Qed.






End DriverFacts.



(** An option that [commander] does not know: it ends the process with
    status 1 before the script looks at anything. *)
Example program_unknown_option :
  @program SpecModel.slugifier Host.paths Host.files Host.strings Host.markdown
           Host.stylesheet Host.browser 16 Host.unknown_option [js "--bogus"]
           (Host.world Sample.docs)
  = (Exited 1,
     erred (Host.world Sample.docs) (js "error: unknown option '--bogus'")).
Proof. vm_compute. reflexivity. Qed.

(** An input directory that does not exist: reading it throws, and nothing
    handles the exception. *)
Example main_missing_directory :
  @main SpecModel.slugifier Host.paths Host.files Host.strings Host.markdown
        Host.stylesheet Host.browser 16 Sample.missingRun (Host.world Sample.docs)
  = (Uncaught (js "ENOENT: no such file or directory"), Host.world Sample.docs).
Proof. vm_compute. reflexivity. Qed.

(** No document in the input directory: status 1, nothing written. *)
Example main_no_documents :
  @main SpecModel.slugifier Host.paths Host.files Host.strings Host.markdown
        Host.stylesheet Host.browser 16 Sample.emptyRun (Host.world Sample.docs)
  = (Exited 1,
     erred (Host.world Sample.docs) (js "No markdown files found in /empty")).
Proof. vm_compute. reflexivity. Qed.

(** A paper size that [pdf] does not know: status 1, nothing written. *)
Example main_invalid_paper :
  @main SpecModel.slugifier Host.paths Host.files Host.strings Host.markdown
        Host.stylesheet Host.browser 16 Sample.pdfRunA5 (Host.world Sample.docs)
  = (Exited 1,
     erred (logged (Host.world Sample.docs) (js "Found 1 markdown files in /docs"))
           (js "Invalid paper size: A5. Valid options are: A4, Letter, Legal")).
Proof. vm_compute. reflexivity. Qed.

(** A run that converts: it completes, and the combined document is
    written into the output directory it has created. *)
Example main_html_run :
  let r := @main SpecModel.slugifier Host.paths Host.files Host.strings Host.markdown
                 Host.stylesheet Host.browser 16 Sample.htmlRun (Host.world Sample.docs) in
  fst r = Completed /\
  List.map fst (fs (snd r))
  = [js "/out/combined.html"; js "/out/images"; js "/out"] ++ List.map fst Sample.docs.
Proof. split; vm_compute; reflexivity. Qed.

(** ** The fuel of the match loops is enough *)

Section LoopFacts.

Variable R : Type.

Lemma lit_sound (l : jsstring) (k : jsstring -> option R) s r :
  Re.lit l k s = Some r -> exists rest, s = l ++ rest /\ k rest = Some r.
Proof.
  unfold Re.lit. destruct (Str.strip_prefix l s) as [rest|] eqn:Hp; [|discriminate].
  intros H. exists rest. split; [now apply strip_prefix_Some|assumption].
Qed.

Lemma lazy_star_sound p (k : jsstring -> jsstring -> option R) : forall s acc r,
  Re.lazy_star p k acc s = Some r ->
  exists g rest, s = g ++ rest /\ forallb p g = true /\ k (acc ++ g) rest = Some r.
Proof.
  induction s as [|c s IH]; intros acc r H; simpl in H.
  - destruct (k acc []) eqn:Hk; [|discriminate].
    exists [], []. rewrite !app_nil_r. repeat split; congruence.
  - destruct (k acc (c :: s)) eqn:Hk.
    + exists [], (c :: s). rewrite !app_nil_r. repeat split; congruence.
    + destruct (p c) eqn:Hp; [|discriminate].
      apply IH in H as (g & rest & -> & Hg & H).
      exists (c :: g), rest. rewrite <- app_assoc in H.
      simpl. rewrite Hp. repeat split; assumption.
Qed.

Lemma star_sound p (k : jsstring -> jsstring -> option R) s r :
  Re.star p k s = Some r ->
  exists g rest, s = g ++ rest /\ forallb p g = true /\ k g rest = Some r.
Proof.
  unfold Re.star. intros H.
  apply rep_sound in H as (g & rest & -> & Hg & _ & H). eauto.
Qed.

Lemma search_sound (m : Re.matcher R) : forall s from r rest,
  Re.search m s = Some (from, r, rest) ->
  m from = Some (r, rest) /\ length from <= length s.
Proof.
  induction s as [|c s IH]; intros from r rest H; simpl in H.
  - destruct (m []) as [[r' rest']|] eqn:Hm; [|discriminate].
    injection H as <- <- <-. auto.
  - destruct (m (c :: s)) as [[r' rest']|] eqn:Hm.
    + injection H as <- <- <-. auto.
    + apply IH in H as [H1 H2]. split; [assumption|simpl; lia].
Qed.

Variable m : Re.matcher R.
Hypothesis m_progress : progress m.

Lemma execAll_fuel_enough : forall f1 f2 s,
  length s < f1 -> length s < f2 ->
  Re.execAll_fuel f1 m s = Re.execAll_fuel f2 m s.
Proof.
  induction f1 as [|f1 IH]; intros f2 s H1 H2; [lia|].
  destruct f2 as [|f2]; [lia|]. simpl.
  destruct (Re.search m s) as [[[from r] rest]|] eqn:Hs; [|reflexivity].
  apply search_sound in Hs as [Hm Hlen]. apply m_progress in Hm.
  f_equal. apply IH; lia.
Qed.

(** The loop over the matches, without its fuel. *)
Lemma execAll_step s :
  Re.execAll m s
  = match Re.search m s with
    | Some (from, r, rest) => (Re.matched from rest, r) :: Re.execAll m rest
    | None => []
    end.
Proof.
  unfold Re.execAll.
  change (Re.execAll_fuel (S (length s)) m s)
    with (match Re.search m s with
          | Some (from, r, rest) =>
              (Re.matched from rest, r) :: Re.execAll_fuel (length s) m rest
          | None => []
          end).
  destruct (Re.search m s) as [[[from r] rest]|] eqn:Hs; [|reflexivity].
  apply search_sound in Hs as [Hm Hlen]. apply m_progress in Hm.
  f_equal. apply execAll_fuel_enough; lia.
Qed.

End LoopFacts.

Lemma headingElement_progress tagName : progress (headingElement tagName).
Proof.
  intros s r rest H. unfold headingElement in H.
  apply lit_sound in H as (s1 & -> & H).
  apply lazy_star_sound in H as (g & s2 & -> & _ & H).
  apply lit_sound in H as (s3 & -> & H). injection H as _ <-.
  rewrite !length_app. simpl. lia.
Qed.

Lemma imgElement_progress : progress imgElement.
Proof.
  intros s r rest H. unfold imgElement in H.
  apply lit_sound in H as (s1 & -> & H).
  apply plus_sound in H as (g1 & s2 & -> & _ & _ & H).
  apply lit_sound in H as (s3 & -> & H).
  apply plus_sound in H as (g2 & s4 & -> & _ & _ & H).
  apply lit_sound in H as (s5 & -> & H).
  apply star_sound in H as (g3 & s6 & -> & _ & H).
  apply lit_sound in H as (s7 & -> & H). injection H as _ <-.
  rewrite !length_app. simpl. lia.
Qed.

Lemma imageSyntax_progress : progress imageSyntax.
Proof.
  intros s r rest H. unfold imageSyntax in H.
  apply lit_sound in H as (s1 & -> & H).
  apply lazy_star_sound in H as (g1 & s2 & -> & _ & H).
  apply lit_sound in H as (s3 & -> & H).
  apply lazy_star_sound in H as (g2 & s4 & -> & _ & H).
  unfold Re.opt in H.
  match type of H with
  | match ?x with _ => _ end = _ => destruct x as [r'|] eqn:Hx
  end.
  - injection H as ->.
    apply plus_sound in Hx as (g3 & s5 & -> & _ & _ & H).
    apply lit_sound in H as (s6 & -> & H).
    apply lazy_star_sound in H as (g4 & s7 & -> & _ & H).
    apply lit_sound in H as (s8 & -> & H).
    apply lit_sound in H as (s9 & -> & H). injection H as _ <-.
    rewrite !length_app. simpl. lia.
  - apply lit_sound in H as (s5 & -> & H). injection H as _ <-.
    rewrite !length_app. simpl. lia.
Qed.

(** ** Qualified records in a combined run *)

Lemma trimStart_length s : length (Str.trimStart s) <= length s.
Proof.
  induction s as [|c s IH]; [reflexivity|].
  rewrite trimStart_cons. destruct (Char.is_space c); simpl in *; lia.
Qed.

Lemma trimEnd_length s : length (Str.trimEnd s) <= length s.
Proof.
  unfold Str.trimEnd. rewrite length_rev, <- (length_rev s). apply trimStart_length.
Qed.

Lemma trimStart_app s x :
  Str.trimStart s <> [] -> Str.trimStart (s ++ x) = Str.trimStart s ++ x.
Proof.
  induction s as [|c s IH]; intros Hne; [now destruct Hne|].
  change ((c :: s) ++ x) with (c :: s ++ x).
  rewrite !trimStart_cons in *. destruct (Char.is_space c); [now apply IH|reflexivity].
Qed.

Lemma trimStart_nil s : Str.trimStart s = [] -> forallb Char.is_space s = true.
Proof.
  induction s as [|c s IH]; [reflexivity|].
  rewrite trimStart_cons. simpl. destruct (Char.is_space c); [exact IH|discriminate].
Qed.

Lemma trimEnd_last s c :
  Char.is_space c = false -> Str.trimEnd (s ++ [c]) = s ++ [c].
Proof.
  intros Hc. unfold Str.trimEnd. rewrite rev_app_distr.
  change (rev [c] ++ rev s) with (c :: rev s).
  rewrite trimStart_cons, Hc. simpl. now rewrite rev_involutive.
Qed.

(** The text of a qualified record never trims to what the text of the
    record trimmed to before. *)
Lemma qualified_text_differs (t b : jsstring) :
  Str.trim (t ++ js " (" ++ b ++ js ")") <> Str.trim t.
Proof.
  intros E. apply (f_equal (@length _)) in E. revert E. unfold Str.trim.
  replace (t ++ js " (" ++ b ++ js ")") with (t ++ (js " (" ++ b) ++ [41%N])
    by now rewrite <- !app_assoc.
  destruct (Str.trimStart t) as [|c t'] eqn:Ht.
  - rewrite trimStart_spaces by now apply trimStart_nil.
    change (Str.trimStart ((js " (" ++ b) ++ [41%N])) with ((40%N :: b) ++ [41%N]).
    rewrite trimEnd_last by reflexivity.
    rewrite length_app. simpl. lia.
  - rewrite trimStart_app by congruence. rewrite Ht.
    rewrite app_assoc, trimEnd_last by reflexivity.
    pose proof (trimEnd_length (c :: t')).
    rewrite !length_app. simpl in *. lia.
Qed.

(** In a combined run, an element whose inner text is the text the record
    had before its qualification does not pass the test of the injector. *)
Lemma qualified_record_misses
      {SL : Slugifier} {plib : PathLib} (file inner : jsstring) (heading : HeadingRecord) :
  Str.trim inner = Str.trim (text heading) ->
  jsstring_eqb (Str.trim inner) (Str.trim (text (qualifyHeading file heading))) = false.
Proof.
  intros E. apply jsstring_eqb_neq. rewrite E. simpl.
  intros H. symmetry in H. revert H. apply qualified_text_differs.
Qed.

Lemma extractHeadings_levels {SL : Slugifier} (content : jsstring) :
  Forall (fun h => 1 <= level h <= 6) (extractHeadings content).
Proof.
  unfold extractHeadings. apply Forall_flat_map, Forall_forall. intros line _.
  unfold heading_of_line.
  destruct (headingMatch line) as [[g1 g2]|] eqn:Hm; [|constructor].
  apply headingMatch_sound in Hm as (ws & _ & _ & Hlen & _).
  constructor; [simpl; lia|constructor].
Qed.

(** ** The rewrite of the embedded mode on the usual elements *)

Lemma find_unfold (pat before s : jsstring) :
  Str.find pat before s
  = match Str.strip_prefix pat s with
    | Some rest => Some (before, rest)
    | None =>
        match s with
        | [] => None
        | c :: s' => Str.find pat (before ++ [c]) s'
        end
    end.
Proof. destruct s; reflexivity. Qed.

Lemma find_first (pat : jsstring) : forall a before b,
  (forall a' b', a ++ pat ++ b = a' ++ pat ++ b' -> length a <= length a') ->
  Str.find pat before (a ++ pat ++ b) = Some (before ++ a, b).
Proof.
  induction a as [|c a IH]; intros before b Hmin.
  - rewrite app_nil_r. change ([] ++ pat ++ b) with (pat ++ b).
    now rewrite find_unfold, strip_prefix_app.
  - change ((c :: a) ++ pat ++ b) with (c :: a ++ pat ++ b).
    assert (Hp : Str.strip_prefix pat (c :: a ++ pat ++ b) = None).
    { destruct (Str.strip_prefix pat (c :: a ++ pat ++ b)) as [r|] eqn:Hp; [|reflexivity].
      apply strip_prefix_Some in Hp.
      assert (length (c :: a) <= length (@nil codeunit)) as Hle
          by (apply (Hmin [] r); exact Hp).
      simpl in Hle. lia. }
    rewrite find_unfold, Hp, IH.
    + now rewrite <- app_assoc.
    + intros a' b' E.
      assert (length (c :: a) <= length (c :: a')) as Hle
          by (apply (Hmin (c :: a') b'); simpl; f_equal; exact E).
      simpl in Hle. lia.
Qed.

Lemma getSubstitution_plain (matched before after : jsstring) : forall template,
  ~ In Char.dollar template ->
  Str.getSubstitution matched before after template = template.
Proof.
  induction template as [|c t IH]; intros Hno; [reflexivity|].
  simpl. destruct (N.eqb_spec c Char.dollar) as [->|_].
  - exfalso. apply Hno. now left.
  - f_equal. apply IH. intros H. apply Hno. now right.
Qed.

(** A first occurrence replaced by a text without dollar sign. *)
Lemma replace_first_plain (pat template a b : jsstring) :
  (forall a' b', a ++ pat ++ b = a' ++ pat ++ b' -> length a <= length a') ->
  ~ In Char.dollar template ->
  Str.replace pat template (a ++ pat ++ b) = a ++ template ++ b.
Proof.
  intros Hmin Hno. unfold Str.replace.
  rewrite (find_first pat a [] b Hmin). simpl.
  now rewrite getSubstitution_plain.
Qed.

Lemma digit_no_dollar (n : N) : Base64.digit n <> Char.dollar.
Proof.
  unfold Base64.digit, Char.dollar.
  destruct (N.ltb_spec n 26); [lia|].
  destruct (N.ltb_spec n 52); [lia|].
  destruct (N.ltb_spec n 62); [lia|].
  destruct (n =? 62)%N; discriminate.
Qed.

Lemma encode_no_dollar (bs : list byte) : ~ In Char.dollar (Base64.encode bs).
Proof.
  induction bs as [|a|a b|a b c rest IH] using list_ind3; cbn [Base64.encode In].
  - tauto.
  - pose proof digit_no_dollar. intuition (try discriminate; eauto).
  - pose proof digit_no_dollar. intuition (try discriminate; eauto).
  - pose proof digit_no_dollar. intuition (try discriminate; eauto).
Qed.

Lemma mimeTypeOf_no_dollar (ext : jsstring) :
  ~ In Char.dollar ext -> ~ In Char.dollar (mimeTypeOf ext).
Proof.
  intros Hno. unfold mimeTypeOf.
  repeat match goal with
         | |- ~ In _ (if ?c then _ else _) => destruct c
         end;
    intros H; vm_compute in H; intuition discriminate.
Qed.

Section EmbeddedFacts.

Context {plib : PathLib} {fsys : FileSystem} {slib : StringLib}.

(** For an element in which the text [src="ref"] first occurs as its source
    attribute, itself the first occurrence of its text in the markup, and
    without dollar sign in the element and in the extension, the embedded
    mode puts the data URI in the place of the reference. *)
Lemma embedResolved_replaces_src
      (sourceDir before pre post after ref pathToResolve : jsstring)
      (w : World) (bytes : list byte) :
  let resolved := resolve sourceDir pathToResolve in
  let ext := toLowerCase (Str.substring1 (extname resolved)) in
  let attribute := js "src=" ++ quoted ref in
  let imgTag := pre ++ attribute ++ post in
  existsSync (fs w) resolved = true ->
  readFileSync (fs w) resolved = Ok bytes ->
  (forall a' b', imgTag = a' ++ attribute ++ b' -> length pre <= length a') ->
  (forall a' b', before ++ imgTag ++ after = a' ++ imgTag ++ b' ->
                 length before <= length a') ->
  ~ In Char.dollar (pre ++ post ++ ext) ->
  embedResolved sourceDir (before ++ imgTag ++ after) imgTag ref pathToResolve w
  = (Ok (before ++ (pre ++ js "src=" ++ quoted (dataUriOf (mimeTypeOf ext) bytes) ++ post)
                ++ after),
     logged w (js "Embedded image: " ++ basename resolved)).
Proof.
  intros resolved ext attribute imgTag Hyes Hread Htag Hhtml Hno.
  rewrite (embedResolved_found sourceDir (before ++ imgTag ++ after) imgTag ref
             pathToResolve w Hyes Hread).
  fold resolved ext attribute.
  assert (Hpre : ~ In Char.dollar pre) by (intros H; apply Hno, in_or_app; tauto).
  assert (Hpost : ~ In Char.dollar post)
    by (intros H; apply Hno, in_or_app; right; apply in_or_app; tauto).
  assert (Hext : ~ In Char.dollar ext)
    by (intros H; apply Hno, in_or_app; right; apply in_or_app; tauto).
  assert (Huri : ~ In Char.dollar (js "src=" ++ quoted (dataUriOf (mimeTypeOf ext) bytes))).
  { unfold quoted, dataUriOf. intros H.
    repeat (apply in_app_or in H as [H|H]);
      try (vm_compute in H; intuition discriminate).
    - now apply mimeTypeOf_no_dollar in H.
    - now apply encode_no_dollar in H. }
  unfold imgTag at 2. rewrite (replace_first_plain _ _ _ _ Htag Huri).
  rewrite (replace_first_plain _ _ _ _ Hhtml).
  - now rewrite <- !app_assoc.
  - intros H. apply in_app_or in H as [H|H]; [tauto|].
    apply in_app_or in H as [H|H]; tauto.
Qed.

End EmbeddedFacts.

(** * Further properties of the code *)

(** ** First occurrences *)

(** [Str.find] returns the first occurrence. *)
Lemma find_minimal (pat : jsstring) : forall s before x b,
  Str.find pat before s = Some (x, b) ->
  exists a,
    x = before ++ a /\ s = a ++ pat ++ b /\
    forall a' b', s = a' ++ pat ++ b' -> length a <= length a'.
Proof.
  induction s as [|c s IH]; intros before x b H; rewrite find_unfold in H.
  - destruct (Str.strip_prefix pat []) as [rest|] eqn:Hp; [|discriminate].
    injection H as <- <-. exists []. rewrite app_nil_r.
    apply strip_prefix_Some in Hp. repeat split; [assumption|]. intros; simpl; lia.
  - destruct (Str.strip_prefix pat (c :: s)) as [rest|] eqn:Hp.
    + injection H as <- <-. exists []. rewrite app_nil_r.
      apply strip_prefix_Some in Hp. repeat split; [assumption|]. intros; simpl; lia.
    + apply IH in H as (a & -> & -> & Hmin).
      exists (c :: a). rewrite <- app_assoc. repeat split.
      intros [|d a'] b' E.
      * exfalso. now apply (@strip_prefix_None _ _ Hp b').
      * injection E as _ E. apply Hmin in E. simpl. lia.
Qed.

Lemma find_None_absent (pat : jsstring) : forall s before,
  Str.find pat before s = None -> ~ occurs pat s.
Proof.
  induction s as [|c s IH]; intros before H (a & b & E); rewrite find_unfold in H.
  - destruct a; [|discriminate]. simpl in E. rewrite E, strip_prefix_app in H.
    discriminate.
  - destruct (Str.strip_prefix pat (c :: s)) as [rest|] eqn:Hp; [discriminate|].
    destruct a as [|d a].
    + now apply (@strip_prefix_None _ _ Hp b).
    + injection E as _ E. apply (IH _ H). now exists a, b.
Qed.

Lemma occurs_find (pat s : jsstring) :
  occurs pat s -> exists a b, Str.find pat [] s = Some (a, b) /\ s = a ++ pat ++ b.
Proof.
  intros Hocc. destruct (Str.find pat [] s) as [[a b]|] eqn:Hf.
  - exists a, b. split; [reflexivity|].
    apply find_minimal in Hf as (a0 & -> & -> & _). reflexivity.
  - now apply find_None_absent in Hf.
Qed.

(** ** Rewriting the references of the linked mode *)

Lemma src_pattern (p : jsstring) :
  js "src=" ++ quoted p = 115%N :: ([114%N; 99%N; 61%N] ++ quoted p).
Proof. reflexivity. Qed.

Lemma src_pattern_no_dollar (p : jsstring) :
  ~ In Char.dollar p -> ~ In Char.dollar (js "src=" ++ quoted p).
Proof.
  intros Hno H. unfold quoted in H.
  repeat (apply in_app_or in H as [H|H]); try tauto;
    vm_compute in H; intuition discriminate.
Qed.

(** Replacing every occurrence of a text by itself changes nothing, as long
    as the text holds no dollar sign. *)
Lemma replaceFrom_same (a0 : codeunit) (p0 : jsstring) :
  ~ In Char.dollar (a0 :: p0) ->
  forall s before, Re.replaceFrom (a0 :: p0) (a0 :: p0) before s = s.
Proof.
  intros Hno. induction s as [s IH] using length_ind. intros before.
  destruct (Str.strip_prefix (a0 :: p0) s) as [rest|] eqn:Hp.
  - rewrite (replaceFrom_match _ _ _ _ _ Hp), getSubstitution_plain by assumption.
    pose proof (strip_prefix_length _ _ Hp) as Hlen.
    apply strip_prefix_Some in Hp. subst s.
    rewrite IH by (simpl in *; lia). reflexivity.
  - destruct s as [|c s]; [reflexivity|].
    rewrite (replaceFrom_skip _ _ _ _ _ _ Hp), IH by (simpl; lia). reflexivity.
Qed.

(** X1. The rewrite of the linked mode returns the markup as it is when
    there are as many new paths as original ones and,
    for every pair of an original and a new path, either the two are equal
    and hold no dollar sign (a missing image, an external address), or the
    text [src="original"] does not occur in the markup. *)
Theorem processHtmlImagesForHtml_unchanged
        (html : jsstring) (originalPaths newPaths : list jsstring) :
  length originalPaths = length newPaths ->
  Forall (fun p => (snd p = fst p /\ ~ In Char.dollar (fst p))
                   \/ ~ occurs (js "src=" ++ quoted (fst p)) html)
         (combine originalPaths newPaths) ->
  processHtmlImagesForHtml html originalPaths newPaths = html.
Proof.
  intros _. unfold processHtmlImagesForHtml.
  induction (combine originalPaths newPaths) as [|[o n] l IH]; intros H; [reflexivity|].
  inversion H as [|? ? Hp Hl]; subst. cbn [fold_left fst snd] in *.
  replace (Re.replaceAll (js "src=" ++ quoted o) (js "src=" ++ quoted n) html) with html;
    [now apply IH|].
  symmetry. destruct Hp as [[-> Hno]|Habs].
  - apply src_pattern_no_dollar in Hno. rewrite src_pattern in *.
    now apply replaceFrom_same.
  - rewrite (src_pattern o) in *. now apply replaceFrom_absent.
Qed.

(** A missing image and an external address keep the markup. *)
Lemma processHtmlImagesForHtml_unchanged_witness :
  processHtmlImagesForHtml
    (js "<img src=" ++ quoted (js "./img/missing.png") ++ js ">")
    [js "./img/missing.png"; js "https://example.com/a.png"]
    [js "./img/missing.png"; js "https://example.com/a.png"]
  = js "<img src=" ++ quoted (js "./img/missing.png") ++ js ">".
Proof.
  apply processHtmlImagesForHtml_unchanged; [reflexivity|].
  cbn [combine]. constructor; [|constructor; [|constructor]];
    left; (split; [reflexivity|]);
    intros H; vm_compute in H; intuition discriminate.
Defined.

(** X2. When the text [src="original"] occurs in the markup once, and the
    new path holds no dollar sign, the rewrite of the linked mode puts the new
    path in the place of the original one and changes nothing else. *)
Theorem processHtmlImagesForHtml_rewrites (a b original new : jsstring) :
  let pat := js "src=" ++ quoted original in
  (forall a' b', a ++ pat ++ b = a' ++ pat ++ b' -> length a <= length a') ->
  ~ occurs pat b ->
  ~ In Char.dollar new ->
  processHtmlImagesForHtml (a ++ pat ++ b) [original] [new]
  = a ++ (js "src=" ++ quoted new) ++ b.
Proof.
  intros pat Hmin Hafter Hno. unfold processHtmlImagesForHtml.
  cbn [combine fold_left fst snd].
  unfold Re.replaceAll, pat in *. rewrite (src_pattern original) in *.
  rewrite replaceFrom_first by assumption.
  rewrite getSubstitution_plain by now apply src_pattern_no_dollar.
  now rewrite replaceFrom_absent.
Qed.

(** The reference [a.png] rewritten to the copy under [images/]. *)
Lemma processHtmlImagesForHtml_rewrites_witness :
  processHtmlImagesForHtml
    (js "<p><img " ++ (js "src=" ++ quoted (js "a.png")) ++ js " alt=" ++ quoted (js "x")
        ++ js "></p>")
    [js "a.png"] [js "images/a.png"]
  = js "<p><img " ++ (js "src=" ++ quoted (js "images/a.png")) ++ js " alt="
       ++ quoted (js "x") ++ js "></p>".
Proof.
  apply (@processHtmlImagesForHtml_rewrites (js "<p><img ")
           (js " alt=" ++ quoted (js "x") ++ js "></p>") (js "a.png") (js "images/a.png")).
  - intros a' b' E.
    destruct (@find_minimal (js "src=" ++ quoted (js "a.png"))
                (js "<p><img " ++ (js "src=" ++ quoted (js "a.png")) ++ js " alt="
                    ++ quoted (js "x") ++ js "></p>")
                [] (js "<p><img ") (js " alt=" ++ quoted (js "x") ++ js "></p>") eq_refl)
      as (a0 & Ea & _ & Hmin).
    simpl in Ea. subst a0. now apply (Hmin a' b').
  - apply (@find_None_absent _ _ []). reflexivity.
  - intros H. vm_compute in H. intuition discriminate.
Defined.

(** X3. A path in which no rule's pattern occurs comes back from the
    remapper as it is. *)
Theorem remapImagePath_no_match (cfg : ImagePathConfig) (imagePath : jsstring) :
  Forall (fun m => ~ occurs (from m) imagePath) (pathMappings cfg) ->
  path (remapImagePath cfg imagePath) = imagePath.
Proof.
  intros H. unfold remapImagePath.
  destruct (isExternalUrl imagePath); [reflexivity|]. simpl.
  destruct (enableRemapping cfg); [|reflexivity].
  unfold applyMappings.
  induction (pathMappings cfg) as [|m ms IH]; [reflexivity|].
  inversion H as [|? ? Habs Hms]; subst. simpl.
  destruct (from m) as [|a0 p0] eqn:Hf; [exfalso; apply Habs; now exists [], imagePath|].
  unfold Re.replaceAll. rewrite replaceFrom_absent by assumption. now apply IH.
Qed.

(** The default rule on a path outside [/assets/]. *)
Lemma remapImagePath_no_match_witness :
  path (remapImagePath imagePathConfig (js "./img/logo.png")) = js "./img/logo.png".
Proof.
  apply remapImagePath_no_match.
  constructor; [|constructor].
  apply (@find_None_absent _ _ []). reflexivity.
Defined.

(** ** Trimmed texts *)

Lemma trimStart_head : forall s c r,
  Str.trimStart s = c :: r -> Char.is_space c = false.
Proof.
  induction s as [|d s IH]; intros c r H; [discriminate|].
  rewrite trimStart_cons in H. destruct (Char.is_space d) eqn:Hd.
  - now apply (IH c r).
  - now injection H as <- _.
Qed.

Lemma trimStart_idem s : Str.trimStart (Str.trimStart s) = Str.trimStart s.
Proof.
  destruct (Str.trimStart s) as [|c r] eqn:E; [reflexivity|].
  rewrite trimStart_cons. now rewrite (@trimStart_head _ _ _ E).
Qed.

Lemma trimEnd_idem s : Str.trimEnd (Str.trimEnd s) = Str.trimEnd s.
Proof. unfold Str.trimEnd. now rewrite rev_involutive, trimStart_idem. Qed.

Lemma trimStart_snoc c : Char.is_space c = false ->
  forall x, exists y, Str.trimStart (x ++ [c]) = y ++ [c].
Proof.
  intros Hc. induction x as [|d x [y IH]].
  - exists []. simpl. now rewrite Hc.
  - change ((d :: x) ++ [c]) with (d :: x ++ [c]). rewrite trimStart_cons.
    destruct (Char.is_space d).
    + now exists y.
    + now exists (d :: x).
Qed.

Lemma trimEnd_keeps_head c r :
  Char.is_space c = false -> exists r', Str.trimEnd (c :: r) = c :: r'.
Proof.
  intros Hc. unfold Str.trimEnd. simpl rev.
  destruct (@trimStart_snoc c Hc (rev r)) as [y ->].
  exists (rev y). now rewrite rev_app_distr.
Qed.

Lemma trim_head s c r : Str.trim s = c :: r -> Char.is_space c = false.
Proof.
  unfold Str.trim. destruct (Str.trimStart s) as [|d u] eqn:E; [discriminate|].
  pose proof (@trimStart_head _ _ _ E) as Hd.
  destruct (@trimEnd_keeps_head d u Hd) as [r' ->]. now intros [= <- _].
Qed.

Lemma trim_last s u c : Str.trim s = u ++ [c] -> Char.is_space c = false.
Proof.
  unfold Str.trim, Str.trimEnd. intros H.
  apply (f_equal (@rev codeunit)) in H.
  rewrite rev_involutive, rev_app_distr in H. simpl in H.
  now apply trimStart_head in H.
Qed.

Lemma trim_idem s : Str.trim (Str.trim s) = Str.trim s.
Proof.
  destruct (Str.trim s) as [|c r] eqn:E; [reflexivity|].
  pose proof (@trim_head _ _ _ E) as Hc.
  unfold Str.trim at 1. rewrite trimStart_cons, Hc, <- E.
  unfold Str.trim. apply trimEnd_idem.
Qed.

Lemma trimStart_forallb p : forall s,
  forallb p s = true -> forallb p (Str.trimStart s) = true.
Proof.
  induction s as [|c s IH]; intros H; [reflexivity|].
  rewrite trimStart_cons. destruct (Char.is_space c); [|assumption].
  simpl in H. apply andb_true_iff in H as [_ H]. now apply IH.
Qed.

Lemma forallb_rev (p : codeunit -> bool) s : forallb p s = true -> forallb p (rev s) = true.
Proof.
  rewrite !forallb_forall. intros H x Hx. apply H. now apply in_rev.
Qed.

Lemma trim_forallb p s : forallb p s = true -> forallb p (Str.trim s) = true.
Proof.
  intros H. unfold Str.trim, Str.trimEnd.
  now apply forallb_rev, trimStart_forallb, forallb_rev, trimStart_forallb.
Qed.

(** ** The records of the headings *)

(** X4. Whatever the document, every record that [extractHeadings] returns
    has a level from 1 to 6 and a text that is trimmed: trimming it again
    changes nothing, it neither starts nor ends with a white space character,
    and it holds no line terminator; its id is the slug of that text in lower
    case, strict and with the hyphen as replacement. *)
Theorem extractHeadings_records {SL : Slugifier} (content : jsstring) :
  Forall (fun h =>
            1 <= level h <= 6 /\
            Str.trim (text h) = text h /\
            (forall c r, text h = c :: r -> Char.is_space c = false) /\
            (forall u c, text h = u ++ [c] -> Char.is_space c = false) /\
            forallb Char.is_dot (text h) = true /\
            id h = slugify (text h)
                     {| lower := true; strict := true; replacement := Some (js "-") |})
         (extractHeadings content).
Proof.
  unfold extractHeadings. apply Forall_flat_map, Forall_forall. intros line _.
  unfold heading_of_line.
  destruct (headingMatch line) as [[g1 g2]|] eqn:Hm; [|constructor].
  apply headingMatch_sound in Hm as (ws & _ & _ & Hlen & _ & _ & _ & Hdot).
  constructor; [|constructor]. cbn [level text id]. repeat split.
  - lia.
  - lia.
  - apply trim_idem.
  - intros c r. apply trim_head.
  - intros u c. apply trim_last.
  - now apply trim_forallb.
Qed.

Lemma heading_of_line_terminated {SL : Slugifier} (line : jsstring) (c : codeunit) :
  Char.is_line_terminator c = true -> heading_of_line (line ++ [c]) = [].
Proof.
  intros Hc. unfold heading_of_line.
  destruct (headingMatch (line ++ [c])) as [[g1 g2]|] eqn:Hm; [|reflexivity].
  exfalso.
  apply headingMatch_sound in Hm as (ws & E & _ & _ & _ & _ & Hne & Hdot).
  destruct (exists_last Hne) as (g & d & ->).
  rewrite !app_assoc in E. apply app_inj_tail in E as [_ ->].
  rewrite forallb_app in Hdot. apply andb_true_iff in Hdot as [_ Hd].
  simpl in Hd. unfold Char.is_dot in Hd. rewrite Hc in Hd. discriminate.
Qed.

(** X5. A document whose lines all end in carriage return and line feed
    gives no record at all, whatever the lines are: the carriage return stays
    at the end of each line and the pattern does not match across it. *)
Theorem extractHeadings_crlf {SL : Slugifier} (lines : list jsstring) :
  Forall (fun l => ~ In 10%N l) lines ->
  extractHeadings (flat_map (fun l => l ++ [13%N; 10%N]) lines) = [].
Proof.
  unfold extractHeadings. induction 1 as [|l ls Hl _ IH]; [reflexivity|].
  cbn [flat_map].
  replace ((l ++ [13%N; 10%N]) ++ flat_map (fun l0 => l0 ++ [13%N; 10%N]) ls)
    with ((l ++ [13%N]) ++ 10%N :: flat_map (fun l0 => l0 ++ [13%N; 10%N]) ls)
    by now rewrite <- !app_assoc.
  rewrite split_sep, flat_map_app, IH, app_nil_r.
  rewrite split_no_sep.
  - cbn [flat_map]. rewrite app_nil_r.
    now apply heading_of_line_terminated.
  - intros H. apply in_app_or in H as [H|[H|[]]]; [tauto|discriminate].
Qed.

(** Two headings and a paragraph with such line ends. *)
Lemma extractHeadings_crlf_witness :
  extractHeadings (SL := SpecModel.slugifier)
    (flat_map (fun l => l ++ [13%N; 10%N]) [js "# Title"; js "Text"; js "## Part"]) = [].
Proof.
  apply extractHeadings_crlf.
  constructor; [|constructor; [|constructor; [|constructor]]];
    intros H; vm_compute in H; intuition discriminate.
Defined.

(** ** The matches of a global regular expression *)

Lemma matched_app (x rest : jsstring) : Re.matched (x ++ rest) rest = x.
Proof.
  unfold Re.matched. rewrite length_app.
  replace (length x + length rest - length rest) with (length x) by lia.
  rewrite firstn_app, Nat.sub_diag, firstn_all. simpl. apply app_nil_r.
Qed.

Section ExecFacts.

Variable R : Type.
Variable m : Re.matcher R.

Lemma search_suffix : forall s from r rest,
  Re.search m s = Some (from, r, rest) -> exists pre, s = pre ++ from.
Proof.
  induction s as [|c s IH]; intros from r rest H; simpl in H.
  - destruct (m []) as [[r' rest']|]; [|discriminate].
    injection H as <- _ _. now exists [].
  - destruct (m (c :: s)) as [[r' rest']|].
    + injection H as <- _ _. now exists [].
    + apply IH in H as [pre ->]. now exists (c :: pre).
Qed.

Lemma search_here s r rest :
  m s = Some (r, rest) -> Re.search m s = Some (s, r, rest).
Proof. intros H. destruct s; simpl; now rewrite H. Qed.

Lemma search_skip c s : m (c :: s) = None -> Re.search m (c :: s) = Re.search m s.
Proof. intros H. simpl. now rewrite H. Qed.

Hypothesis m_progress : progress m.

(** A match leaves a suffix of its input. *)
Hypothesis m_suffix : forall s r rest, m s = Some (r, rest) -> exists x, s = x ++ rest.

(** Every match of the loop is a match of the expression at some position
    of the input. *)
Lemma execAll_In : forall s x,
  In x (Re.execAll m s) ->
  exists pre from rest,
    s = pre ++ from /\ m from = Some (snd x, rest) /\ fst x = Re.matched from rest.
Proof.
  induction s as [s IH] using length_ind. intros x Hx.
  rewrite (execAll_step m_progress) in Hx.
  destruct (Re.search m s) as [[[from r] rest]|] eqn:Hs; [|contradiction].
  pose proof (search_sound _ _ Hs) as [Hm Hlen].
  pose proof Hs as Epre. apply search_suffix in Epre as [pre Epre].
  destruct Hx as [<-|Hx].
  - exists pre, from, rest. auto.
  - pose proof Hm as Hlt. apply m_progress in Hlt.
    apply IH in Hx as (pre' & from' & rest' & Erest & Hm' & Hx); [|lia].
    pose proof Hm as Ex0. apply m_suffix in Ex0 as [x0 Ex0].
    exists (pre ++ x0 ++ pre'), from', rest'.
    rewrite <- !app_assoc, <- Erest, <- Ex0. auto.
Qed.

End ExecFacts.

(** The first occurrence of a literal is where the search starts matching. *)
Lemma search_lit_first {R} (l : jsstring) (k : Re.matcher R) r rest : forall a b,
  (forall a' b', a ++ l ++ b = a' ++ l ++ b' -> length a <= length a') ->
  k b = Some (r, rest) ->
  Re.search (Re.lit l k) (a ++ l ++ b) = Some (l ++ b, r, rest).
Proof.
  induction a as [|c a IH]; intros b Hmin Hk.
  - apply search_here. unfold Re.lit. now rewrite strip_prefix_app.
  - change ((c :: a) ++ l ++ b) with (c :: a ++ l ++ b).
    rewrite search_skip.
    + apply IH; [|assumption]. intros a' b' E.
      specialize (Hmin (c :: a') b'). simpl in Hmin. rewrite E in Hmin.
      specialize (Hmin eq_refl). lia.
    + unfold Re.lit.
      destruct (Str.strip_prefix l (c :: a ++ l ++ b)) as [x|] eqn:Hp; [|reflexivity].
      apply strip_prefix_Some in Hp.
      specialize (Hmin [] x). simpl in Hmin. specialize (Hmin Hp). lia.
Qed.

(** Without an occurrence of its leading literal, an expression has no
    match. *)
Lemma search_lit_absent {R} (l : jsstring) (k : Re.matcher R) : forall s,
  ~ occurs l s -> Re.search (Re.lit l k) s = None.
Proof.
  assert (Hm : forall s, ~ occurs l s -> Re.lit l k s = None).
  { intros s Hno. unfold Re.lit.
    destruct (Str.strip_prefix l s) as [x|] eqn:Hp; [|reflexivity].
    exfalso. apply Hno. apply strip_prefix_Some in Hp. now exists [], x. }
  induction s as [|c s IH]; intros Hno; simpl; rewrite (Hm _ Hno); [reflexivity|].
  apply IH. intros (a & b & ->). apply Hno. now exists (c :: a), b.
Qed.

(** A lazy quantifier stops at the first length that lets the rest match. *)
Lemma lazy_star_first {R} p (k : jsstring -> jsstring -> option R) r : forall g acc rest,
  forallb p g = true ->
  (forall g' x, g = g' ++ x -> x <> [] -> k (acc ++ g') (x ++ rest) = None) ->
  k (acc ++ g) rest = Some r ->
  Re.lazy_star p k acc (g ++ rest) = Some r.
Proof.
  induction g as [|c g IH]; intros acc rest Hp Hmin Hk.
  - rewrite app_nil_r in Hk. simpl. destruct rest; simpl; now rewrite Hk.
  - simpl in Hp. apply andb_true_iff in Hp as [Hc Hg].
    change ((c :: g) ++ rest) with (c :: g ++ rest). simpl.
    pose proof (Hmin [] (c :: g) eq_refl) as H0. rewrite app_nil_r in H0.
    simpl in H0. rewrite H0 by discriminate. rewrite Hc.
    apply IH; [assumption| |now rewrite <- app_assoc].
    intros g' x -> Hx. rewrite <- app_assoc. apply (Hmin (c :: g') x); [reflexivity|assumption].
Qed.

Lemma lazy_star_minimal {R} p (k : jsstring -> jsstring -> option R) : forall s acc r,
  Re.lazy_star p k acc s = Some r ->
  exists g rest,
    s = g ++ rest /\ forallb p g = true /\ k (acc ++ g) rest = Some r /\
    forall g' x, g = g' ++ x -> x <> [] -> k (acc ++ g') (x ++ rest) = None.
Proof.
  induction s as [|c s IH]; intros acc r H; simpl in H.
  - destruct (k acc []) eqn:Hk; [|discriminate].
    exists [], []. rewrite !app_nil_r. repeat split; try congruence.
    intros g' x E Hx. symmetry in E. apply app_eq_nil in E as [_ ->]. congruence.
  - destruct (k acc (c :: s)) eqn:Hk.
    + exists [], (c :: s). rewrite !app_nil_r. repeat split; try congruence.
      intros g' x E Hx. symmetry in E. apply app_eq_nil in E as [_ ->]. congruence.
    + destruct (p c) eqn:Hp; [|discriminate].
      apply IH in H as (g & rest & -> & Hg & H & Hmin).
      exists (c :: g), rest. rewrite <- app_assoc in H.
      simpl. rewrite Hp. repeat split; try assumption.
      intros [|d g'] x E Hx.
      * simpl in E. subst x. now rewrite app_nil_r.
      * injection E as <- ->. specialize (Hmin g' x eq_refl Hx).
        now rewrite <- app_assoc in Hmin.
Qed.

(** ** The anchor of the first element of a level *)

Lemma headingElement_shape tagName s g rest :
  headingElement tagName s = Some (g, rest) ->
  s = (js "<" ++ tagName ++ js ">") ++ g ++ (js "</" ++ tagName ++ js ">") ++ rest /\
  forallb Char.is_dot g = true.
Proof.
  unfold headingElement. intros H.
  apply lit_sound in H as (s1 & -> & H).
  apply lazy_star_sound in H as (g' & s2 & -> & Hg & H).
  apply lit_sound in H as (s3 & -> & H). injection H as <- <-.
  now split.
Qed.

Lemma tag_no_dollar (k : nat) :
  1 <= k <= 6 -> ~ In Char.dollar (js "h" ++ decimal k).
Proof.
  intros Hk H.
  assert (E : k = 1 \/ k = 2 \/ k = 3 \/ k = 4 \/ k = 5 \/ k = 6) by lia.
  destruct E as [->|[->|[->|[->|[->| ->]]]]]; vm_compute in H; intuition discriminate.
Qed.

(** X6. When the first element of the record's level in the markup is on
    one line and holds, up to surrounding white space, the record's text, the
    injector gives that element the record's id and changes nothing else;
    the text and the id hold no dollar sign. The first occurrence of the
    opening tag is after [before], and the first closing tag after it is after
    [inner]. *)
Theorem addHeadingId_first_element (before inner after : jsstring) (h : HeadingRecord) :
  let tagName := js "h" ++ decimal (level h) in
  let opening := js "<" ++ tagName ++ js ">" in
  let closing := js "</" ++ tagName ++ js ">" in
  1 <= level h <= 6 ->
  (forall a' b', before ++ opening ++ inner ++ closing ++ after = a' ++ opening ++ b' ->
                 length before <= length a') ->
  forallb Char.is_dot inner = true ->
  (forall a' b', inner ++ closing ++ after = a' ++ closing ++ b' ->
                 length inner <= length a') ->
  Str.trim inner = Str.trim (text h) ->
  ~ In Char.dollar (inner ++ id h) ->
  addHeadingId (before ++ opening ++ inner ++ closing ++ after) h
  = before ++ (js "<" ++ tagName ++ js " id=" ++ quoted (id h) ++ js ">")
           ++ inner ++ closing ++ after.
Proof.
  intros tagName opening closing Hlevel Hopen Hdot Hclose Htext Hno.
  unfold addHeadingId. fold tagName.
  rewrite (execAll_step (@headingElement_progress tagName)).
  assert (Hlazy :
            Re.lazy_star Char.is_dot
              (fun g1 => Re.lit closing (fun rest => Some (g1, rest)))
              [] (inner ++ closing ++ after) = Some (inner, after)).
  { apply lazy_star_first; [assumption| |].
    2: { unfold Re.lit. now rewrite strip_prefix_app. }
    - intros g' x -> Hx. unfold Re.lit.
      destruct (Str.strip_prefix closing (x ++ closing ++ after)) as [y|] eqn:Hp;
        [|reflexivity].
      apply strip_prefix_Some in Hp.
      specialize (Hclose g' y). rewrite <- app_assoc, Hp in Hclose.
      specialize (Hclose eq_refl). rewrite length_app in Hclose.
      destruct x; [congruence|simpl in Hclose; lia]. }
  unfold headingElement. fold opening closing.
  rewrite (search_lit_first _ _ _ _ Hopen Hlazy).
  cbn [List.find snd]. rewrite Htext, jsstring_eqb_refl.
  replace (opening ++ inner ++ closing ++ after)
    with ((opening ++ inner ++ closing) ++ after) by now rewrite <- !app_assoc.
  rewrite matched_app. unfold Str.replace.
  rewrite find_first.
  - rewrite getSubstitution_plain.
    + change ([] ++ before) with before. now rewrite <- !app_assoc.
    + pose proof (tag_no_dollar Hlevel) as Htag. fold tagName in Htag.
      clearbody tagName. intros H. unfold quoted, closing in H.
      repeat (apply in_app_or in H as [H|H]);
        first [ now apply Htag
              | now (apply Hno, in_or_app; auto)
              | vm_compute in H; intuition discriminate ].
  - intros a' b' E. apply (Hopen a' (inner ++ closing ++ b')).
    now rewrite <- !app_assoc in E.
Qed.

Lemma find_first_occurrence (pat s a b : jsstring) :
  Str.find pat [] s = Some (a, b) ->
  forall a' b', s = a' ++ pat ++ b' -> length a <= length a'.
Proof.
  intros H. apply find_minimal in H as (a0 & -> & _ & Hmin). exact Hmin.
Qed.

(** Of two elements with the same text, the first one gets the id. *)
Lemma addHeadingId_first_element_witness :
  addHeadingId
    (Sample.setupBefore ++ js "<h2>" ++ Sample.setupInner ++ js "</h2>" ++ Sample.setupAfter)
    Sample.setup
  = Sample.setupBefore ++ (js "<h2 id=" ++ quoted (js "setup") ++ js ">")
      ++ Sample.setupInner ++ js "</h2>" ++ Sample.setupAfter.
Proof.
  apply (@addHeadingId_first_element Sample.setupBefore Sample.setupInner
           Sample.setupAfter Sample.setup).
  - simpl. lia.
  - eapply find_first_occurrence. reflexivity.
  - reflexivity.
  - eapply find_first_occurrence. reflexivity.
  - reflexivity.
  - intros H. vm_compute in H. intuition discriminate.
Defined.

(** ** The image elements of the embedded mode *)

Lemma imgElement_shape s src rest :
  imgElement s = Some (src, rest) ->
  exists pre post,
    s = js "<img" ++ pre ++ (js "src=" ++ dq) ++ src ++ dq ++ post ++ js ">" ++ rest /\
    pre <> [] /\ forallb (Char.is_not_char 62) pre = true /\
    src <> [] /\ forallb (Char.is_not_char 34) src = true /\
    forallb (Char.is_not_char 62) post = true.
Proof.
  unfold imgElement. intros H.
  apply lit_sound in H as (s1 & -> & H).
  apply plus_sound in H as (g1 & s2 & -> & Hg1 & Hne1 & H).
  apply lit_sound in H as (s3 & -> & H).
  apply plus_sound in H as (g2 & s4 & -> & Hg2 & Hne2 & H).
  apply lit_sound in H as (s5 & -> & H).
  apply star_sound in H as (g3 & s6 & -> & Hg3 & H).
  apply lit_sound in H as (s7 & -> & H). injection H as <- <-.
  exists g1, g3. rewrite <- !app_assoc. repeat split; assumption.
Qed.

Section EmbeddedModeFacts.

Context {plib : PathLib} {fsys : FileSystem} {slib : StringLib}.

Variable cfg : ImagePathConfig.

Lemma embedImage_reads_only sourceDir processedHtml img :
  reads_only (embedImage cfg sourceDir processedHtml img).
Proof.
  unfold embedImage. destruct (isExternalUrl (snd img)).
  - apply reads_only_bind; [apply reads_only_log|]. intros _. apply reads_only_ret.
  - destruct (isExternal (remapImagePath cfg (snd img))); [apply reads_only_ret|].
    unfold embedResolved. apply reads_only_bind; [intros w; reflexivity|].
    intros [|].
    + apply reads_only_bind; [apply reads_only_read|]. intros bytes.
      apply reads_only_bind; [apply reads_only_log|]. intros _. apply reads_only_ret.
    + apply reads_only_bind; [apply reads_only_log|]. intros _. apply reads_only_ret.
Qed.

(** X7. The embedded mode never changes the file system: whatever the
    markup, the rules and the files, [convertImagesToBase64] leaves the file
    system as it found it, whether it returns or throws. *)
Theorem convertImagesToBase64_reads_only (sourceFilePath html : jsstring) (w : World) :
  fs (snd (convertImagesToBase64 cfg sourceFilePath html w)) = fs w.
Proof.
  unfold convertImagesToBase64.
  apply (reads_only_foldM (embedImage cfg (dirname sourceFilePath))).
  intros b x. apply embedImage_reads_only.
Qed.

(** X8. A markup in which the text [<img] or the text [src=Q], with [Q]
    the double quote, does not occur goes through the embedded mode
    unchanged: nothing is looked up, read or logged. An image element with a
    single-quoted address is therefore never embedded. *)
Theorem convertImagesToBase64_no_candidate (sourceFilePath html : jsstring) (w : World) :
  ~ occurs (js "<img") html \/ ~ occurs (js "src=" ++ dq) html ->
  convertImagesToBase64 cfg sourceFilePath html w = (Ok html, w).
Proof.
  intros Hno. unfold convertImagesToBase64.
  rewrite (execAll_step imgElement_progress).
  destruct (Re.search imgElement html) as [[[from r] rest]|] eqn:Hs; [|reflexivity].
  exfalso.
  pose proof (search_sound _ _ Hs) as [Hm _].
  apply search_suffix in Hs as [a ->].
  apply imgElement_shape in Hm as (pre & post & -> & _).
  destruct Hno as [Hno|Hno]; apply Hno.
  - exists a. eexists. reflexivity.
  - exists (a ++ js "<img" ++ pre). eexists. rewrite <- !app_assoc. reflexivity.
Qed.

End EmbeddedModeFacts.

(** An element with a single-quoted address. *)
Lemma convertImagesToBase64_no_candidate_witness :
  @convertImagesToBase64 Host.paths Host.files Host.strings imagePathConfig
    (js "/docs/guide.md") (js "<img src='a.png'>") (Host.world Sample.docs)
  = (Ok (js "<img src='a.png'>"), Host.world Sample.docs).
Proof.
  apply convertImagesToBase64_no_candidate. right.
  apply (@find_None_absent _ _ []). reflexivity.
Defined.

(** ** The image references of a document *)

Lemma imageSyntax_sound s g rest :
  imageSyntax s = Some (g, rest) ->
  (exists x, s = x ++ rest) /\ forallb Char.is_dot g = true /\ ~ In 41%N g.
Proof.
  unfold imageSyntax. intros H.
  apply lit_sound in H as (s1 & -> & H).
  apply lazy_star_sound in H as (alt & s2 & -> & _ & H).
  apply lit_sound in H as (s3 & -> & H).
  apply lazy_star_minimal in H as (g1 & s4 & -> & Hdot & H & Hmin).
  cbn [app] in H, Hmin.
  assert (Hg : g = g1 /\ exists y, s4 = y ++ rest).
  { unfold Re.opt in H.
    match type of H with
    | match ?x with _ => _ end = _ => destruct x as [r'|] eqn:Hx
    end.
    - injection H as ->.
      apply plus_sound in Hx as (g3 & s5 & -> & _ & _ & H).
      apply lit_sound in H as (s6 & -> & H).
      apply lazy_star_sound in H as (g4 & s7 & -> & _ & H).
      apply lit_sound in H as (s8 & -> & H).
      apply lit_sound in H as (s9 & -> & H). injection H as <- <-.
      split; [reflexivity|]. eexists. rewrite !app_assoc. reflexivity.
    - apply lit_sound in H as (s5 & -> & H). injection H as <- <-.
      split; [reflexivity|]. eexists. reflexivity. }
  destruct Hg as [-> [y ->]]. repeat split.
  - eexists. rewrite !app_assoc. reflexivity.
  - assumption.
  - intros Hin. apply in_split in Hin as (u & v & ->).
    specialize (Hmin u (41%N :: v) eq_refl). 
    assert (Hx : 41%N :: v <> []) by discriminate. specialize (Hmin Hx).
    change ((41%N :: v) ++ y ++ rest) with (41%N :: v ++ y ++ rest) in Hmin.
    unfold Re.opt, Re.plus, Re.rep in Hmin. cbn in Hmin. discriminate.
Qed.

Lemma imageSyntax_suffix s r rest :
  imageSyntax s = Some (r, rest) -> exists x, s = x ++ rest.
Proof. intros H. now apply imageSyntax_sound in H. Qed.

Lemma trim_not_in c s : ~ In c s -> ~ In c (Str.trim s).
Proof.
  intros Hno Hin. apply Hno.
  assert (Hstart : forall t, In c (Str.trimStart t) -> In c t).
  { induction t as [|d t IH]; [auto|]. rewrite trimStart_cons.
    destruct (Char.is_space d); [|auto]. intros H. right. auto. }
  unfold Str.trim, Str.trimEnd in Hin.
  apply in_rev, Hstart, in_rev, Hstart in Hin. exact Hin.
Qed.

(** X9. Whatever the document, no path that [extractImagePaths] returns
    holds a closing parenthesis or a line terminator, and every path is
    trimmed: the capture stops at the first closing parenthesis, so that the
    reference to [file(1).png] is cut after the digit. *)
Theorem extractImagePaths_paths (content : jsstring) :
  Forall (fun p =>
            ~ In 41%N p /\
            forallb Char.is_dot p = true /\
            Str.trim p = p)
         (extractImagePaths content) /\
  extractImagePaths (js "![a](file(1).png)") = [js "file(1"].
Proof.
  split; [|reflexivity].
  unfold extractImagePaths. apply Forall_map, Forall_forall. intros x Hx.
  apply (execAll_In imageSyntax_progress imageSyntax_suffix) in Hx
    as (pre & from & rest & _ & Hm & _).
  apply imageSyntax_sound in Hm as (_ & Hdot & Hparen).
  repeat split.
  - now apply trim_not_in.
  - now apply trim_forallb.
  - apply trim_idem.
Qed.

(** ** The linked mode *)

Section LinkedModeFacts.

Context {SL : Slugifier} {plib : PathLib} {fsys : FileSystem} {slib : StringLib}
        {mk : Markdown} {sty : Stylesheet} {br : Browser}.

Variable cfg : ImagePathConfig.

Lemma mapM_length {A B} (f : A -> M B) : forall xs w ys w',
  mapM f xs w = (Ok ys, w') -> length ys = length xs.
Proof.
  induction xs as [|x xs IH]; intros w ys w' H; simpl in H.
  - injection H as <- _. reflexivity.
  - unfold bind in H. destruct (f x w) as [[y|e] w1]; [|discriminate].
    destruct (mapM f xs w1) as [[ys'|e] w2] eqn:Hm; [|discriminate].
    injection H as <- _. simpl. f_equal. now apply (IH w1 ys' w2).
Qed.

Lemma copyImages_aligned sourceFilePath imagePaths outputDir w newImagePaths w' :
  copyImages cfg sourceFilePath imagePaths outputDir w = (Ok newImagePaths, w') ->
  length newImagePaths = length imagePaths.
Proof.
  unfold copyImages, bind. intros H.
  destruct (exists_ (join outputDir (js "images")) w) as [[present|e] w1];
    [|discriminate].
  destruct (when (negb present) _ w1) as [[[]|e] w2]; [|discriminate].
  now apply mapM_length in H.
Qed.

Lemma mapM_Forall2 {A B} (f : A -> M B) : forall xs w ys w',
  mapM f xs w = (Ok ys, w') ->
  Forall2 (fun x y => exists w0 w1, f x w0 = (Ok y, w1)) xs ys.
Proof.
  induction xs as [|x xs IH]; intros w ys w' H; simpl in H.
  - injection H as <- _. constructor.
  - unfold bind in H. destruct (f x w) as [[y|e] w1] eqn:Hx; [|discriminate].
    destruct (mapM f xs w1) as [[ys'|e] w2] eqn:Hm; [|discriminate].
    injection H as <- _. constructor; [now exists w, w1|]. now apply (IH w1 ys' w2).
Qed.

Lemma copyImages_paired sourceFilePath imagePaths outputDir w newImagePaths w' :
  copyImages cfg sourceFilePath imagePaths outputDir w = (Ok newImagePaths, w') ->
  Forall2 (fun ref new =>
             exists w0 w1,
               copyImage cfg (dirname sourceFilePath) (join outputDir (js "images")) ref w0
               = (Ok new, w1))
          imagePaths newImagePaths.
Proof.
  unfold copyImages, bind. intros H.
  destruct (exists_ (join outputDir (js "images")) w) as [[present|e] w1];
    [|discriminate].
  destruct (when (negb present) _ w1) as [[[]|e] w2]; [|discriminate].
  now apply mapM_Forall2 in H.
Qed.

Lemma collectHtml_paired (outputDir : jsstring) (files : list jsstring) :
  forall (rest : list jsstring) (acc all : Collected) (w w' : World),
    (forall file, In file rest -> In file files) ->
    Forall2 (fun ref new =>
               exists file w0 w1,
                 In file files /\
                 copyImage cfg (dirname file) (join outputDir (js "images")) ref w0
                 = (Ok new, w1))
            (allImagePaths acc) (allImageOutputPaths acc) ->
    foldM (collectHtml cfg outputDir) rest acc w = (Ok all, w') ->
    Forall2 (fun ref new =>
               exists file w0 w1,
                 In file files /\
                 copyImage cfg (dirname file) (join outputDir (js "images")) ref w0
                 = (Ok new, w1))
            (allImagePaths all) (allImageOutputPaths all).
Proof.
  induction rest as [|file rest IH]; intros acc all w w' Hin Hacc H; simpl in H.
  - injection H as <- _. exact Hacc.
  - unfold bind at 1 in H.
    destruct (collectHtml cfg outputDir acc file w) as [[acc'|e] w1] eqn:Hc;
      [|discriminate].
    apply (IH acc' all w1 w'); [intros f Hf; apply Hin; now right| |exact H].
    unfold collectHtml, bind in Hc.
    destruct (fs_read _ w) as [[content|e] w2]; [|discriminate].
    destruct (copyImages cfg file (extractImagePaths content) outputDir w2)
      as [[newImagePaths|e] w3] eqn:Hcopy; [|discriminate].
    injection Hc as <- _. cbn [allImagePaths allImageOutputPaths].
    apply Forall2_app; [exact Hacc|].
    apply copyImages_paired in Hcopy.
    eapply Forall2_impl; [|exact Hcopy].
    intros ref new (w0 & w4 & Hcopied). exists file, w0, w4.
    split; [apply Hin; now left|exact Hcopied].
Qed.

(** X10. In a combined HTML run the two lists that the first pass
    accumulates are aligned: position by position, the entry of
    [allImageOutputPaths] is a path that the callback of [copyImages]
    returned for the entry of [allImagePaths] at the same position, run for
    one of the documents; so the lists have the same length, and the rewrite
    of the second pass pairs each reference with a path made for it. *)
Theorem collectHtml_aligned
        (outputDir : jsstring) (files : list jsstring) (all : Collected) (w w' : World) :
  foldM (collectHtml cfg outputDir) files
        {| allContent := []; allHeadings := [];
           allImagePaths := []; allImageOutputPaths := [] |} w
  = (Ok all, w') ->
  Forall2 (fun ref new =>
             exists file w0 w1,
               In file files /\
               copyImage cfg (dirname file) (join outputDir (js "images")) ref w0
               = (Ok new, w1))
          (allImagePaths all) (allImageOutputPaths all) /\
  length (allImagePaths all) = length (allImageOutputPaths all) /\
  List.map fst (combine (allImagePaths all) (allImageOutputPaths all)) = allImagePaths all /\
  List.map snd (combine (allImagePaths all) (allImageOutputPaths all))
  = allImageOutputPaths all.
Proof.
  intros H.
  assert (Hall : Forall2 (fun ref new =>
                            exists file w0 w1,
                              In file files /\
                              copyImage cfg (dirname file) (join outputDir (js "images"))
                                        ref w0
                              = (Ok new, w1))
                         (allImagePaths all) (allImageOutputPaths all)).
  { apply (@collectHtml_paired outputDir files files
             {| allContent := []; allHeadings := [];
                allImagePaths := []; allImageOutputPaths := [] |} all w w');
      [auto|constructor|exact H]. }
  split; [exact Hall|].
  assert (Hlen : length (allImagePaths all) = length (allImageOutputPaths all))
    by apply (Forall2_length Hall).
  split; [exact Hlen|]. clear H Hall.
  generalize dependent (allImageOutputPaths all).
  induction (allImagePaths all) as [|x xs IH]; intros [|y ys] Hlen;
    try discriminate; [split; reflexivity|].
  simpl in Hlen. injection Hlen as Hlen. destruct (IH ys Hlen) as [H1 H2].
  simpl. now rewrite H1, H2.
Qed.

(** X11. A local reference whose remapped path resolves to an existing
    file: when the copy returns, the new path is [images/] followed by the
    base name of the resolved file, with the directory of the remapped path
    (a leading [./] removed) in between unless that directory is [.]; and
    nothing is written to the console. *)
Theorem copyImage_copied
        (sourceDir imagesOutputDir ref : jsstring) (w : World) (out : jsstring) (w' : World) :
  let rewritten := path (remapImagePath cfg ref) in
  let resolved := resolve sourceDir rewritten in
  let relativeDir := stripDotSlash (dirname rewritten) in
  isExternalUrl ref = false ->
  existsSync (fs w) resolved = true ->
  copyImage cfg sourceDir imagesOutputDir ref w = (Ok out, w') ->
  out = (if jsstring_eqb relativeDir (js ".")
         then js "images/" ++ basename resolved
         else js "images/" ++ relativeDir ++ js "/" ++ basename resolved) /\
  console w' = console w.
Proof.
  intros rewritten resolved relativeDir Hext Hyes H.
  rewrite copyImage_local in H by assumption.
  unfold copyResolved, bind, exists_ in H. fold rewritten resolved relativeDir in H.
  rewrite Hyes in H.
  destruct (jsstring_eqb relativeDir (js ".")); cbn [negb when ret] in H.
  - unfold fs_update in H.
    destruct (copyFileSync (fs w) resolved _) as [fs'|e]; [|discriminate].
    injection H as <- <-. split; reflexivity.
  - destruct (existsSync (fs w) (join imagesOutputDir relativeDir));
      cbn [negb when ret] in H; unfold fs_update in H.
    + destruct (copyFileSync (fs w) resolved _) as [fs'|e]; [|discriminate].
      injection H as <- <-. split; reflexivity.
    + destruct (mkdirSync (fs w) (join imagesOutputDir relativeDir)) as [fs1|e];
        [|discriminate].
      cbn [fs console] in H.
      destruct (copyFileSync fs1 resolved _) as [fs'|e]; [|discriminate].
      injection H as <- <-. split; reflexivity.
Qed.

End LinkedModeFacts.

(** The combined run over the illustrated document. *)
Lemma collectHtml_aligned_witness :
  length [js "a.png"; js "missing.png"] = length [js "images/a.png"; js "missing.png"].
Proof.
  refine (proj1 (proj2
    (@collectHtml_aligned SpecModel.slugifier Host.paths Host.files imagePathConfig
       (js "/out") [js "/docs/guide.md"]
       {| allContent :=
            @fileSection Host.paths (js "/docs/guide.md")
              (js "![logo](a.png) and ![gone](missing.png)");
          allHeadings := [];
          allImagePaths := [js "a.png"; js "missing.png"];
          allImageOutputPaths := [js "images/a.png"; js "missing.png"] |}
       (Host.world Sample.illustrated)
       (snd (foldM (@collectHtml SpecModel.slugifier Host.paths Host.files
                      imagePathConfig (js "/out"))
                   [js "/docs/guide.md"]
                   {| allContent := []; allHeadings := [];
                      allImagePaths := []; allImageOutputPaths := [] |}
                   (Host.world Sample.illustrated))) _))).
  vm_compute. reflexivity.
Defined.

(** The image next to the sample document. *)
Lemma copyImage_copied_witness :
  js "images/a.png" = js "images/a.png" /\
  @console Host.files
    (snd (@copyImage Host.paths Host.files imagePathConfig (js "/docs") (js "/out/images")
            (js "a.png") (Host.world Sample.published))) = [].
Proof.
  exact (@copyImage_copied Host.paths Host.files imagePathConfig
           (js "/docs") (js "/out/images") (js "a.png") (Host.world Sample.published)
           (js "images/a.png")
           (snd (@copyImage Host.paths Host.files imagePathConfig (js "/docs")
                   (js "/out/images") (js "a.png") (Host.world Sample.published)))
           eq_refl eq_refl eq_refl).
Defined.

(** The empty reference resolves to the directory of the document, which
    exists: copying it throws. *)
Example copyImage_empty_reference :
  @copyImage Host.paths Host.files imagePathConfig (js "/docs") (js "/out/images")
     [] (Host.world Sample.published)
  = (Throw (js "EISDIR: illegal operation on a directory"), Host.world Sample.published).
Proof. vm_compute. reflexivity. Qed.

(** ** The rules of [--remap] *)

Lemma split_cons_inv sep : forall s f l,
  Str.split sep s = f :: l ->
  ~ In sep f /\
  ((l = [] /\ s = f) \/ (exists s', l = Str.split sep s' /\ s = f ++ sep :: s')).
Proof.
  induction s as [|c s IH]; intros f l H; simpl in H.
  - injection H as <- <-. split; [tauto|]. now left.
  - destruct (N.eqb_spec c sep) as [->|Hc].
    + injection H as <- <-. split; [tauto|]. right. now exists s.
    + destruct (Str.split sep s) as [|l0 ls] eqn:Hs;
        [now apply split_nonempty in Hs|].
      injection H as <- <-.
      destruct (IH l0 ls eq_refl) as [Hno Hcases]. split.
      * simpl. intuition.
      * destruct Hcases as [[-> ->]|(s' & -> & ->)]; [now left|].
        right. now exists s'.
Qed.

(** X12. A pair of [--remap] gives a rule exactly when it is a non-empty
    text without colon, a colon, and a second non-empty text without colon,
    and either ends there or goes on with a further colon and any text: the
    rule is made of the two texts, and what follows a second colon is
    dropped. *)
Theorem parsePair_rule (pair : jsstring) (m : PathMapping) :
  parsePair pair = Some m <->
  from m <> [] /\ to m <> [] /\ ~ In 58%N (from m) /\ ~ In 58%N (to m) /\
  (pair = from m ++ 58%N :: to m \/
   exists rest, pair = from m ++ 58%N :: to m ++ 58%N :: rest).
Proof.
  destruct m as [f t]. cbn [from to]. unfold parsePair. split.
  - intros H.
    destruct (Str.split 58%N pair) as [|f' [|t' tl]] eqn:Hs; try discriminate.
    destruct f' as [|a f']; [discriminate|]. destruct t' as [|b t']; [discriminate|].
    injection H as <- <-.
    apply split_cons_inv in Hs as [Hf [[? _]|(s' & Hs & ->)]]; [discriminate|].
    symmetry in Hs. apply split_cons_inv in Hs as [Ht Hcases].
    repeat split; try assumption; try discriminate.
    destruct Hcases as [[_ ->]|(s'' & _ & ->)]; [now left|].
    right. now exists s''.
  - intros (Hf & Ht & Hfc & Htc & [->|[rest ->]]).
    + rewrite split_sep, !split_no_sep by assumption. simpl.
      destruct f; [congruence|]. destruct t; [congruence|]. reflexivity.
    + rewrite split_sep, split_sep, !split_no_sep by assumption. simpl.
      destruct f; [congruence|]. destruct t; [congruence|]. reflexivity.
Qed.

Section StartupFacts.

Context {SL : Slugifier} {plib : PathLib} {fsys : FileSystem} {slib : StringLib}
        {mk : Markdown} {sty : Stylesheet} {br : Browser}.

(** The rules of a list of pairs, and the lines logged for them. *)
Lemma configureRemap_loop : forall pairs cfg w,
  let rules :=
    flat_map (fun pair => match parsePair pair with Some m => [m] | None => [] end) pairs in
  foldM (fun cfg pair =>
           match parsePair pair with
           | Some m =>
               console_log (js "Added path remapping: " ++ from m ++ js " -> " ++ to m) ;;
               ret {| enableRemapping := enableRemapping cfg;
                      pathMappings := pathMappings cfg ++ [m];
                      handleExternalUrls := handleExternalUrls cfg |}
           | None => ret cfg
           end)
        pairs cfg w
  = (Ok {| enableRemapping := enableRemapping cfg;
           pathMappings := pathMappings cfg ++ rules;
           handleExternalUrls := handleExternalUrls cfg |},
     {| fs := fs w;
        console :=
          console w
          ++ List.map (fun m => (stdout, js "Added path remapping: " ++ from m
                                            ++ js " -> " ++ to m)) rules |}).
Proof.
  induction pairs as [|pair pairs IH]; intros cfg w; cbn zeta.
  - simpl. rewrite !app_nil_r. unfold ret. destruct cfg, w; reflexivity.
  - cbn [foldM flat_map]. unfold bind at 1.
    destruct (parsePair pair) as [m|].
    + unfold bind, console_log, ret. cbn zeta in IH. rewrite IH. simpl.
      now rewrite <- !app_assoc.
    + unfold ret at 1. cbn zeta in IH. now rewrite IH.
Qed.

(** X13. Configuring the rules never throws and never touches the file
    system. Without [--remap] the default configuration stays and nothing is
    logged. With [--remap] the default rule is dropped: the rules are those
    of the comma-separated pairs that give one, in their order, which may be
    none at all, and one line is logged for each; remapping stays enabled. *)
Theorem configureRemap_rules (options : Options) (w : World) :
  let rules :=
    flat_map (fun pair => match parsePair pair with Some m => [m] | None => [] end)
             (Str.split 44%N (remap options)) in
  (remap options = [] -> configureRemap options w = (Ok imagePathConfig, w)) /\
  (remap options <> [] ->
   configureRemap options w
   = (Ok {| enableRemapping := true; pathMappings := rules; handleExternalUrls := true |},
      {| fs := fs w;
         console :=
           console w
           ++ List.map (fun m => (stdout, js "Added path remapping: " ++ from m
                                             ++ js " -> " ++ to m)) rules |})).
Proof.
  intros rules. unfold configureRemap. split.
  - intros ->. reflexivity.
  - intros Hne. destruct (remap options) as [|c r] eqn:Hr; [congruence|].
    cbn [truthy]. now rewrite configureRemap_loop.
Qed.

Variable stackLimit : nat.

Lemma foldM_world {A B} (f : B -> A -> M B) (xs : list A) :
  (forall b x w, snd (f b x w) = w) -> forall b w, snd (foldM f xs b w) = w.
Proof.
  intros Hf. induction xs as [|x xs IH]; intros b w; [reflexivity|].
  simpl. unfold bind. specialize (Hf b x w).
  destruct (f b x w) as [[b'|e] w1]; simpl in Hf; subst; [apply IH|reflexivity].
Qed.

Lemma foldM_invariant {A B} (P : B -> Prop) (f : B -> A -> M B) (xs : list A) :
  (forall b x w b' w', P b -> f b x w = (Ok b', w') -> P b') ->
  forall b w b' w', P b -> foldM f xs b w = (Ok b', w') -> P b'.
Proof.
  intros Hf. induction xs as [|x xs IH]; intros b w b' w' Hb H; simpl in H.
  - injection H as <- _. exact Hb.
  - unfold bind in H. destruct (f b x w) as [[b1|e] w1] eqn:Hx; [|discriminate].
    apply (IH b1 w1 b' w'); [|exact H]. now apply (Hf b x w b1 w1).
Qed.

Lemma scanDir_world : forall depth directory mdFiles w,
  snd (scanDir depth directory mdFiles w) = w.
Proof.
  induction depth as [|depth IH]; intros directory mdFiles w; [reflexivity|].
  simpl. unfold bind at 1, fs_read at 1.
  destruct (readdirSync (fs w) directory) as [entries|e]; [|reflexivity].
  apply foldM_world. intros acc file w0. unfold bind, fs_read.
  destruct (isDirectory (fs w0) (join directory file)) as [[|]|e]; [apply IH| |reflexivity].
  destruct (jsstring_eqb _ _); reflexivity.
Qed.

Lemma scanDir_documents : forall depth directory mdFiles w files w',
  Forall (fun p => extname p = js ".md") mdFiles ->
  scanDir depth directory mdFiles w = (Ok files, w') ->
  Forall (fun p => extname p = js ".md") files.
Proof.
  induction depth as [|depth IH]; intros directory mdFiles w files w' Hacc H;
    [discriminate|].
  simpl in H. unfold bind at 1, fs_read at 1 in H.
  destruct (readdirSync (fs w) directory) as [entries|e]; [|discriminate].
  revert H. apply foldM_invariant; [|exact Hacc].
  intros acc file w0 acc' w0' Hb H. unfold bind, fs_read in H.
  destruct (isDirectory (fs w0) (join directory file)) as [[|]|e]; [| |discriminate].
  - now apply (IH _ _ _ _ _ Hb H).
  - destruct (jsstring_eqb (extname (join directory file)) (js ".md")) eqn:Hext;
      injection H as <- _; [|exact Hb].
    apply Forall_app. split; [exact Hb|]. constructor; [|constructor].
    now apply jsstring_eqb_eq.
Qed.

(** X14. Traversing the input directory changes nothing, neither the
    file system nor the console, whether it returns or throws; and every
    path it returns has the extension [.md], in exactly these letters. *)
Theorem traverseDirectory_documents (useDirectory : jsstring) (w : World) :
  snd (traverseDirectory stackLimit useDirectory w) = w /\
  forall files w',
    traverseDirectory stackLimit useDirectory w = (Ok files, w') ->
    Forall (fun p => extname p = js ".md") files.
Proof.
  unfold traverseDirectory. split; [apply scanDir_world|].
  intros files w'. apply scanDir_documents. constructor.
Qed.

(** X15. With documents found and a format that is neither [html] nor
    [pdf], the script converts nothing: it logs the count of documents,
    writes one error line, leaves the file system as it was and runs to its
    end, so that the process ends with status 0. *)
Theorem main_unknown_format (options : Options) (w : World)
        (cfg : ImagePathConfig) (files : list jsstring) (w1 : World) :
  startup stackLimit options w = (Ok (cfg, files), w1) ->
  files <> [] ->
  format options <> js "html" ->
  format options <> js "pdf" ->
  main stackLimit options w
  = (Completed,
     erred (logged w1 (js "Found " ++ decimal (length files)
                          ++ js " markdown files in " ++ directory options))
           (js "Invalid format. Use " ++ quoted (js "html") ++ js " or "
               ++ quoted (js "pdf") ++ js ".")) /\
  fs (snd (main stackLimit options w)) = fs w /\
  exitStatus (fst (main stackLimit options w)) = Some 0%Z.
Proof.
  intros Hs Hne Hhtml Hpdf.
  apply jsstring_eqb_neq in Hhtml, Hpdf.
  assert (Hmain : main stackLimit options w
                  = (Completed,
                     erred (logged w1 (js "Found " ++ decimal (length files)
                                          ++ js " markdown files in " ++ directory options))
                           (js "Invalid format. Use " ++ quoted (js "html") ++ js " or "
                               ++ quoted (js "pdf") ++ js "."))).
  { unfold main. rewrite Hs.
    destruct files as [|file files]; [congruence|]. cbn [length Nat.eqb].
    rewrite Hpdf. cbn [andb]. unfold dispatch. now rewrite Hhtml, Hpdf. }
  rewrite Hmain. repeat split.
  cbn [snd erred logged fs].
  pose proof (startup_reads_only stackLimit options w) as Hfs.
  now rewrite Hs in Hfs.
Qed.


End StartupFacts.

(** A run that asks for the format [docx] over the sample document. *)
Lemma main_unknown_format_witness :
  exitStatus
    (fst (@main SpecModel.slugifier Host.paths Host.files Host.strings Host.markdown
            Host.stylesheet Host.browser 16 Sample.docxRun (Host.world Sample.docs)))
  = Some 0%Z.
Proof.
  refine (proj2 (proj2
    (@main_unknown_format SpecModel.slugifier Host.paths Host.files Host.strings
       Host.markdown Host.stylesheet Host.browser 16 Sample.docxRun
       (Host.world Sample.docs) imagePathConfig [js "/docs/guide.md"]
       (Host.world Sample.docs) _ _ _ _))).
  - vm_compute. reflexivity.
  - discriminate.
  - apply jsstring_eqb_neq. reflexivity.
  - apply jsstring_eqb_neq. reflexivity.
Defined.


(** The same run with a browser that cannot be launched: the process ends
    with status 0. *)
Example main_pdf_no_browser :
  let r := @main SpecModel.slugifier Host.paths Host.locked Host.strings Host.markdown
                 Host.stylesheet Host.no_browser 16 Sample.pdfRunA4
                 (@Build_World Host.locked Sample.docs []) in
  fst r = Completed /\
  exitStatus (fst r) = Some 0%Z /\
  List.map fst (@console Host.locked (snd r)) = [stdout; stdout; stderr].
Proof. repeat split; vm_compute; reflexivity. Qed.

(** ** The first image reference of a document *)

(** The optional title needs a double quote after white space. *)
Lemma title_fails {R} (k : jsstring -> option R) (x rest : jsstring) :
  ~ In 34%N x ->
  Re.plus Char.is_space (fun _ => Re.lit dq k) (x ++ 41%N :: rest) = None.
Proof.
  intros Hq.
  destruct (Re.plus Char.is_space (fun _ => Re.lit dq k) (x ++ 41%N :: rest))
    as [r|] eqn:H; [|reflexivity].
  exfalso.
  apply plus_sound in H as (g & rest' & E & Hg & Hne & H).
  apply lit_sound in H as (rest'' & -> & _).
  apply app_eq_app in E as [l [[-> E]|[-> E]]].
  - destruct l as [|c l]; [discriminate|].
    injection E as <- _. apply Hq, in_or_app. right. now left.
  - destruct l as [|c l]; [discriminate|].
    injection E as <- _.
    rewrite forallb_app in Hg. apply andb_true_iff in Hg as [_ Hg].
    simpl in Hg. discriminate.
Qed.

(** X17. The first image reference of a document: when the first [![]
    of the content is followed by an alternative text on one line, the first
    [](] after it, and a path on one line without closing parenthesis and
    double quote up to a closing parenthesis, the path, trimmed, is the first
    reference that [extractImagePaths] returns, and the others are those of
    the content after that parenthesis. *)
Theorem extractImagePaths_reference (pre alt p rest : jsstring) :
  (forall a' b', pre ++ js "![" ++ alt ++ js "](" ++ p ++ js ")" ++ rest
                 = a' ++ js "![" ++ b' -> length pre <= length a') ->
  forallb Char.is_dot alt = true ->
  (forall a' b', alt ++ js "](" ++ p ++ js ")" ++ rest = a' ++ js "](" ++ b' ->
                 length alt <= length a') ->
  forallb Char.is_dot p = true ->
  ~ In 41%N p ->
  ~ In 34%N p ->
  extractImagePaths (pre ++ js "![" ++ alt ++ js "](" ++ p ++ js ")" ++ rest)
  = Str.trim p :: extractImagePaths rest.
Proof.
  intros Hpre Halt Hsep Hp Hparen Hquote.
  unfold extractImagePaths. rewrite (execAll_step imageSyntax_progress).
  unfold imageSyntax at 1.
  rewrite (@search_lit_first _ (js "![") _ p rest pre _ Hpre); [reflexivity|].
  apply lazy_star_first; [assumption| |].
  - intros g' x -> Hx. unfold Re.lit at 1.
    destruct (Str.strip_prefix (js "](") (x ++ js "](" ++ p ++ js ")" ++ rest))
      as [y|] eqn:Hs; [|reflexivity].
    exfalso. apply strip_prefix_Some in Hs.
    specialize (Hsep g' y). rewrite <- app_assoc, Hs in Hsep.
    specialize (Hsep eq_refl). rewrite length_app in Hsep.
    destruct x; [congruence|simpl in Hsep; lia].
  - cbn [app]. unfold Re.lit at 1. rewrite strip_prefix_app.
    apply lazy_star_first; [assumption| |].
    + intros g' x -> Hx. cbn [app]. unfold Re.opt.
      change (x ++ js ")" ++ rest) with (x ++ 41%N :: rest).
      rewrite title_fails.
      * destruct x as [|c x]; [congruence|].
        unfold Re.lit. change (js ")") with [41%N].
        change ((c :: x) ++ 41%N :: rest) with (c :: x ++ 41%N :: rest).
        cbn [Str.strip_prefix].
        destruct (N.eqb_spec 41 c) as [<-|_]; [|reflexivity].
        exfalso. apply Hparen, in_or_app. right. now left.
      * intros H. apply Hquote, in_or_app. now right.
    + cbn [app]. unfold Re.opt.
      change (js ")" ++ rest) with ([] ++ 41%N :: rest).
      rewrite title_fails by tauto. reflexivity.
Qed.

(** Two references in a line of text. *)
Lemma extractImagePaths_reference_witness :
  extractImagePaths
    (js "See " ++ js "![" ++ js "logo" ++ js "](" ++ js " a.png " ++ js ")"
        ++ js " and ![gone](missing.png)")
  = Str.trim (js " a.png ") :: extractImagePaths (js " and ![gone](missing.png)").
Proof.
  apply extractImagePaths_reference.
  - eapply find_first_occurrence. reflexivity.
  - reflexivity.
  - eapply find_first_occurrence. reflexivity.
  - reflexivity.
  - intros H. vm_compute in H. intuition discriminate.
  - intros H. vm_compute in H. intuition discriminate.
Defined.

(** ** The usual image element in the embedded mode *)

Lemma split_at_first (P : codeunit -> bool) : forall x y c c' u v,
  forallb P x = true -> forallb P y = true -> P c = false -> P c' = false ->
  x ++ c :: u = y ++ c' :: v -> x = y /\ u = v.
Proof.
  induction x as [|a x IH]; intros [|b y] c c' u v Hx Hy Hc Hc' E; simpl in *.
  - injection E as _ ->. auto.
  - injection E as -> _. apply andb_true_iff in Hy as [Hb _]. congruence.
  - injection E as -> _. apply andb_true_iff in Hx as [Ha _]. congruence.
  - injection E as -> E.
    apply andb_true_iff in Hx as [_ Hx]. apply andb_true_iff in Hy as [_ Hy].
    destruct (IH y c c' u v Hx Hy Hc Hc' E) as [-> ->]. auto.
Qed.

(** The text [src=Q] does not overlap itself. *)
Lemma src_offset (l x b : jsstring) :
  l <> [] ->
  (js "src=" ++ dq) ++ x = l ++ (js "src=" ++ dq) ++ b ->
  occurs (js "src=" ++ dq) x.
Proof.
  intros Hl E. change (js "src=" ++ dq) with [115; 114; 99; 61; 34]%N in *.
  destruct l as [|c1 [|c2 [|c3 [|c4 [|c5 l]]]]]; [congruence| | | | |];
    cbn [app] in E; injection E; intros; subst; try discriminate.
  now exists l, b.
Qed.

Lemma imgElement_complete (pre ref post after : jsstring) :
  pre <> [] -> forallb (Char.is_not_char 62) pre = true ->
  ref <> [] -> forallb (Char.is_not_char 34) ref = true ->
  forallb (Char.is_not_char 62) post = true ->
  imgElement (js "<img" ++ pre ++ (js "src=" ++ dq) ++ ref ++ dq ++ post ++ js ">" ++ after)
  <> None.
Proof.
  intros Hpre1 Hpre2 Href1 Href2 Hpost.
  unfold imgElement, Re.lit at 1. rewrite strip_prefix_app.
  apply plus_complete; [assumption|assumption|].
  unfold Re.lit at 1. rewrite strip_prefix_app.
  apply plus_complete; [assumption|assumption|].
  unfold Re.lit at 1. rewrite strip_prefix_app.
  unfold Re.star. apply rep_complete; [assumption| |].
  - rewrite length_app. lia.
  - unfold Re.lit. rewrite strip_prefix_app. discriminate.
Qed.

(** The match of the expression on the usual element. *)
Lemma imgElement_usual (pre ref post after : jsstring) :
  let imgTag := js "<img" ++ pre ++ (js "src=" ++ dq) ++ ref ++ dq ++ post ++ js ">" in
  pre <> [] -> forallb (Char.is_not_char 62) pre = true ->
  ref <> [] -> forallb (Char.is_not_char 34) ref = true ->
  forallb (Char.is_not_char 62) ref = true ->
  forallb (Char.is_not_char 62) post = true ->
  (forall a' b', imgTag = a' ++ (js "src=" ++ dq) ++ b' ->
                 length (js "<img" ++ pre) <= length a') ->
  ~ occurs (js "src=" ++ dq) (ref ++ dq ++ post) ->
  imgElement (js "<img" ++ pre ++ (js "src=" ++ dq) ++ ref ++ dq ++ post ++ js ">" ++ after)
  = Some (ref, after).
Proof.
  intros imgTag Hpre1 Hpre2 Href1 Href2 Href3 Hpost Hfirst Hlast.
  pose proof (@imgElement_complete pre ref post after Hpre1 Hpre2 Href1 Href2 Hpost) as Hsome.
  destruct (imgElement _) as [[src' rest']|] eqn:Hm; [|congruence]. clear Hsome.
  apply imgElement_shape in Hm
    as (pre' & post' & E & Hpre1' & Hpre2' & Href1' & Href2' & Hpost').
  apply app_inv_head in E.
  assert (Hq : forallb (Char.is_not_char 62) (js "src=" ++ dq) = true) by reflexivity.
  assert (Hbody : forallb (Char.is_not_char 62)
                    (pre ++ (js "src=" ++ dq) ++ ref ++ dq ++ post) = true).
  { rewrite !forallb_app, Hpre2, Href3, Hpost. reflexivity. }
  assert (Hbody' : exists l0,
             pre ++ (js "src=" ++ dq) ++ ref ++ dq ++ post
             = pre' ++ (js "src=" ++ dq) ++ l0).
  { assert (E' : (pre ++ (js "src=" ++ dq) ++ ref ++ dq ++ post) ++ 62%N :: after
                 = (pre' ++ js "src=" ++ dq)
                     ++ (src' ++ dq ++ post' ++ js ">" ++ rest')).
    { rewrite <- !app_assoc. exact E. }
    apply app_eq_app in E' as [l [[E1 _]|[E1 E2]]].
    - exists l. rewrite E1. now rewrite <- !app_assoc.
    - destruct l as [|c l].
      + exists []. rewrite app_nil_r in E1. rewrite <- E1. now rewrite <- !app_assoc, app_nil_r.
      + exfalso. injection E2 as <- _.
        assert (H : forallb (Char.is_not_char 62) (pre' ++ js "src=" ++ dq) = true)
          by (rewrite forallb_app, Hpre2'; reflexivity).
        rewrite E1, !forallb_app in H. simpl in H.
        rewrite andb_false_r in H. discriminate. }
  destruct Hbody' as [l0 Ebody].
  assert (Epre : pre' = pre).
  { assert (Hlen : length pre <= length pre').
    { specialize (Hfirst (js "<img" ++ pre') (l0 ++ js ">")).
      rewrite !length_app in Hfirst. apply Nat.add_le_mono_l with (p := length (js "<img")).
      apply Hfirst. unfold imgTag.
      rewrite <- !app_assoc. f_equal.
      transitivity ((pre ++ (js "src=" ++ dq) ++ ref ++ dq ++ post) ++ js ">");
        [now rewrite <- !app_assoc|].
      rewrite Ebody. now rewrite <- !app_assoc. }
    apply app_eq_app in Ebody as [l [[E1 E2]|[E1 E2]]].
    - rewrite E1, length_app in Hlen. destruct l; [|simpl in Hlen; lia].
      now rewrite app_nil_r in E1.
    - destruct l as [|c l]; [now rewrite app_nil_r in E1|].
      exfalso. apply Hlast. apply (@src_offset (c :: l) _ l0); [discriminate|].
      rewrite <- E2. now rewrite <- !app_assoc. }
  subst pre'. apply app_inv_head in E. apply app_inv_head in E.
  change (dq ++ post ++ js ">" ++ after) with (34%N :: post ++ 62%N :: after) in E.
  change (dq ++ post' ++ js ">" ++ rest') with (34%N :: post' ++ 62%N :: rest') in E.
  apply (split_at_first (Char.is_not_char 34)) in E as [-> E];
    [|assumption|assumption|reflexivity|reflexivity].
  apply (split_at_first (Char.is_not_char 62)) in E as [_ ->];
    [|assumption|assumption|reflexivity|reflexivity].
  reflexivity.
Qed.

Section EmbedElement.

Context {plib : PathLib} {fsys : FileSystem} {slib : StringLib}.

Variable cfg : ImagePathConfig.

(** X18. The embedded mode on a markup whose only image element is a
    usual one: the element is [<img], attributes, [src=Q], the reference, [Q],
    attributes, [>], with [Q] the double quote; the attributes before are not
    empty; the reference is not empty and holds no double quote and no [>];
    the text [src=Q] occurs nowhere else in the element; and [<img] occurs
    nowhere else in the markup. When the reference is local, its remapped
    path resolves to a file that can be read, and the attributes and the
    extension hold no dollar sign, the reference is replaced by the data URI
    of the file, nothing else in the markup changes, one line is logged, and
    the file system stays as it was. *)
Theorem convertImagesToBase64_embeds
        (sourceFilePath before pre ref post after : jsstring)
        (w : World) (bytes : list byte) :
  let resolved := resolve (dirname sourceFilePath) (path (remapImagePath cfg ref)) in
  let ext := toLowerCase (Str.substring1 (extname resolved)) in
  let imgTag := js "<img" ++ pre ++ (js "src=" ++ dq) ++ ref ++ dq ++ post ++ js ">" in
  pre <> [] -> forallb (Char.is_not_char 62) pre = true ->
  ref <> [] -> forallb (Char.is_not_char 34) ref = true ->
  forallb (Char.is_not_char 62) ref = true ->
  forallb (Char.is_not_char 62) post = true ->
  (forall a' b', imgTag = a' ++ (js "src=" ++ dq) ++ b' ->
                 length (js "<img" ++ pre) <= length a') ->
  ~ occurs (js "src=" ++ dq) (ref ++ dq ++ post) ->
  (forall a' b', before ++ imgTag ++ after = a' ++ js "<img" ++ b' ->
                 length before <= length a') ->
  ~ occurs (js "<img") after ->
  isExternalUrl ref = false ->
  existsSync (fs w) resolved = true ->
  readFileSync (fs w) resolved = Ok bytes ->
  ~ In Char.dollar (pre ++ post ++ ext) ->
  convertImagesToBase64 cfg sourceFilePath (before ++ imgTag ++ after) w
  = (Ok (before
           ++ (js "<img" ++ pre ++ (js "src=" ++ dq) ++ dataUriOf (mimeTypeOf ext) bytes
                  ++ dq ++ post ++ js ">")
           ++ after),
     logged w (js "Embedded image: " ++ basename resolved)).
Proof.
  intros resolved ext imgTag Hpre1 Hpre2 Href1 Href2 Href3 Hpost Hfirst Hlast
         Himg Hafter Hlocal Hyes Hread Hno.
  unfold convertImagesToBase64.
  assert (Hall : Re.execAll imgElement (before ++ imgTag ++ after) = [(imgTag, ref)]).
  { rewrite (execAll_step imgElement_progress).
    unfold imgElement at 1.
    replace (before ++ imgTag ++ after)
      with (before ++ js "<img"
              ++ (pre ++ (js "src=" ++ dq) ++ ref ++ dq ++ post ++ js ">" ++ after))
      by (unfold imgTag; now rewrite <- !app_assoc).
    rewrite (@search_lit_first _ (js "<img") _ ref after).
    - rewrite (execAll_step imgElement_progress).
      unfold imgElement at 1. rewrite search_lit_absent by assumption.
      f_equal. f_equal.
      replace (js "<img" ++ pre ++ (js "src=" ++ dq) ++ ref ++ dq ++ post ++ js ">" ++ after)
        with (imgTag ++ after) by (unfold imgTag; now rewrite <- !app_assoc).
      apply matched_app.
    - intros a' b' E. apply (Himg a' b'). rewrite <- E.
      unfold imgTag. now rewrite <- !app_assoc.
    - pose proof (@imgElement_usual pre ref post after Hpre1 Hpre2 Href1 Href2 Href3
                    Hpost Hfirst Hlast) as Hm.
      unfold imgElement, Re.lit at 1 in Hm. rewrite strip_prefix_app in Hm. exact Hm. }
  rewrite Hall. cbn [foldM]. unfold bind.
  rewrite embedImage_local by assumption.
  pose proof (@embedResolved_replaces_src _ _ _ (dirname sourceFilePath) before
                (js "<img" ++ pre) (post ++ js ">") after ref
                (path (remapImagePath cfg ref)) w bytes) as Hembed.
  cbv zeta in Hembed. fold resolved ext in Hembed.
  replace ((js "<img" ++ pre) ++ (js "src=" ++ quoted ref) ++ post ++ js ">")
    with imgTag in Hembed
    by (unfold imgTag, quoted; now rewrite <- !app_assoc).
  rewrite Hembed; try assumption.
  - unfold ret, quoted. f_equal. f_equal. now rewrite <- !app_assoc.
  - intros a' b' E. apply (Hfirst a' (ref ++ dq ++ b')).
    rewrite E. unfold quoted. now rewrite <- !app_assoc.
  - intros a' b' E. apply (Himg a' (pre ++ (js "src=" ++ dq) ++ ref ++ dq ++ post
                                        ++ js ">" ++ b')).
    rewrite E. unfold imgTag. now rewrite <- !app_assoc.
  - intros H. apply Hno.
    rewrite <- !app_assoc in H.
    apply in_app_or in H as [H|H]; [vm_compute in H; intuition discriminate|].
    apply in_app_or in H as [H|H]; [apply in_or_app; now left|].
    apply in_app_or in H as [H|H]; [apply in_or_app; right; apply in_or_app; now left|].
    apply in_app_or in H as [H|H]; [vm_compute in H; intuition discriminate|].
    apply in_or_app; right; apply in_or_app; now right.
Qed.

End EmbedElement.

(** The element of the sample image in a paragraph. *)
Lemma convertImagesToBase64_embeds_witness :
  @convertImagesToBase64 Host.paths Host.files Host.strings imagePathConfig
    (js "/docs/guide.md")
    (js "<p>" ++ (js "<img" ++ js " " ++ (js "src=" ++ dq) ++ js "a.png" ++ dq
                     ++ (js " alt=" ++ quoted (js "logo")) ++ js ">") ++ js "</p>")
    (Host.world Sample.docs)
  = (Ok (js "<p>"
           ++ (js "<img" ++ js " " ++ (js "src=" ++ dq)
                  ++ dataUriOf (js "image/png") (Host.bytes_of "PNG")
                  ++ dq ++ (js " alt=" ++ quoted (js "logo")) ++ js ">")
           ++ js "</p>"),
     logged (Host.world Sample.docs) (js "Embedded image: a.png")).
Proof.
  apply (@convertImagesToBase64_embeds Host.paths Host.files Host.strings imagePathConfig
           (js "/docs/guide.md") (js "<p>") (js " ") (js "a.png")
           (js " alt=" ++ quoted (js "logo")) (js "</p>")
           (Host.world Sample.docs) (Host.bytes_of "PNG")).
  - discriminate.
  - reflexivity.
  - discriminate.
  - reflexivity.
  - reflexivity.
  - reflexivity.
  - eapply find_first_occurrence. reflexivity.
  - apply (@find_None_absent _ _ []). reflexivity.
  - eapply find_first_occurrence. reflexivity.
  - apply (@find_None_absent _ _ []). reflexivity.
  - reflexivity.
  - reflexivity.
  - reflexivity.
  - intros H. vm_compute in H. intuition discriminate.
Defined.

(** ** A directory without subdirectories, and the rules of a run *)

Lemma parsePair_pair (f t : jsstring) :
  f <> [] -> t <> [] -> ~ In 58%N f -> ~ In 58%N t ->
  parsePair (f ++ 58%N :: t) = Some {| from := f; to := t |}.
Proof.
  intros Hf Ht Hfc Htc. unfold parsePair.
  rewrite split_sep, !split_no_sep by assumption. simpl.
  destruct f; [congruence|]. destruct t; [congruence|]. reflexivity.
Qed.

Lemma split_remapOption (rules : list PathMapping) :
  rules <> [] ->
  Forall (fun m => ~ In 44%N (from m ++ 58%N :: to m)) rules ->
  Str.split 44%N (remapOption rules) = List.map (fun m => from m ++ 58%N :: to m) rules.
Proof.
  induction rules as [|m [|m' ms] IH]; intros Hne Hok; [congruence| |].
  - inversion Hok; subst. simpl. now rewrite split_no_sep.
  - inversion Hok as [|? ? Hm Hms]; subst.
    change (remapOption (m :: m' :: ms))
      with (from m ++ 58%N :: to m ++ 44%N :: remapOption (m' :: ms)).
    replace (from m ++ 58%N :: to m ++ 44%N :: remapOption (m' :: ms))
      with ((from m ++ 58%N :: to m) ++ 44%N :: remapOption (m' :: ms))
      by now rewrite <- app_assoc.
    rewrite split_sep, split_no_sep by assumption.
    rewrite IH by (assumption || discriminate). reflexivity.
Qed.

Section TraversalFacts.

Context {SL : Slugifier} {plib : PathLib} {fsys : FileSystem} {slib : StringLib}
        {mk : Markdown} {sty : Stylesheet} {br : Browser}.

Variable stackLimit : nat.

(** X19. A directory without subdirectories: the documents that
    [traverseDirectory] returns are the entries of the directory, joined to
    its path, whose extension is [.md], in the order of the entries; the
    other entries are ignored and nothing is changed. *)
Theorem traverseDirectory_flat
        (useDirectory : jsstring) (entries : list jsstring) (w : World) :
  stackLimit <> 0 ->
  readdirSync (fs w) useDirectory = Ok entries ->
  Forall (fun file => isDirectory (fs w) (join useDirectory file) = Ok false) entries ->
  traverseDirectory stackLimit useDirectory w
  = (Ok (filter (fun p => jsstring_eqb (extname p) (js ".md"))
                (List.map (join useDirectory) entries)),
     w).
Proof.
  intros Hlimit Hread Hflat. unfold traverseDirectory.
  destruct stackLimit as [|depth]; [congruence|].
  simpl. unfold bind at 1, fs_read at 1. rewrite Hread. clear Hread.
  assert (Hloop : forall acc,
             foldM (fun mdFiles file =>
                      let fullPath := join useDirectory file in
                      isDir <- fs_read (fun s => isDirectory s fullPath) ;;
                      if isDir then scanDir depth fullPath mdFiles
                      else if jsstring_eqb (extname fullPath) (js ".md")
                           then ret (mdFiles ++ [fullPath])
                           else ret mdFiles)
                   entries acc w
             = (Ok (acc ++ filter (fun p => jsstring_eqb (extname p) (js ".md"))
                                  (List.map (join useDirectory) entries)),
                w)).
  { induction Hflat as [|file files Hfile _ IH]; intros acc.
    - simpl. now rewrite app_nil_r.
    - cbn [foldM List.map filter]. unfold bind at 1. unfold bind at 1, fs_read at 1.
      cbv zeta. rewrite Hfile.
      destruct (jsstring_eqb (extname (join useDirectory file)) (js ".md"));
        unfold ret at 1; rewrite IH; [now rewrite <- app_assoc|reflexivity]. }
  apply (Hloop []).
Qed.

(** X20. The rules of a run are those its [--remap] option lists: for a
    non-empty list of rules whose texts are not empty and hold neither colon
    nor comma, written as comma-separated pairs [from:to], configuring the
    rules gives exactly these rules, in their order, in the place of the
    default rule, with remapping enabled. *)
Theorem configureRemap_round_trip
        (options : Options) (rules : list PathMapping) (w : World) :
  rules <> [] ->
  Forall (fun m => from m <> [] /\ to m <> [] /\
                   ~ In 58%N (from m ++ to m) /\ ~ In 44%N (from m ++ to m)) rules ->
  remap options = remapOption rules ->
  fst (configureRemap options w)
  = Ok {| enableRemapping := true; pathMappings := rules; handleExternalUrls := true |}.
Proof.
  intros Hne Hok Hremap. unfold configureRemap.
  assert (Hsplit : Str.split 44%N (remap options)
                   = List.map (fun m => from m ++ 58%N :: to m) rules).
  { rewrite Hremap. apply split_remapOption; [assumption|].
    eapply Forall_impl; [|exact Hok]. intros m (_ & _ & _ & Hcomma) H.
    apply Hcomma. apply in_app_or in H as [H|[H|H]]; [|discriminate|];
      apply in_or_app; tauto. }
  assert (Htruthy : truthy (remap options) = true).
  { rewrite Hremap. destruct rules as [|m ms]; [congruence|].
    inversion Hok as [|? ? (Hf & _) _]; subst.
    destruct (from m) eqn:Hfrom; [congruence|].
    destruct ms; cbn [remapOption]; rewrite Hfrom; reflexivity. }
  rewrite Htruthy, Hsplit, configureRemap_loop. cbn [fst]. f_equal.
  cbn [enableRemapping pathMappings handleExternalUrls imagePathConfig app]. f_equal.
  clear Hsplit Htruthy Hremap Hne.
  induction Hok as [|m ms (Hf & Ht & Hcolon & _) _ IH]; [reflexivity|].
  cbn [List.map flat_map]. rewrite parsePair_pair, IH; try assumption.
  - now destruct m.
  - intros H. apply Hcolon, in_or_app. tauto.
  - intros H. apply Hcolon, in_or_app. tauto.
Qed.

End TraversalFacts.

(** The directory of the sample document. *)
Lemma traverseDirectory_flat_witness :
  @traverseDirectory Host.paths Host.files 16 (js "/docs") (Host.world Sample.docs)
  = (Ok [js "/docs/guide.md"], Host.world Sample.docs).
Proof.
  apply (@traverseDirectory_flat Host.paths Host.files 16 (js "/docs")
           [js "guide.md"; js "a.png"] (Host.world Sample.docs)).
  - discriminate.
  - reflexivity.
  - repeat constructor.
Defined.

(** A run with two rules. *)
Lemma configureRemap_round_trip_witness :
  fst (@configureRemap Host.files Sample.remapRun (Host.world Sample.docs))
  = Ok {| enableRemapping := true; pathMappings := Sample.twoRules;
          handleExternalUrls := true |}.
Proof.
  apply configureRemap_round_trip.
  - discriminate.
  - repeat constructor; try discriminate;
      intros H; vm_compute in H; intuition discriminate.
  - reflexivity.
Defined.

(** ** Every occurrence of a rule's pattern *)

Lemma pieces_exist (a0 : codeunit) (p0 : jsstring) :
  forall s, exists xs, Pieces (a0 :: p0) xs s.
Proof.
  induction s as [s IH] using length_ind.
  destruct (Str.find (a0 :: p0) [] s) as [[a b]|] eqn:Hf.
  - apply find_minimal in Hf as (a' & Ea & -> & Hmin). simpl in Ea. subst a'.
    destruct (IH b) as [xs Hxs]; [rewrite !length_app; simpl; lia|].
    exists (a :: xs). now constructor.
  - exists [s]. constructor. now apply find_None_absent in Hf.
Qed.

Lemma pieces_join pat xs s : Pieces pat xs s -> s = joinWith pat xs.
Proof.
  induction 1 as [x Hx|x xs s Hmin Hxs IH]; [reflexivity|].
  destruct xs as [|y xs]; [inversion Hxs|].
  change (joinWith pat (x :: y :: xs)) with (x ++ pat ++ joinWith pat (y :: xs)).
  now rewrite <- IH.
Qed.

Lemma replaceFrom_pieces (a0 : codeunit) (p0 template : jsstring) xs s :
  Pieces (a0 :: p0) xs s ->
  forall before,
    Re.replaceFrom (a0 :: p0) template before s
    = substituted (a0 :: p0) template before xs.
Proof.
  induction 1 as [x Hx|x xs s Hmin Hxs IH]; intros before.
  - now apply replaceFrom_absent.
  - rewrite replaceFrom_first by assumption. rewrite IH.
    destruct xs as [|y xs]; [inversion Hxs|].
    change (substituted (a0 :: p0) template before (x :: y :: xs))
      with (x ++ Str.getSubstitution (a0 :: p0) (before ++ x)
                   (joinWith (a0 :: p0) (y :: xs)) template
              ++ substituted (a0 :: p0) template (before ++ x ++ a0 :: p0) (y :: xs)).
    now rewrite <- (pieces_join Hxs).
Qed.

Lemma substituted_plain pat template :
  ~ In Char.dollar template ->
  forall xs before, substituted pat template before xs = joinWith template xs.
Proof.
  intros Hno. induction xs as [|x [|y xs] IH]; intros before; [reflexivity|reflexivity|].
  change (substituted pat template before (x :: y :: xs))
    with (x ++ Str.getSubstitution pat (before ++ x) (joinWith pat (y :: xs)) template
            ++ substituted pat template (before ++ x ++ pat) (y :: xs)).
  rewrite getSubstitution_plain by assumption. now rewrite IH.
Qed.

(** C6. For every image path that is not external, with remapping enabled,
    the remapper applies the rules in list order, each rule to the result of
    the one before. A rule whose pattern is not empty replaces every
    occurrence that a scan from the left meets: the text is cut into pieces
    at these occurrences, and the result is the pieces with the expansion of
    the replacement between them, which is the replacement itself when it
    holds no dollar sign. With the default rule, [/assets/logo.png] becomes
    [/_assets/logo.png], and both occurrences in [a/assets/b/assets/c.png]
    are replaced. *)
Theorem remapImagePath_rules (cfg : ImagePathConfig) (imagePath : jsstring) :
  isExternalUrl imagePath = false ->
  enableRemapping cfg = true ->
  remapImagePath cfg imagePath
    = {| path := applyMappings (pathMappings cfg) imagePath; isExternal := false |} /\
  (forall s, applyMappings [] s = s) /\
  (forall m ms s,
      applyMappings (m :: ms) s = applyMappings ms (Re.replaceAll (from m) (to m) s)) /\
  (forall m s,
      from m <> [] ->
      exists pieces,
        Pieces (from m) pieces s /\
        s = joinWith (from m) pieces /\
        Re.replaceAll (from m) (to m) s = substituted (from m) (to m) [] pieces /\
        (~ In Char.dollar (to m) ->
         Re.replaceAll (from m) (to m) s = joinWith (to m) pieces)) /\
  (forall m pieces s,
      from m <> [] ->
      Pieces (from m) pieces s ->
      ~ In Char.dollar (to m) ->
      Re.replaceAll (from m) (to m) s = joinWith (to m) pieces) /\
  path (remapImagePath imagePathConfig (js "/assets/logo.png")) = js "/_assets/logo.png" /\
  path (remapImagePath imagePathConfig (js "a/assets/b/assets/c.png"))
  = js "a/_assets/b/_assets/c.png".
Proof.
  intros Hext Hon. split; [|split; [|split; [|split; [|split; [|split]]]]];
    try reflexivity.
  - unfold remapImagePath. now rewrite Hext, Hon.
  - intros m s Hne. destruct (from m) as [|a0 p0]; [congruence|].
    destruct (pieces_exist a0 p0 s) as [pieces Hp]. exists pieces.
    split; [exact Hp|]. split; [now apply pieces_join|].
    unfold Re.replaceAll. rewrite (replaceFrom_pieces (to m) Hp).
    split; [reflexivity|]. intros Hno. now apply substituted_plain.
  - intros m pieces s Hne Hp Hno. destruct (from m) as [|a0 p0]; [congruence|].
    unfold Re.replaceAll. rewrite (replaceFrom_pieces (to m) Hp).
    now apply substituted_plain.
Qed.

(** The default rule on [/assets/logo.png]. *)
Lemma remapImagePath_rules_witness :
  isExternalUrl (js "/assets/logo.png") = false /\
  remapImagePath imagePathConfig (js "/assets/logo.png")
    = {| path := applyMappings (pathMappings imagePathConfig) (js "/assets/logo.png");
         isExternal := false |}.
Proof.
  split; [reflexivity|].
  exact (proj1 (remapImagePath_rules imagePathConfig (js "/assets/logo.png")
                  eq_refl eq_refl)).
Defined.

(** ** The entries of the table of contents *)

Lemma spaces_repeat n : spaces n = List.repeat 32%N n.
Proof.
  unfold spaces. induction n as [|n IH]; [reflexivity|].
  simpl. now rewrite IH.
Qed.

Lemma decimal_digit (k : nat) : 1 <= k <= 6 -> decimal k = [N.of_nat (48 + k)].
Proof.
  intros Hk.
  assert (E : k = 1 \/ k = 2 \/ k = 3 \/ k = 4 \/ k = 5 \/ k = 6) by lia.
  destruct E as [->|[->|[->|[->|[->| ->]]]]]; reflexivity.
Qed.

Lemma joinWith_nil xs : joinWith [] xs = concat xs.
Proof.
  induction xs as [|x [|y xs] IH]; [reflexivity|simpl; now rewrite app_nil_r|].
  change (joinWith [] (x :: y :: xs)) with (x ++ [] ++ joinWith [] (y :: xs)).
  rewrite IH. reflexivity.
Qed.

(** C8. For every sequence of heading records with levels from 1 to 6, the
    table of contents is the header, then one entry for each record, in the
    order of the records, then the footer, which ends with the page-break
    marker. The entry of a record is indented by two spaces for each level
    above the first, carries the level in its class, links to the hash sign
    followed by the record's id, and displays the record's text with the
    pairs of stars that a scan from the left meets taken out: the pieces
    between them, put together, in which no pair of stars is left and every
    other character is kept as it is. *)
Theorem generateTOC_entries (headings : list HeadingRecord) :
  Forall (fun h => 1 <= level h <= 6) headings ->
  exists entries,
    generateTOC headings
    = (js "<div class=" ++ quoted (js "toc-container") ++ js ">" ++ nl
          ++ js "<h2>Table of Contents</h2>" ++ nl
          ++ js "<ul class=" ++ quoted (js "toc") ++ js ">" ++ nl)
        ++ concat entries
        ++ (js "</ul>" ++ nl ++ js "</div>" ++ nl
              ++ js "<div class=" ++ quoted (js "page-break") ++ js "></div>" ++ nl) /\
    Forall2 (fun h entry =>
               exists pieces,
                 Pieces (js "**") pieces (text h) /\
                 entry
                 = List.repeat 32%N (2 * (level h - 1))
                     ++ js "<li class="
                     ++ quoted (js "toc-level-" ++ [N.of_nat (48 + level h)])
                     ++ js "><a href=" ++ quoted (js "#" ++ id h) ++ js ">"
                     ++ concat pieces ++ js "</a></li>" ++ nl /\
                 ~ occurs (js "**") (concat pieces) /\
                 filter (Char.is_not_char Char.star) (concat pieces)
                 = filter (Char.is_not_char Char.star) (text h))
            headings entries.
Proof.
  intros Hlevels. exists (List.map tocEntry headings). split.
  - unfold generateTOC. now rewrite fold_left_append, <- app_assoc.
  - induction Hlevels as [|h hs Hh _ IH]; [constructor|].
    cbn [List.map]. constructor; [|exact IH].
    destruct (pieces_exist Char.star [Char.star] (text h)) as [pieces Hp].
    assert (Hshown : Re.replaceAll (js "**") [] (text h) = concat pieces).
    { unfold Re.replaceAll. rewrite bold_pattern, (replaceFrom_pieces [] Hp).
      rewrite substituted_plain by (intros []). apply joinWith_nil. }
    exists pieces. rewrite bold_pattern. split; [exact Hp|]. split; [|split].
    + unfold tocEntry.
      rewrite repeat_two_spaces, spaces_repeat, (decimal_digit Hh), Hshown.
      reflexivity.
    + rewrite <- Hshown, <- bold_pattern. apply strip_bold_none.
    + rewrite <- Hshown. apply strip_bold_keeps.
Qed.

(** The sample records: two entries. *)
Lemma generateTOC_entries_witness :
  exists entries,
    generateTOC Sample.headings
    = (js "<div class=" ++ quoted (js "toc-container") ++ js ">" ++ nl
          ++ js "<h2>Table of Contents</h2>" ++ nl
          ++ js "<ul class=" ++ quoted (js "toc") ++ js ">" ++ nl)
        ++ concat entries
        ++ (js "</ul>" ++ nl ++ js "</div>" ++ nl
              ++ js "<div class=" ++ quoted (js "page-break") ++ js "></div>" ++ nl) /\
    length entries = 2.
Proof.
  assert (H : Forall (fun h => 1 <= level h <= 6) Sample.headings)
    by (constructor; [simpl; lia|constructor; [simpl; lia|constructor]]).
  destruct (generateTOC_entries H) as (entries & Htoc & Hall).
  exists entries. split; [exact Htoc|].
  exact (eq_sym (Forall2_length Hall)).
Defined.
